(** * Quiz-App: the session engine of [App.jsx], embedded in Rocq

    The development follows the two React components of the repository:
    the multi-category quiz ([quiz-app/src/App.jsx]) and its single-category
    sibling.  Both keep their state in [useState] cells, mirror it into one
    [localStorage] item and derive a score from it.

    - [JS]       the JavaScript values the engine handles (JSON values,
                 truthiness, strict equality, property reads);
    - [Score]    [calculateScore], [getPercentage] and the grade banding;
    - [Engine]   the state cells, the intent handlers and the two effects
                 of the multi-category component, with the stored item;
    - [Single]   the effects and the navigation handlers of the
                 single-category component;
    - [Shape]    the data model as predicates on cells and stored items,
                 and the worlds the engine reaches;
    - [Rounding] the place of a quotient between two mantissas while it is
                 rounded to binary64;
    - [Tables], [Scenario]  decision tables and concrete quizzes.

    The proofs follow the definitions: scoring, navigation, persistence,
    switching between categories, rehydration.

    Reading conventions.  [undefined] is [None] in [option json].  Numbers
    are the integers of the safe range ([Z]); the only floating-point
    computation of the source, in [getPercentage], is carried out on
    binary64 floats.  A [string] holds the UTF-8 bytes of a JavaScript
    string; where the source measures or indexes a string it does so in
    UTF-16 code units ([code_units]).  JSON arrays do not occur in the
    documents the engine writes and are not part of [json]. *)

From Stdlib Require Import ZArith Floats.
From stdpp Require Import gmap strings list fin_maps pretty.

Set Warnings "-register-all".
Local Open Scope string_scope.

(** ** JavaScript values *)

Module JS.

Inductive json :=
| JNull
| JBool (b : bool)
| JNum (n : Z)
| JStr (s : string)
| JObj (m : gmap string json).

(** ToBoolean: [null], [false], [0] and the empty string are falsy, every
    object is truthy. *)
Definition truthy (v : json) : bool :=
  match v with
  | JNull => false
  | JBool b => b
  | JNum n => negb (n =? 0)%Z
  | JStr s => negb (String.eqb s "")
  | JObj _ => true
  end.

(** [v || d] where [v] may be [undefined]. *)
Definition or_default (v : option json) (d : json) : json :=
  match v with
  | Some x => if truthy x then x else d
  | None => d
  end.

(** [a === b].  Two objects are compared by reference; the operands the
    engine compares come from different places (a stored answer against a
    question record, a state cell against a literal), so two objects never
    are the same reference. *)
Definition strict_eq (a b : option json) : bool :=
  match a, b with
  | None, None => true
  | Some JNull, Some JNull => true
  | Some (JBool x), Some (JBool y) => Bool.eqb x y
  | Some (JNum x), Some (JNum y) => (x =? y)%Z
  | Some (JStr x), Some (JStr y) => String.eqb x y
  | _, _ => false
  end.

(** ToPropertyKey, as used by [o[k]] and by [{ [k]: v }]. *)
Definition to_key (v : json) : string :=
  match v with
  | JNull => "null"
  | JBool true => "true"
  | JBool false => "false"
  | JNum n => pretty n
  | JStr s => s
  | JObj _ => "[object Object]"
  end.

(** A [string] holds the UTF-8 bytes of a JavaScript string, a lone
    surrogate as the three bytes of its code unit.  JavaScript measures
    and indexes a string in UTF-16 code units. *)

(** The three bytes of the code unit [u], for [u] from U+0800 up. *)
Definition unit_string (u : N) : string :=
  String (Ascii.ascii_of_N (224 + u / 4096))
    (String (Ascii.ascii_of_N (128 + (u / 64) mod 64))
       (String (Ascii.ascii_of_N (128 + u mod 64)) "")).

(** The offset from U+10000 of the code point of a four-byte sequence. *)
Definition astral (b0 b1 b2 b3 : Ascii.ascii) : N :=
  ((Ascii.N_of_ascii b0 mod 8) * 262144 + (Ascii.N_of_ascii b1 mod 64) * 4096
   + (Ascii.N_of_ascii b2 mod 64) * 64 + Ascii.N_of_ascii b3 mod 64 - 65536)%N.

(** The one-unit strings [s[0]], [s[1]], ...: a sequence of one to three
    bytes is one code unit, a sequence of four bytes is a surrogate pair. *)
Fixpoint code_units (s : string) : list string :=
  match s with
  | EmptyString => []
  | String b0 rest0 =>
      let lead := Ascii.N_of_ascii b0 in
      if (lead <? 192)%N then String b0 "" :: code_units rest0
      else
        match rest0 with
        | String b1 rest1 =>
            if (lead <? 224)%N then String b0 (String b1 "") :: code_units rest1
            else
              match rest1 with
              | String b2 rest2 =>
                  if (lead <? 240)%N
                  then String b0 (String b1 (String b2 "")) :: code_units rest2
                  else
                    match rest2 with
                    | String b3 rest3 =>
                        let v := astral b0 b1 b2 b3 in
                        unit_string (55296 + v / 1024)
                        :: unit_string (56320 + v mod 1024)
                        :: code_units rest3
                    | EmptyString => String b0 "" :: code_units rest0
                    end
              | EmptyString => String b0 "" :: code_units rest0
              end
        | EmptyString => [String b0 ""]
        end
  end.

(** Property read on a string primitive: an index below the length gives
    the one-unit string, ["length"] the length, anything else
    [undefined]. *)
Definition string_prop (s : string) (k : string) : option json :=
  if String.eqb k "length"
  then Some (JNum (Z.of_nat (List.length (code_units s))))
  else
    match List.find (fun i => String.eqb (pretty i) k)
                    (seq 0 (List.length (code_units s))) with
    | Some i => JStr <$> code_units s !! i
    | None => None
    end.

(** [base[k]] for a base that is neither [null] nor [undefined] (reading
    through those throws, and every caller below guards against them).
    The keys the engine uses are never names of [Object.prototype]. *)
Definition read (base : json) (k : string) : option json :=
  match base with
  | JObj m => m !! k
  | JStr s => string_prop s k
  | JNull | JBool _ | JNum _ => None
  end.

(** [base?.[k]]: [undefined] when the base is [null] or [undefined]. *)
Definition read_opt (base : option json) (k : string) : option json :=
  match base with
  | None | Some JNull => None
  | Some b => read b k
  end.

(** The operand of a spread or of arithmetic, when it has the type the
    engine itself writes. *)
Definition as_object (v : json) : option (gmap string json) :=
  match v with JObj m => Some m | _ => None end.

Definition as_number (v : json) : option Z :=
  match v with JNum n => Some n | _ => None end.

End JS.

Export JS.

(** ** Scoring *)

Module Score.

(** A record of the question files.  The files are not part of the
    sources at hand; a record may carry its correct answer under [answer],
    under [correctAnswer], under both or under neither, and a field that is
    not there reads as [undefined]. *)
Record question := {
  question_text : string;
  options : list string;
  answer : option string;
  correctAnswer : option string
}.

(** [q.answer] and [q.correctAnswer] as JavaScript values. *)
Definition field_value (field : question -> option string) (q : question)
  : option json := JStr <$> field q.

(** [userAnswers[index]] for the index handed out by [forEach]. *)
Definition answer_at (userAnswers : gmap string json) (index : nat)
  : option json := userAnswers !! to_key (JNum (Z.of_nat index)).

(** The comparison [userAnswers[index] === q.answer] of the loop body. *)
Definition hit (field : question -> option string)
    (userAnswers : gmap string json) (q : question) (index : nat) : bool :=
  strict_eq (answer_at userAnswers index) (field_value field q).

(** The body of [questions.forEach((q, index) => ...)], started at [index]
    with the counter at [correct]. *)
Fixpoint forEach_count (field : question -> option string)
    (userAnswers : gmap string json) (questions : list question)
    (index correct : nat) : nat :=
  match questions with
  | [] => correct
  | q :: rest =>
      forEach_count field userAnswers rest (S index)
        (if hit field userAnswers q index then S correct else correct)
  end.

Definition calculateScore_on (field : question -> option string)
    (questions : list question) (userAnswers : gmap string json) : nat :=
  forEach_count field userAnswers questions 0 0.

(** [App.jsx] compares against [q.answer]. *)
Definition calculateScore := calculateScore_on answer.

(** A JavaScript number that came out of [Math.round]. *)
Inductive number :=
| Finite (z : Z)
| NotANumber
| Infinite (negative : bool).

(** The binary64 value of a count (exact below 2^53). *)
Definition of_count (n : nat) : float :=
  PrimFloat.of_uint63 (Uint63.of_Z (Z.of_nat n)).

(** [Math.round x]: the integer closest to [x], a tie going towards
    +Infinity, computed exactly from the mantissa and exponent of [x]. *)
Definition Math_round (x : float) : number :=
  match Prim2SF x with
  | S754_zero _ => Finite 0
  | S754_infinity s => Infinite s
  | S754_nan => NotANumber
  | S754_finite s m e =>
      let v := if s then Z.neg m else Z.pos m in
      Finite (if (0 <=? e)%Z then v * 2 ^ e
              else (2 * v + 2 ^ (- e)) / 2 ^ (- e + 1))%Z
  end.

(** [Math.round((score / length) * 100)] on two counts. *)
Definition percent_of (score length : nat) : number :=
  Math_round (PrimFloat.mul (PrimFloat.div (of_count score) (of_count length))
                            (of_count 100)).

Definition getPercentage_on (field : question -> option string)
    (questions : list question) (userAnswers : gmap string json) : number :=
  percent_of (calculateScore_on field questions userAnswers) (length questions).

Definition getPercentage := getPercentage_on answer.

(** [percentage >= k]; every comparison with [NaN] is false. *)
Definition number_ge (p : number) (k : Z) : bool :=
  match p with
  | Finite z => (k <=? z)%Z
  | NotANumber => false
  | Infinite negative => negb negative
  end.

(** The [gradeClass] chosen on the results screen. *)
Definition gradeClass (percentage : number) : string :=
  if number_ge percentage 80 then "grade-excellent"
  else if number_ge percentage 60 then "grade-good"
  else if number_ge percentage 40 then "grade-average"
  else "grade-low".

(** The spec's reading of the score: the indices below the number of
    questions whose recorded answer is the record's correct answer. *)
Definition matches_at (field : question -> option string)
    (questions : list question) (userAnswers : gmap string json) (i : nat)
  : bool :=
  match questions !! i with
  | Some q =>
      match field q, answer_at userAnswers i with
      | Some a, Some (JStr s) => String.eqb s a
      | _, _ => false
      end
  | None => false
  end.

Definition matching_indices (field : question -> option string)
    (questions : list question) (userAnswers : gmap string json) : list nat :=
  List.filter (matches_at field questions userAnswers) (seq 0 (length questions)).

(** The comparison of the loop at an index whose record lacks the field
    and for which nothing is recorded: [undefined === undefined]. *)
Definition blank_at (field : question -> option string)
    (questions : list question) (userAnswers : gmap string json) (i : nat)
  : bool :=
  match questions !! i with
  | Some q =>
      match field q, answer_at userAnswers i with
      | None, None => true
      | _, _ => false
      end
  | None => false
  end.

Definition blank_indices (field : question -> option string)
    (questions : list question) (userAnswers : gmap string json) : list nat :=
  List.filter (blank_at field questions userAnswers) (seq 0 (length questions)).

(** An index for which nothing is recorded. *)
Definition unanswered (userAnswers : gmap string json) (index : nat) : bool :=
  match answer_at userAnswers index with None => true | Some _ => false end.

(** The spec's reading of a record's correct answer: one internal field
    that holds it whichever way the record spells it. *)
Definition normalized (q : question) : option string :=
  match correctAnswer q with
  | Some a => Some a
  | None => answer q
  end.

(** The spec's reading of the percentage: [100 * score / length] rounded
    to the nearest integer, a half going up. *)
Definition half_up_percent (score length : nat) : Z :=
  ((200 * Z.of_nat score + Z.of_nat length) / (2 * Z.of_nat length))%Z.

(** The review list of the results screen.  A card is marked by
    [isCorrect = userAnswers[index] === question.answer]. *)
Definition card_class (field : question -> option string)
    (userAnswers : gmap string json) (q : question) (index : nat) : string :=
  if hit field userAnswers q index then "correct" else "incorrect".

(** [optionClass] of one option of a card: [isCorrectAnswer] is
    [option === question.answer], [isUserAnswer] is [option === userAnswer]. *)
Definition optionClass (field : question -> option string)
    (userAnswers : gmap string json) (q : question) (index : nat)
    (option : string) : string :=
  let isUserAnswer := strict_eq (Some (JStr option)) (answer_at userAnswers index) in
  let isCorrectAnswer := strict_eq (Some (JStr option)) (field_value field q) in
  if isCorrectAnswer then "option-correct"
  else if isUserAnswer && negb (hit field userAnswers q index) then "option-wrong"
  else "".

(** [questions.map((question, index) => ...)] of the review list, started
    at [index]: the class of each card with the classes of its options. *)
Fixpoint review_from (field : question -> option string)
    (userAnswers : gmap string json) (questions : list question) (index : nat)
  : list (string * list string) :=
  match questions with
  | [] => []
  | q :: rest =>
      (card_class field userAnswers q index,
       map (optionClass field userAnswers q index) (options q))
      :: review_from field userAnswers rest (S index)
  end.

Definition review (field : question -> option string)
    (questions : list question) (userAnswers : gmap string json)
  : list (string * list string) :=
  review_from field userAnswers questions 0.

End Score.

Export Score.

(** ** The multi-category component ([quiz-app/src/App.jsx]) *)

Module Engine.

(** [SCREENS] *)
Definition HOME : string := "home".
Definition QUIZ : string := "quiz".
Definition RESULTS : string := "results".

(** The [useState] cells of [App].  A cell holds whatever was last handed
    to its setter, so each persisted cell is a JSON value. *)
Record state := {
  screen : json;
  selectedCategory : json;
  currentQuestion : json;
  userAnswers : json;
  selectedOption : json;
  isTransitioning : bool
}.

(** The arguments of the six [useState] calls. *)
Definition initial_state : state := {|
  screen := JStr HOME;
  selectedCategory := JNull;
  currentQuestion := JNum 0;
  userAnswers := JObj ∅;
  selectedOption := JNull;
  isTransitioning := false
|}.

Definition setScreen (v : json) (st : state) : state :=
  {| screen := v; selectedCategory := selectedCategory st;
     currentQuestion := currentQuestion st; userAnswers := userAnswers st;
     selectedOption := selectedOption st; isTransitioning := isTransitioning st |}.

Definition setSelectedCategory (v : json) (st : state) : state :=
  {| screen := screen st; selectedCategory := v;
     currentQuestion := currentQuestion st; userAnswers := userAnswers st;
     selectedOption := selectedOption st; isTransitioning := isTransitioning st |}.

Definition setCurrentQuestion (v : json) (st : state) : state :=
  {| screen := screen st; selectedCategory := selectedCategory st;
     currentQuestion := v; userAnswers := userAnswers st;
     selectedOption := selectedOption st; isTransitioning := isTransitioning st |}.

Definition setUserAnswers (v : json) (st : state) : state :=
  {| screen := screen st; selectedCategory := selectedCategory st;
     currentQuestion := currentQuestion st; userAnswers := v;
     selectedOption := selectedOption st; isTransitioning := isTransitioning st |}.

Definition setSelectedOption (v : json) (st : state) : state :=
  {| screen := screen st; selectedCategory := selectedCategory st;
     currentQuestion := currentQuestion st; userAnswers := userAnswers st;
     selectedOption := v; isTransitioning := isTransitioning st |}.

Definition setIsTransitioning (b : bool) (st : state) : state :=
  {| screen := screen st; selectedCategory := selectedCategory st;
     currentQuestion := currentQuestion st; userAnswers := userAnswers st;
     selectedOption := selectedOption st; isTransitioning := b |}.

(** What [localStorage.getItem(STORAGE_KEY)] finds, told apart by what the
    code does with it: nothing ([null]); the empty string, which is falsy
    and never parsed; a non-empty text on which [JSON.parse] throws; a text
    that parses to [doc].  [JSON.stringify doc] writes [Text doc], and
    parsing it gives [doc] back. *)
Inductive item :=
| NoItem
| EmptyText
| Malformed
| Text (doc : json).

(** [{ currentQuestion, userAnswers, selectedOption }] *)
Definition session_doc (st : state) : json :=
  JObj (<["currentQuestion" := currentQuestion st]>
       (<["userAnswers" := userAnswers st]>
       (<["selectedOption" := selectedOption st]> ∅))).

(** [{ screen, selectedCategory }] *)
Definition view_doc (st : state) : json :=
  JObj (<["screen" := screen st]>
       (<["selectedCategory" := selectedCategory st]> ∅)).

(** [getSavedCategoryData]: every failure ends in [return null]. *)
Definition getSavedCategoryData (categoryKey : string) (it : item) : json :=
  match it with
  | NoItem | EmptyText => JNull
  | Malformed => JNull
  | Text JNull => JNull
  | Text parsed =>
      or_default (read_opt (read parsed "categories") categoryKey) JNull
  end.

(** The [try] block of the load effect on the parsed text; [None] when it
    throws, which only reading [parsed.currentView] of [null] does, before
    any setter has run. *)
Definition load_try (parsed : json) (st : state) : option state :=
  match parsed with
  | JNull => None
  | _ =>
      let currentView := read parsed "currentView" in
      let st := setScreen (or_default (read_opt currentView "screen") (JStr HOME)) st in
      let savedCategory := or_default (read_opt currentView "selectedCategory") JNull in
      let st := setSelectedCategory savedCategory st in
      if truthy savedCategory then
        match read_opt (read parsed "categories") (to_key savedCategory) with
        | Some categoryState =>
            if truthy categoryState then
              let st := setCurrentQuestion
                          (or_default (read categoryState "currentQuestion") (JNum 0)) st in
              let st := setUserAnswers
                          (or_default (read categoryState "userAnswers") (JObj ∅)) st in
              Some (setSelectedOption
                      (or_default (read categoryState "selectedOption") JNull) st)
            else Some st
        | None => Some st
        end
      else Some st
  end.

(** The load effect, run once when the component mounts. *)
Definition load_effect (it : item) (st : state) : state :=
  match it with
  | NoItem | EmptyText => st
  | Malformed => st
  | Text parsed =>
      match load_try parsed st with
      | Some st' => st'
      | None => st
      end
  end.

(** [load()]: the state a fresh component rehydrates to. *)
Definition load (it : item) : state := load_effect it initial_state.

(** The [try] block of the save effect up to [JSON.stringify]; [None] when
    it throws: [JSON.parse] on a malformed text, or an assignment to a
    property of [null] or of a primitive (the file is module code, hence
    strict). *)
Definition save_try (st : state) (it : item) : option json :=
  existing ← match it with
             | NoItem | EmptyText => Some (JObj (<["categories" := JObj ∅]> ∅))
             | Malformed => None
             | Text doc => Some doc
             end;
  m ← as_object existing;
  let m := <["currentView" := view_doc st]> m in
  if truthy (selectedCategory st) then
    categories ← as_object (or_default (m !! "categories") (JObj ∅));
    Some (JObj (<["categories" :=
                    JObj (<[to_key (selectedCategory st) := session_doc st]> categories)]> m))
  else Some (JObj m).

(** The save effect, run after every render in which a persisted cell
    changed; a caught exception leaves the item as it was. *)
Definition save_effect (st : state) (it : item) : item :=
  match save_try st it with
  | Some doc => Text doc
  | None => it
  end.

(** [selectCategory], with the body of its timeout. *)
Definition selectCategory (categoryKey : string) (it : item) (st : state) : state :=
  let st := setIsTransitioning true st in
  let savedCategoryState := getSavedCategoryData categoryKey it in
  let st := setSelectedCategory (JStr categoryKey) st in
  let st := setScreen (JStr QUIZ) st in
  let st :=
    if truthy savedCategoryState then
      let st := setCurrentQuestion
                  (or_default (read savedCategoryState "currentQuestion") (JNum 0)) st in
      let st := setUserAnswers
                  (or_default (read savedCategoryState "userAnswers") (JObj ∅)) st in
      setSelectedOption (or_default (read savedCategoryState "selectedOption") JNull) st
    else
      setSelectedOption JNull (setUserAnswers (JObj ∅) (setCurrentQuestion (JNum 0) st)) in
  setIsTransitioning false st.

Definition selectOption (option : json) (st : state) : state :=
  setSelectedOption option st.

(** [{ ...userAnswers, [currentQuestion]: selectedOption }] *)
Definition with_answer (answers : gmap string json) (index : Z) (option : json)
  : gmap string json := <[to_key (JNum index) := option]> answers.

(** [nextQuestion], with the body of its timeout; the timeout closes over
    [currentQuestion], [newAnswers] and [questions] of the render in which
    the button was pressed.  [None] outside the integers and objects. *)
Definition nextQuestion (questions : list question) (st : state) : option state :=
  if strict_eq (Some (selectedOption st)) (Some JNull) then Some st
  else
    answers ← as_object (userAnswers st);
    index ← as_number (currentQuestion st);
    let st1 := setIsTransitioning true st in
    let newAnswers := with_answer answers index (selectedOption st) in
    let st1 := setUserAnswers (JObj newAnswers) st1 in
    let st2 :=
      if (index <? Z.of_nat (length questions) - 1)%Z then
        setSelectedOption
          (or_default (newAnswers !! to_key (JNum (index + 1))) JNull)
          (setCurrentQuestion (JNum (index + 1)) st1)
      else st1 in
    Some (setIsTransitioning false st2).

(** [prevQuestion], with the body of its timeout, which reads the
    [userAnswers] of the render in which the button was pressed. *)
Definition prevQuestion (st : state) : option state :=
  if strict_eq (Some (currentQuestion st)) (Some (JNum 0)) then Some st
  else
    answers ← as_object (userAnswers st);
    index ← as_number (currentQuestion st);
    let st1 := setIsTransitioning true st in
    let st1 :=
      if negb (strict_eq (Some (selectedOption st)) (Some JNull)) then
        setUserAnswers (JObj (with_answer answers index (selectedOption st))) st1
      else st1 in
    let st2 := setCurrentQuestion (JNum (index - 1)) st1 in
    let st2 := setSelectedOption
                 (or_default (answers !! to_key (JNum (index - 1))) JNull) st2 in
    Some (setIsTransitioning false st2).

(** [finishQuiz], with the body of its timeout. *)
Definition finishQuiz (st : state) : option state :=
  if strict_eq (Some (selectedOption st)) (Some JNull) then Some st
  else
    answers ← as_object (userAnswers st);
    index ← as_number (currentQuestion st);
    let st1 := setIsTransitioning true st in
    let st1 := setUserAnswers
                 (JObj (with_answer answers index (selectedOption st))) st1 in
    Some (setIsTransitioning false (setScreen (JStr RESULTS) st1)).

Definition restartQuiz (st : state) : state :=
  let st := setIsTransitioning true st in
  let st := setScreen (JStr QUIZ) st in
  let st := setCurrentQuestion (JNum 0) st in
  let st := setUserAnswers (JObj ∅) st in
  let st := setSelectedOption JNull st in
  setIsTransitioning false st.

Definition goToHome (st : state) : state :=
  let st := setIsTransitioning true st in
  let st := setScreen (JStr HOME) st in
  let st := setSelectedCategory JNull st in
  let st := setCurrentQuestion (JNum 0) st in
  let st := setUserAnswers (JObj ∅) st in
  let st := setSelectedOption JNull st in
  setIsTransitioning false st.

(** The keys of [CATEGORIES]. *)
Definition category_keys : list string := ["PART1"; "PART2"].

Section Categories.

(** The two imported question files. *)
Variables part1Questions part2Questions : list question.

(** [CATEGORIES[key].questions]; [None] when [CATEGORIES[key]] is
    [undefined] and reading its [questions] throws. *)
Definition CATEGORIES_questions (key : string) : option (list question) :=
  if String.eqb key "PART1" then Some part1Questions
  else if String.eqb key "PART2" then Some part2Questions
  else None.

(** [const questions = selectedCategory ? CATEGORIES[selectedCategory].questions : []] *)
Definition questions (st : state) : option (list question) :=
  if truthy (selectedCategory st)
  then CATEGORIES_questions (to_key (selectedCategory st))
  else Some [].

(** The intents the presentation layer forwards. *)
Inductive intent :=
| SelectCategory (categoryKey : string)
| SelectOption (option : string)
| NextQuestion
| PrevQuestion
| FinishQuiz
| RestartQuiz
| GoToHome.

(** The state after a handler and its timeout have run. *)
Definition handle (i : intent) (it : item) (st : state) : option state :=
  match i with
  | SelectCategory categoryKey => Some (selectCategory categoryKey it st)
  | SelectOption option => Some (selectOption (JStr option) st)
  | NextQuestion => qs ← questions st; nextQuestion qs st
  | PrevQuestion => prevQuestion st
  | FinishQuiz => finishQuiz st
  | RestartQuiz => Some (restartQuiz st)
  | GoToHome => Some (goToHome st)
  end.

(** One intent: the handler with its timeout, then the save effect on the
    new cells.  The setters of one callback are applied together, and the
    save effect that runs between a handler and its timeout is overwritten
    by the one after the timeout ([save_absorbs] below). *)
Definition step (w : state * item) (i : intent) : option (state * item) :=
  st' ← handle i (snd w) (fst w);
  Some (st', save_effect st' (snd w)).

Fixpoint run (w : state * item) (intents : list intent) : option (state * item) :=
  match intents with
  | [] => Some w
  | i :: rest => w' ← step w i; run w' rest
  end.

(** Mounting the component: the load effect reads the item, the save
    effect of the first render writes the initial cells, and the save
    effect of the next render writes the rehydrated ones. *)
Definition mount (it : item) : state * item :=
  let st := load it in
  (st, save_effect st (save_effect initial_state it)).

End Categories.

(** The score and percentage shown on the results screen. *)
Definition score (questions : list question) (st : state) : option nat :=
  answers ← as_object (userAnswers st);
  Some (calculateScore questions answers).

(** [Object.keys(v).length] for a [v] that is not [null]: the own keys
    of an object, the indices of a string (one for each UTF-16 code
    unit), nothing for a number or a
    boolean. *)
Definition keys_length (v : json) : nat :=
  match v with
  | JObj m => size m
  | JStr s => List.length (code_units s)
  | JNull | JBool _ | JNum _ => 0
  end.

(** [clearCategoryData]: the entry is deleted and the document written
    back only when the entry is there and truthy.  Every exception is
    caught and leaves the item as it was: [JSON.parse] on a malformed text,
    reading [existing.categories] of [null], and [delete] on a character
    of a string, which module code refuses. *)
Definition clearCategoryData (categoryKey : string) (it : item) : item :=
  match it with
  | NoItem | EmptyText => it
  | Malformed => it
  | Text JNull => it
  | Text existing =>
      match read_opt (read existing "categories") categoryKey with
      | Some entry =>
          if truthy entry then
            match existing, read existing "categories" with
            | JObj m, Some (JObj categories) =>
                Text (JObj (<["categories" := JObj (delete categoryKey categories)]> m))
            | _, _ => it
            end
          else it
      | None => it
      end
  end.

Section Progress.

Variables part1Questions part2Questions : list question.

(** [getCategoryProgress]; [None] when [CATEGORIES[categoryKey]] is
    [undefined] and reading its [questions] throws. *)
Definition getCategoryProgress (categoryKey : string) (it : item) : option number :=
  let saved := getSavedCategoryData categoryKey it in
  if truthy saved then
    match read saved "userAnswers" with
    | Some answers =>
        if truthy answers then
          let answeredCount := keys_length answers in
          qs ← CATEGORIES_questions part1Questions part2Questions categoryKey;
          Some (percent_of answeredCount (length qs))
        else Some (Finite 0)
    | None => Some (Finite 0)
    end
  else Some (Finite 0).

End Progress.

End Engine.

(** ** The single-category component *)

Module Single.

Import Engine.

(** The [useState] cells; there is no [selectedCategory]. *)
Record state := {
  screen : json;
  currentQuestion : json;
  userAnswers : json;
  selectedOption : json;
  isTransitioning : bool
}.

Definition initial_state : state := {|
  screen := JStr HOME;
  currentQuestion := JNum 0;
  userAnswers := JObj ∅;
  selectedOption := JNull;
  isTransitioning := false
|}.

(** The [try] block of the load effect; reading [parsed.screen] of [null]
    throws before any setter has run. *)
Definition load_try (parsed : json) (st : state) : option state :=
  match parsed with
  | JNull => None
  | _ =>
      Some {| screen := or_default (read parsed "screen") (JStr HOME);
              currentQuestion := or_default (read parsed "currentQuestion") (JNum 0);
              userAnswers := or_default (read parsed "userAnswers") (JObj ∅);
              selectedOption := or_default (read parsed "selectedOption") JNull;
              isTransitioning := isTransitioning st |}
  end.

Definition load_effect (it : item) (st : state) : state :=
  match it with
  | NoItem | EmptyText => st
  | Malformed => st
  | Text parsed =>
      match load_try parsed st with
      | Some st' => st'
      | None => st
      end
  end.

Definition load (it : item) : state := load_effect it initial_state.

(** The save effect writes [stateToSave] whatever the item held. *)
Definition save_effect (st : state) : item :=
  Text (JObj (<["screen" := screen st]>
             (<["currentQuestion" := currentQuestion st]>
             (<["userAnswers" := userAnswers st]>
             (<["selectedOption" := selectedOption st]> ∅))))).

(** The same text as in [App.jsx], on the cells of this component. *)
Definition nextQuestion (questions : list question) (st : state) : option state :=
  if strict_eq (Some (selectedOption st)) (Some JNull) then Some st
  else
    answers ← as_object (userAnswers st);
    index ← as_number (currentQuestion st);
    let newAnswers := with_answer answers index (selectedOption st) in
    if (index <? Z.of_nat (length questions) - 1)%Z then
      Some {| screen := screen st;
              currentQuestion := JNum (index + 1);
              userAnswers := JObj newAnswers;
              selectedOption :=
                or_default (newAnswers !! to_key (JNum (index + 1))) JNull;
              isTransitioning := false |}
    else
      Some {| screen := screen st;
              currentQuestion := currentQuestion st;
              userAnswers := JObj newAnswers;
              selectedOption := selectedOption st;
              isTransitioning := false |}.

Definition prevQuestion (st : state) : option state :=
  if strict_eq (Some (currentQuestion st)) (Some (JNum 0)) then Some st
  else
    answers ← as_object (userAnswers st);
    index ← as_number (currentQuestion st);
    Some {| screen := screen st;
            currentQuestion := JNum (index - 1);
            userAnswers :=
              if negb (strict_eq (Some (selectedOption st)) (Some JNull))
              then JObj (with_answer answers index (selectedOption st))
              else userAnswers st;
            selectedOption :=
              or_default (answers !! to_key (JNum (index - 1))) JNull;
            isTransitioning := false |}.

(** This component compares against [q.correctAnswer]. *)
Definition calculateScore := calculateScore_on correctAnswer.
Definition getPercentage := getPercentage_on correctAnswer.

(** The cells of this component inside those of [App.jsx]. *)
Definition lift (category : json) (st : state) : Engine.state :=
  {| Engine.screen := screen st;
     Engine.selectedCategory := category;
     Engine.currentQuestion := currentQuestion st;
     Engine.userAnswers := userAnswers st;
     Engine.selectedOption := selectedOption st;
     Engine.isTransitioning := isTransitioning st |}.

(** [startQuiz], with the body of its timeout. *)
Definition startQuiz (st : state) : state :=
  {| screen := JStr QUIZ; currentQuestion := JNum 0; userAnswers := JObj ∅;
     selectedOption := JNull; isTransitioning := false |}.

(** [restartQuiz], with the body of its timeout, on the cells and the
    stored item: the cells go back to the home screen and
    [localStorage.removeItem] takes the item away. *)
Definition restartQuiz (w : state * item) : state * item :=
  ({| screen := JStr HOME; currentQuestion := JNum 0; userAnswers := JObj ∅;
      selectedOption := JNull; isTransitioning := false |},
   NoItem).

(** The save effect after a handler.  The handlers above hand a new
    object to [setUserAnswers], so the effect runs after each of them. *)
Definition saved (w : state * item) : state * item :=
  (fst w, save_effect (fst w)).

End Single.

(** ** Shapes of states and of stored items *)

Module Shape.

Import Engine.

(** [parsed.currentView?.[field]] *)
Definition stored_view (parsed : json) (field : string) : option json :=
  read_opt (read parsed "currentView") field.

(** [parsed.categories?.[category]] *)
Definition stored_entry (parsed : json) (category : json) : option json :=
  read_opt (read parsed "categories") (to_key category).

(** The answer record of the data model: an object of option strings. *)
Definition answers_shape (answers : json) : Prop :=
  ∃ m : gmap string json,
    answers = JObj m ∧ ∀ k v, m !! k = Some v → ∃ s : string, v = JStr s.

(** A session of the data model: an integer index, an answer record, and
    a selection that is absent or a string. *)
Definition session_shape (index answers selection : json) : Prop :=
  (∃ k : Z, index = JNum k) ∧
  answers_shape answers ∧
  (selection = JNull ∨ ∃ s : string, selection = JStr s).

Definition default_session (st : state) : Prop :=
  currentQuestion st = JNum 0 ∧ userAnswers st = JObj ∅ ∧ selectedOption st = JNull.

(** The cells between two intents: on the home screen no category and the
    default session; on the quiz and results screens one of the keys of
    [CATEGORIES] and a session of the data model. *)
Definition state_shape (st : state) : Prop :=
  isTransitioning st = false ∧
  ((screen st = JStr HOME ∧ selectedCategory st = JNull ∧ default_session st) ∨
   ((screen st = JStr QUIZ ∨ screen st = JStr RESULTS) ∧
    (∃ key, In key category_keys ∧ selectedCategory st = JStr key) ∧
    session_shape (currentQuestion st) (userAnswers st) (selectedOption st))).

(** The same for the single-category component. *)
Definition single_shape (st : Single.state) : Prop :=
  Single.isTransitioning st = false ∧
  (Single.screen st = JStr HOME ∨ Single.screen st = JStr QUIZ ∨
   Single.screen st = JStr RESULTS) ∧
  session_shape (Single.currentQuestion st) (Single.userAnswers st)
                (Single.selectedOption st).

(** An item the save effect can write to: nothing stored yet, or a
    document object whose [categories] is an object or falsy. *)
Definition writable (it : item) : Prop :=
  match it with
  | NoItem | EmptyText => True
  | Malformed => False
  | Text (JObj m) =>
      match m !! "categories" with
      | Some (JObj _) => True
      | Some v => truthy v = false
      | None => True
      end
  | Text _ => False
  end.

(** A stored session entry of the data model. *)
Definition entry_shape (e : json) : Prop :=
  ∃ index answers selection,
    e = JObj (<["currentQuestion" := index]>
             (<["userAnswers" := answers]>
             (<["selectedOption" := selection]> ∅))) ∧
    session_shape index answers selection.

(** An item the engine itself has written, or none yet. *)
Definition stored_shape (it : item) : Prop :=
  it = NoItem ∨ it = EmptyText ∨
  ∃ (m categories : gmap string json),
    it = Text (JObj m) ∧
    m !! "categories" = Some (JObj categories) ∧
    ∀ key e, categories !! key = Some e → entry_shape e.

(** The item mirrors the cells: it holds their view, the session of the
    selected category, and only entries of the data model. *)
Definition mirrors (st : state) (it : item) : Prop :=
  ∃ (m categories : gmap string json),
    it = Text (JObj m) ∧
    m !! "currentView" = Some (view_doc st) ∧
    m !! "categories" = Some (JObj categories) ∧
    (∀ key e, categories !! key = Some e → entry_shape e) ∧
    (∀ key, selectedCategory st = JStr key →
            categories !! key = Some (session_doc st)).

(** The item holds the entry [e] for the category [key]. *)
Definition holds_entry (key : string) (e : json) (it : item) : Prop :=
  ∃ (m categories : gmap string json),
    it = Text (JObj m) ∧
    m !! "categories" = Some (JObj categories) ∧
    categories !! key = Some e.

(** The cells are not in the category [key]. *)
Definition away_from (key : string) (st : state) : Prop :=
  selectedCategory st = JNull ∨
  ∃ other : string, other ≠ key ∧ selectedCategory st = JStr other.

(** The cells after a reload: a selection of the empty string comes back
    as [null]. *)
Definition rehydrated (st : state) : state :=
  setSelectedOption (or_default (Some (selectedOption st)) JNull) st.

(** The intents the presentation layer can issue on each screen: category
    cards (one for each key of [CATEGORIES]) on the home screen; options
    and navigation on the quiz screen; restart on the results screen; the
    home button on both. *)
Definition offered (st : state) (i : intent) : Prop :=
  match i with
  | SelectCategory categoryKey =>
      screen st = JStr HOME ∧ In categoryKey category_keys
  | SelectOption _ | NextQuestion | PrevQuestion | FinishQuiz =>
      screen st = JStr QUIZ
  | RestartQuiz => screen st = JStr RESULTS
  | GoToHome => screen st = JStr QUIZ ∨ screen st = JStr RESULTS
  end.

(** The same, decided. *)
Definition on_screen (st : state) (name : string) : bool :=
  strict_eq (Some (screen st)) (Some (JStr name)).

Definition offeredb (st : state) (i : intent) : bool :=
  match i with
  | SelectCategory categoryKey =>
      on_screen st HOME && existsb (String.eqb categoryKey) category_keys
  | SelectOption _ | NextQuestion | PrevQuestion | FinishQuiz =>
      on_screen st QUIZ
  | RestartQuiz => on_screen st RESULTS
  | GoToHome => on_screen st QUIZ || on_screen st RESULTS
  end.

Section Reachable.

Variables part1Questions part2Questions : list question.

(** A run in which every intent is one its screen offers. *)
Fixpoint play (w : state * item) (intents : list intent)
  : option (state * item) :=
  match intents with
  | [] => Some w
  | i :: rest =>
      if offeredb (fst w) i
      then w' ← step part1Questions part2Questions w i; play w' rest
      else None
  end.

(** The worlds (cells and stored item) the engine gets to, from a browser
    that has nothing stored, by intents and by reloading the page. *)
Inductive reachable : state * item → Prop :=
| reachable_mount (it : item) :
    it = NoItem ∨ it = EmptyText → reachable (mount it)
| reachable_step (w w' : state * item) (i : intent) :
    reachable w → offered (fst w) i →
    step part1Questions part2Questions w i = Some w' → reachable w'
| reachable_reload (w : state * item) :
    reachable w → reachable (mount (snd w)).

End Reachable.

(** An index of a question of the list. *)
Definition index_in_range (questions : list question) (index : json) : Prop :=
  ∃ k : Z, index = JNum k ∧ (0 ≤ k < Z.of_nat (length questions))%Z.

(** An answer record whose keys are indices of questions of the list. *)
Definition answers_in_range (questions : list question) (answers : json) : Prop :=
  ∃ m : gmap string json,
    answers = JObj m ∧
    ∀ key v, m !! key = Some v →
      ∃ k : Z, key = to_key (JNum k) ∧ (0 ≤ k < Z.of_nat (length questions))%Z.

(** An item that [JSON.parse] refuses, or whose document is [null], a
    number or a boolean. *)
Definition unwritable (it : item) : Prop :=
  it = Malformed ∨ it = Text JNull
  ∨ (∃ b, it = Text (JBool b)) ∨ (∃ n, it = Text (JNum n)).

Section Ranges.

Variables part1Questions part2Questions : list question.

(** The cells keep within the questions of the selected category. *)
Definition cells_within (st : state) : Prop :=
  ∀ key qs,
    selectedCategory st = JStr key →
    CATEGORIES_questions part1Questions part2Questions key = Some qs →
    index_in_range qs (currentQuestion st) ∧ answers_in_range qs (userAnswers st).

(** Every stored session keeps within the questions of its category. *)
Definition stored_within (it : item) : Prop :=
  ∀ key qs index answers selection,
    holds_entry key
      (JObj (<["currentQuestion" := index]>
            (<["userAnswers" := answers]>
            (<["selectedOption" := selection]> ∅)))) it →
    CATEGORIES_questions part1Questions part2Questions key = Some qs →
    index_in_range qs index ∧ answers_in_range qs answers.

Definition within (w : state * item) : Prop :=
  cells_within (fst w) ∧ stored_within (snd w).

End Ranges.

End Shape.

(** ** Rounding to binary64 *)

Module Rounding.

(** A shift record of the rounding procedure locates the quotient
    [N / D] (with [0 < D]) above its integer part [shr_m]: on it, below
    the half, on the half, or above the half. *)
Definition located (mrs : shr_record) (N D : Z) : Prop :=
  match shr_r mrs, shr_s mrs with
  | false, false => N = (shr_m mrs * D)%Z
  | false, true => (shr_m mrs * D < N ∧ 2 * N < (2 * shr_m mrs + 1) * D)%Z
  | true, false => (2 * N = (2 * shr_m mrs + 1) * D)%Z
  | true, true => ((2 * shr_m mrs + 1) * D < 2 * N ∧ N < (shr_m mrs + 1) * D)%Z
  end.

End Rounding.

Export Rounding.

(** ** Decision tables and concrete quizzes *)

Module Tables.

Definition number_eqb (a b : number) : bool :=
  match a, b with
  | Finite x, Finite y => (x =? y)%Z
  | NotANumber, NotANumber => true
  | Infinite x, Infinite y => Bool.eqb x y
  | _, _ => false
  end.

(** The ratios [score / length] at which [100 * score / length] is a
    half-integer and the double product [(score / length) * 100] falls
    just below it: 29/200, 57/200, 113/200 and 23/40. *)
Definition falls_short (score length : nat) : bool :=
  existsb (fun c => (200 * Z.of_nat score =? c * Z.of_nat length)%Z)
          [29; 57; 113; 115]%Z.

(** The half-up percentage, one less where the double falls short. *)
Definition half_up_or_short (score length : nat) : Z :=
  (half_up_percent score length - if falls_short score length then 1 else 0)%Z.

(** The double quotient [c / 200] lies inside its binade and off the
    points half-way between two doubles, and its percentage is as
    [half_up_or_short] says. *)
Definition tie_ok (c : nat) : bool :=
  match Prim2SF (PrimFloat.div (of_count c) (of_count 200)) with
  | S754_finite false m e =>
      (e <? 0)%Z
      && (400 * 2 ^ 53 - 200 <? 4 * Z.of_nat c * 2 ^ (- e))%Z
      && (Z.of_nat c * 2 ^ (- e) <? 400 * 2 ^ 52 - 200)%Z
      && (Z.abs (400 * Z.pos m - 2 * Z.of_nat c * 2 ^ (- e)) <? 200)%Z
      && number_eqb (percent_of c 200) (Finite (half_up_or_short c 200))
  | _ => false
  end.

(** The odd numerators 1, 3, ..., 199: the half-integer percentages. *)
Definition tie_table : bool := forallb (fun i => tie_ok (2 * i + 1)) (seq 0 100).

(** For [length] questions the percentage of every score is an integer
    from 0 to 100, 0 for no right answer, 100 for all, and it does not go
    down when the score goes up. *)
Definition percent_within (p : number) : bool :=
  match p with
  | Finite z => (0 <=? z)%Z && (z <=? 100)%Z
  | _ => false
  end.

Definition number_le (a b : number) : bool :=
  match a, b with
  | Finite x, Finite y => (x <=? y)%Z
  | _, _ => false
  end.

Definition percent_scale_ok (length : nat) : bool :=
  forallb (fun score => percent_within (percent_of score length)
                        && number_le (percent_of score length)
                                     (percent_of (S score) length))
          (seq 0 length)
  && number_eqb (percent_of 0 length) (Finite 0)
  && number_eqb (percent_of length length) (Finite 100).

Definition percent_scale_table (bound : nat) : bool :=
  forallb percent_scale_ok (seq 1 bound).

End Tables.

Module Scenario.

Import Engine.

(** A record spelled the way [App.jsx] reads it. *)
Definition asked (text correct : string) : question :=
  {| question_text := text; options := ["A"; "B"; "C"; "X"];
     answer := Some correct; correctAnswer := None |}.

(** The same record spelled the way the single-category component reads it. *)
Definition respelled (text correct : string) : question :=
  {| question_text := text; options := ["A"; "B"; "C"; "X"];
     answer := None; correctAnswer := Some correct |}.

(** Category "part1" of the spec's scenario: correct answers A, B, C. *)
Definition part1 : list question :=
  [asked "Q1" "A"; asked "Q2" "B"; asked "Q3" "C"].

(** The user answers A, X, C. *)
Definition answers_AXC : gmap string json :=
  <["0" := JStr "A"]> (<["1" := JStr "X"]> (<["2" := JStr "C"]> ∅)).

(** Forty questions, the first twenty-three answered correctly. *)
Definition forty : list question := replicate 40 (asked "Q" "A").

Definition first_23_right : gmap string json :=
  list_to_map (map (fun i : nat => (pretty i, JStr "A")) (seq 0 23)).

(** One question whose record spells its correct answer [correctAnswer]. *)
Definition one_respelled : list question := [respelled "Q1" "A"].

Definition answered_A : gmap string json := <["0" := JStr "A"]> ∅.

(** A question file in which the empty string is one of the options. *)
Definition blank_quiz : list question :=
  [ {| question_text := "Q1"; options := [""; "A"];
       answer := Some "A"; correctAnswer := None |};
    {| question_text := "Q2"; options := [""; "B"];
       answer := Some "B"; correctAnswer := None |} ].

(** The quiz screen of a category with the given session. *)
Definition in_quiz (category : string) (index : Z)
    (answers : gmap string json) (selection : json) : state :=
  {| screen := JStr QUIZ; selectedCategory := JStr category;
     currentQuestion := JNum index; userAnswers := JObj answers;
     selectedOption := selection; isTransitioning := false |}.

(** Back on the first question, with the blank option recorded for the
    second. *)
Definition blank_ahead : state :=
  in_quiz "PART1" 0 (<["0" := JStr "A"]> (<["1" := JStr ""]> ∅)) (JStr "A").

(** On the second question, with the blank option recorded for the first. *)
Definition blank_behind : state :=
  in_quiz "PART1" 1 (<["0" := JStr ""]> ∅) (JStr "B").

(** On the first question, the blank option selected. *)
Definition blank_selected : state := in_quiz "PART1" 0 ∅ (JStr "").

(** Five questions in category A, two of them answered, a third selected. *)
Definition two_of_five : state :=
  in_quiz "PART1" 2 (<["0" := JStr "A"]> (<["1" := JStr "B"]> ∅)) (JStr "C").

(** A document with a view and an empty session entry: every field of the
    entry is missing. *)
Definition partial_doc : json :=
  JObj (<["currentView" := JObj (<["selectedCategory" := JStr "PART1"]> ∅)]>
       (<["categories" := JObj (<["PART1" := JObj ∅]> ∅)]> ∅)).

(** A document whose entry stores a falsy index and the empty selection. *)
Definition falsy_doc : json :=
  JObj (<["currentView" := JObj (<["screen" := JStr QUIZ]>
                               (<["selectedCategory" := JStr "PART1"]> ∅))]>
       (<["categories" :=
            JObj (<["PART1" := JObj (<["currentQuestion" := JNull]>
                                    (<["userAnswers" := JObj answered_A]>
                                    (<["selectedOption" := JStr ""]> ∅)))]> ∅)]> ∅)).

End Scenario.

(** * Proofs *)

Local Open Scope nat_scope.

(** ** The score, the percentage and the grade *)

Section ScoreFacts.

Variable field : question → option string.
Variable userAnswers : gmap string json.

Lemma forEach_count_bounds (questions : list question) (index correct : nat) :
  correct ≤ forEach_count field userAnswers questions index correct
          ≤ correct + length questions.
Proof.
  revert index correct.
  induction questions as [|q rest IH]; intros index correct; simpl; [lia|].
  destruct (hit _ _ _ _); specialize (IH (S index)).
  - specialize (IH (S correct)). lia.
  - specialize (IH correct). lia.
Qed.

Lemma hit_matches (pre : list question) (q : question) (rest : list question) :
  is_Some (field q) →
  hit field userAnswers q (length pre) =
  matches_at field (pre ++ q :: rest) userAnswers (length pre).
Proof.
  intros [a Ha]. unfold hit, matches_at, field_value.
  rewrite list_lookup_middle by reflexivity. rewrite Ha. simpl.
  destruct (answer_at userAnswers (length pre)) as [[]|]; reflexivity.
Qed.

Lemma forEach_count_matching (pre questions : list question) (correct : nat) :
  Forall (λ q, is_Some (field q)) questions →
  forEach_count field userAnswers questions (length pre) correct =
  correct + length (List.filter (matches_at field (pre ++ questions) userAnswers)
                                (seq (length pre) (length questions))).
Proof.
  revert pre correct.
  induction questions as [|q rest IH]; intros pre correct Hall; simpl; [lia|].
  inversion Hall as [|? ? Hq Hrest]; subst.
  rewrite <- (hit_matches pre q rest Hq).
  specialize (IH (pre ++ [q])%list).
  rewrite length_app in IH. simpl in IH. rewrite Nat.add_1_r in IH.
  rewrite <- app_assoc in IH. simpl in IH.
  rewrite IH by assumption.
  destruct (hit _ _ _ _); simpl; lia.
Qed.

Lemma matching_indices_bound (questions : list question) :
  length (matching_indices field questions userAnswers) ≤ length questions.
Proof.
  unfold matching_indices.
  etransitivity; [apply List.filter_length_le|]. by rewrite length_seq.
Qed.

Lemma calculateScore_on_matching (questions : list question) :
  Forall (λ q, is_Some (field q)) questions →
  calculateScore_on field questions userAnswers =
  length (matching_indices field questions userAnswers).
Proof.
  intros Hall. unfold calculateScore_on, matching_indices.
  apply (forEach_count_matching [] questions 0 Hall).
Qed.

Lemma calculateScore_on_le (questions : list question) :
  calculateScore_on field questions userAnswers ≤ length questions.
Proof.
  unfold calculateScore_on.
  pose proof (forEach_count_bounds questions 0 0). lia.
Qed.

Lemma unanswered_never_hits (q : question) (index : nat) :
  is_Some (field q) → answer_at userAnswers index = None →
  hit field userAnswers q index = false.
Proof. intros [a Ha] Hnone. unfold hit, field_value. by rewrite Hnone, Ha. Qed.

(** The comparison of the loop is true in two cases: the recorded answer
    is the record's answer, or neither is there. *)
Lemma hit_split (pre : list question) (q : question) (rest : list question) :
  hit field userAnswers q (length pre) =
  matches_at field (pre ++ q :: rest) userAnswers (length pre)
  || blank_at field (pre ++ q :: rest) userAnswers (length pre).
Proof.
  unfold hit, matches_at, blank_at, field_value.
  rewrite list_lookup_middle by reflexivity.
  destruct (field q) as [a|]; simpl;
    destruct (answer_at userAnswers (length pre)) as [[]|]; simpl;
    rewrite ?orb_false_r; reflexivity.
Qed.

Lemma matches_not_blank (questions : list question) (i : nat) :
  matches_at field questions userAnswers i = true →
  blank_at field questions userAnswers i = false.
Proof.
  unfold matches_at, blank_at. destruct (questions !! i) as [q|]; [|done].
  destruct (field q), (answer_at userAnswers i) as [[]|]; done.
Qed.

Lemma forEach_count_split (pre questions : list question) (correct : nat) :
  forEach_count field userAnswers questions (length pre) correct =
  correct
  + length (List.filter (matches_at field (pre ++ questions) userAnswers)
                        (seq (length pre) (length questions)))
  + length (List.filter (blank_at field (pre ++ questions) userAnswers)
                        (seq (length pre) (length questions))).
Proof.
  revert pre correct.
  induction questions as [|q rest IH]; intros pre correct; simpl; [lia|].
  rewrite (hit_split pre q rest).
  specialize (IH (pre ++ [q])%list).
  rewrite length_app in IH. simpl in IH. rewrite Nat.add_1_r in IH.
  rewrite <- app_assoc in IH. simpl in IH. rewrite IH.
  pose proof (matches_not_blank (pre ++ q :: rest) (length pre)) as Hexcl.
  destruct (matches_at field (pre ++ q :: rest) userAnswers (length pre));
    [rewrite Hexcl by reflexivity; simpl; lia|].
  destruct (blank_at field (pre ++ q :: rest) userAnswers (length pre));
    simpl; lia.
Qed.

Lemma calculateScore_on_split (questions : list question) :
  calculateScore_on field questions userAnswers =
  length (matching_indices field questions userAnswers)
  + length (blank_indices field questions userAnswers).
Proof.
  unfold calculateScore_on, matching_indices, blank_indices.
  apply (forEach_count_split [] questions 0).
Qed.

(** Without the field the loop reads, [q[field]] is [undefined]: an index
    is counted exactly when nothing is recorded for it. *)
Lemma forEach_count_unspelled (questions : list question) (index correct : nat) :
  Forall (λ q, field q = None) questions →
  forEach_count field userAnswers questions index correct =
  correct + length (List.filter (unanswered userAnswers)
                                (seq index (length questions))).
Proof.
  revert index correct.
  induction questions as [|q rest IH]; intros index correct Hall; simpl; [lia|].
  inversion Hall as [|? ? Hq Hrest]; subst.
  rewrite IH by assumption. unfold hit, field_value, unanswered. rewrite Hq. simpl.
  destruct (answer_at userAnswers index) as [[]|]; simpl; lia.
Qed.

End ScoreFacts.

Section ScoreClaims.

Import Tables Scenario.

Lemma matching_indices_ext (f g : question → option string)
    (questions : list question) (userAnswers : gmap string json) :
  Forall (λ q, f q = g q) questions →
  matching_indices f questions userAnswers = matching_indices g questions userAnswers.
Proof.
  intros Hall. unfold matching_indices. apply List.filter_ext_in.
  intros i _. unfold matches_at.
  destruct (questions !! i) as [q|] eqn:Hq; [|reflexivity].
  rewrite Forall_forall in Hall.
  rewrite (Hall q) by (apply list_elem_of_lookup; eauto). reflexivity.
Qed.

Lemma forEach_count_ext (f : question → option string)
    (userAnswers : gmap string json) (questions questions' : list question)
    (index correct : nat) :
  map f questions = map f questions' →
  forEach_count f userAnswers questions index correct =
  forEach_count f userAnswers questions' index correct.
Proof.
  revert questions' index correct.
  induction questions as [|q rest IH]; intros [|q' rest'] index correct Heq;
    simpl in *; try discriminate; [reflexivity|].
  injection Heq as Hq Hrest. unfold hit, field_value. rewrite Hq. by apply IH.
Qed.

(** C1, as claimed, fails: one record that spells its correct answer
    [correctAnswer], and no answer recorded.  No index holds the correct
    answer, yet [calculateScore] of App.jsx counts the unanswered index:
    [q.answer] and [userAnswers[0]] are both [undefined]. *)
Lemma unanswered_respelled_record_is_counted :
  answer_at ∅ 0 = None
  ∧ length (matching_indices answer one_respelled ∅) = 0
  ∧ length (matching_indices normalized one_respelled ∅) = 0
  ∧ hit answer ∅ (respelled "Q1" "A") 0 = true
  ∧ calculateScore one_respelled ∅ = 1.
Proof. repeat split; reflexivity. Qed.

(** C1, amended: for the field a component reads ([answer] in App.jsx,
    [correctAnswer] in the single-category component), [calculateScore]
    is the number of indices below [questions.length] whose recorded
    answer is the record's correct answer, plus the number of unanswered
    indices whose record lacks the field.  An unanswered index is never
    among the first, and is counted exactly when its record lacks the
    field; so on records that all carry the field the score is the number
    of correct answers.  In every case the score lies between 0 and
    [questions.length]. *)
Theorem score_counts_correct_answers
    (field : question → option string)
    (questions : list question) (userAnswers : gmap string json) :
  calculateScore_on field questions userAnswers =
    length (matching_indices field questions userAnswers)
    + length (blank_indices field questions userAnswers)
  ∧ (∀ (i : nat) (q : question),
        questions !! i = Some q → answer_at userAnswers i = None →
        ¬ In i (matching_indices field questions userAnswers)
        ∧ (hit field userAnswers q i = true ↔ field q = None))
  ∧ (Forall (λ q, is_Some (field q)) questions →
     calculateScore_on field questions userAnswers =
       length (matching_indices field questions userAnswers))
  ∧ 0 ≤ calculateScore_on field questions userAnswers ≤ length questions.
Proof.
  split; [apply calculateScore_on_split|]. split; [|split].
  - intros i q Hq Hnone. split.
    + unfold matching_indices. rewrite List.filter_In. intros [_ Hm].
      unfold matches_at in Hm. rewrite Hq, Hnone in Hm.
      destruct (field q); discriminate.
    + unfold hit, field_value. rewrite Hnone.
      destruct (field q); simpl; split; intros; congruence.
  - by apply calculateScore_on_matching.
  - split; [lia|apply calculateScore_on_le].
Qed.

Lemma score_counts_correct_answers_part1 :
  calculateScore part1 answers_AXC =
    length (matching_indices answer part1 answers_AXC)
  ∧ calculateScore part1 answers_AXC = 2.
Proof.
  split; [|reflexivity].
  destruct (score_counts_correct_answers answer part1 answers_AXC)
    as (_ & _ & Hspelled & _).
  apply Hspelled. unfold part1. repeat constructor; eexists; reflexivity.
Defined.

(** C2, as claimed, fails: a record that spells its correct answer
    [correctAnswer] has the correct answer A; the user's answer A is not
    counted by [calculateScore] of App.jsx, and no answer at all is. *)
Lemma respelled_record_is_misscored :
  normalized (respelled "Q1" "A") = Some "A"
  ∧ length (matching_indices normalized one_respelled answered_A) = 1
  ∧ calculateScore one_respelled answered_A = 0
  ∧ calculateScore one_respelled ∅ = 1.
Proof. repeat split; reflexivity. Qed.

(** C2, amended: no spelling is normalized.  App.jsx scores against
    [answer] alone and the single-category component against
    [correctAnswer] alone; on a question file spelled the way the component
    reads it the score is the number of answers equal to the record's
    correct answer, and the other field is never read. *)
Theorem score_reads_one_spelling
    (questions : list question) (userAnswers : gmap string json) :
  (Forall (λ q, is_Some (answer q) ∧ correctAnswer q = None) questions →
     calculateScore questions userAnswers =
       length (matching_indices normalized questions userAnswers))
  ∧ (Forall (λ q, is_Some (correctAnswer q)) questions →
     Single.calculateScore questions userAnswers =
       length (matching_indices normalized questions userAnswers))
  ∧ (∀ questions' : list question,
       map answer questions = map answer questions' →
       calculateScore questions userAnswers = calculateScore questions' userAnswers)
  ∧ (∀ questions' : list question,
       map correctAnswer questions = map correctAnswer questions' →
       Single.calculateScore questions userAnswers =
         Single.calculateScore questions' userAnswers).
Proof.
  repeat split.
  - intros Hall. unfold calculateScore.
    rewrite calculateScore_on_matching
      by (eapply Forall_impl; [exact Hall|]; intros q [Hq _]; exact Hq).
    f_equal. apply matching_indices_ext. eapply Forall_impl; [exact Hall|].
    intros q [_ Hq]. unfold normalized. by rewrite Hq.
  - intros Hall. unfold Single.calculateScore.
    rewrite calculateScore_on_matching by exact Hall.
    f_equal. apply matching_indices_ext. eapply Forall_impl; [exact Hall|].
    intros q [a Ha]. unfold normalized. by rewrite Ha.
  - intros questions' Heq. by apply forEach_count_ext.
  - intros questions' Heq. by apply forEach_count_ext.
Qed.

Lemma score_reads_one_spelling_part1 :
  calculateScore part1 answers_AXC =
    length (matching_indices normalized part1 answers_AXC)
  ∧ calculateScore one_respelled answered_A =
      calculateScore [respelled "Q1" "C"] answered_A.
Proof.
  destruct (score_reads_one_spelling part1 answers_AXC) as (H1 & _ & _ & _).
  destruct (score_reads_one_spelling one_respelled answered_A) as (_ & _ & H3 & _).
  split.
  - apply H1. unfold part1. repeat constructor; eexists; reflexivity.
  - apply H3. reflexivity.
Defined.

Lemma number_eqb_eq (a b : number) : number_eqb a b = true → a = b.
Proof.
  destruct a, b; simpl; try discriminate; intros H.
  - apply Z.eqb_eq in H. by subst.
  - reflexivity.
  - apply Bool.eqb_prop in H. by subst.
Qed.

Example Math_round_tie_goes_up :
  Math_round 2.5%float = Finite 3 ∧ Math_round (-2.5)%float = Finite (-2)
  ∧ Math_round 0.5%float = Finite 1 ∧ Math_round (-0.5)%float = Finite 0
  ∧ Math_round (PrimFloat.div (of_count 0) (of_count 0)) = NotANumber.
Proof. repeat split; vm_compute; reflexivity. Qed.

(** *** Rounding to the nearest double

    [PrimFloat.div] and [PrimFloat.mul] are specified by [SFdiv] and
    [SFmul].  For mantissas of 53 digits, away from the subnormal numbers
    and from overflow, both return a mantissa of 53 digits within half a
    unit in the last place of the exact result. *)

Section Binary64.

Local Open Scope Z_scope.

Lemma digits2_pos_spec (p : positive) :
  2 ^ (Z.pos (digits2_pos p) - 1) ≤ Z.pos p < 2 ^ Z.pos (digits2_pos p).
Proof.
  induction p as [p IH|p IH|]; cbn [digits2_pos].
  - rewrite Pos2Z.inj_succ. change (Z.pos p~1) with (2 * Z.pos p + 1).
    replace (Z.succ (Z.pos (digits2_pos p)) - 1)
      with (Z.succ (Z.pos (digits2_pos p) - 1)) by lia.
    rewrite !Z.pow_succ_r by lia. lia.
  - rewrite Pos2Z.inj_succ. change (Z.pos p~0) with (2 * Z.pos p).
    replace (Z.succ (Z.pos (digits2_pos p)) - 1)
      with (Z.succ (Z.pos (digits2_pos p) - 1)) by lia.
    rewrite !Z.pow_succ_r by lia. lia.
  - cbn. lia.
Qed.

Lemma digits2_pos_unique (p : positive) (d : Z) :
  2 ^ (d - 1) ≤ Z.pos p < 2 ^ d → Z.pos (digits2_pos p) = d.
Proof.
  intros [Hlow Hhigh]. pose proof (digits2_pos_spec p) as [Hlow' Hhigh'].
  assert (0 < d).
  { destruct (Z.lt_trichotomy d 0) as [Hd|[->|Hd]]; [|cbn in Hhigh; lia|lia].
    rewrite Z.pow_neg_r in Hhigh by lia. lia. }
  assert (Z.pos (digits2_pos p) - 1 < d)
    by (apply (Z.pow_lt_mono_r_iff 2); lia).
  assert (d - 1 < Z.pos (digits2_pos p))
    by (apply (Z.pow_lt_mono_r_iff 2); lia).
  lia.
Qed.

Lemma shr_1_spec (m : Z) (r s : bool) :
  0 ≤ m →
  shr_1 {| shr_m := m; shr_r := r; shr_s := s |}
  = {| shr_m := Z.div2 m; shr_r := Z.odd m; shr_s := r || s |}.
Proof. destruct m as [|[p|p|]|p]; cbn; intros H; try reflexivity; lia. Qed.

Lemma shr_1_located (mrs : shr_record) (N D : Z) :
  0 < D → 0 ≤ shr_m mrs → located mrs N D →
  located (shr_1 mrs) N (2 * D)
  ∧ shr_m (shr_1 mrs) = shr_m mrs / 2
  ∧ 0 ≤ shr_m (shr_1 mrs).
Proof.
  destruct mrs as [m r s]. cbn [shr_m]. intros HD Hm Hloc.
  rewrite shr_1_spec by assumption. unfold located in *. cbn [shr_m shr_r shr_s] in *.
  pose proof (Z.div2_odd m) as Hm2. rewrite <- Z.div2_div.
  split; [|split; [reflexivity|]].
  - destruct (Z.odd m), r, s; cbn [Z.b2z orb] in *; nia.
  - destruct (Z.odd m); cbn [Z.b2z] in *; lia.
Qed.

Lemma iter_pos_shr_1_located (p : positive) :
  ∀ (mrs : shr_record) (N D : Z),
    0 < D → 0 ≤ shr_m mrs → located mrs N D →
    located (SpecFloat.iter_pos shr_1 p mrs) N (2 ^ Z.pos p * D)
    ∧ shr_m (SpecFloat.iter_pos shr_1 p mrs) = shr_m mrs / 2 ^ Z.pos p
    ∧ 0 ≤ shr_m (SpecFloat.iter_pos shr_1 p mrs).
Proof.
  induction p as [p IH|p IH|]; intros mrs N D HD Hm Hloc; cbn [SpecFloat.iter_pos].
  - destruct (shr_1_located mrs N D HD Hm Hloc) as (H1 & H2 & H3).
    destruct (IH _ N (2 * D) ltac:(lia) H3 H1) as (H4 & H5 & H6).
    assert (0 < 2 ^ Z.pos p) by (apply Z.pow_pos_nonneg; lia).
    destruct (IH _ N (2 ^ Z.pos p * (2 * D)) ltac:(nia) H6 H4) as (H7 & H8 & H9).
    change (Z.pos p~1) with (2 * Z.pos p + 1).
    replace (2 * Z.pos p + 1) with (1 + Z.pos p + Z.pos p) by lia.
    rewrite !Z.pow_add_r by lia. change (2 ^ 1) with 2.
    split; [|split; [|assumption]].
    + replace (2 * 2 ^ Z.pos p * 2 ^ Z.pos p * D)
        with (2 ^ Z.pos p * (2 ^ Z.pos p * (2 * D))) by ring. assumption.
    + rewrite H8, H5, H2. rewrite !Z.div_div by lia. f_equal. ring.
  - destruct (IH _ N D HD Hm Hloc) as (H4 & H5 & H6).
    assert (0 < 2 ^ Z.pos p) by (apply Z.pow_pos_nonneg; lia).
    destruct (IH _ N (2 ^ Z.pos p * D) ltac:(nia) H6 H4) as (H7 & H8 & H9).
    change (Z.pos p~0) with (2 * Z.pos p).
    replace (2 * Z.pos p) with (Z.pos p + Z.pos p) by lia.
    rewrite !Z.pow_add_r by lia.
    split; [|split; [|assumption]].
    + replace (2 ^ Z.pos p * 2 ^ Z.pos p * D)
        with (2 ^ Z.pos p * (2 ^ Z.pos p * D)) by ring. assumption.
    + rewrite H8, H5. rewrite !Z.div_div by lia. f_equal.
  - change (2 ^ 1) with 2. by apply shr_1_located.
Qed.

Lemma shr_located (mrs : shr_record) (ex n N D : Z) :
  0 ≤ n → 0 < D → 0 ≤ shr_m mrs → located mrs N D →
  ∃ mrs' : shr_record,
    shr mrs ex n = (mrs', ex + n)
    ∧ located mrs' N (2 ^ n * D)
    ∧ shr_m mrs' = shr_m mrs / 2 ^ n.
Proof.
  intros Hn HD Hm Hloc. destruct n as [|p|p]; [| |lia].
  - exists mrs. cbn [shr]. rewrite Z.add_0_r, Z.div_1_r.
    change (2 ^ 0) with 1. rewrite Z.mul_1_l. by repeat split.
  - exists (SpecFloat.iter_pos shr_1 p mrs). cbn [shr].
    destruct (iter_pos_shr_1_located p mrs N D HD Hm Hloc) as (H1 & H2 & _).
    by repeat split.
Qed.

Lemma round_nearest_even_near (mrs : shr_record) (N D : Z) :
  0 < D → located mrs N D →
  shr_m mrs ≤ round_nearest_even (shr_m mrs) (loc_of_shr_record mrs) ≤ shr_m mrs + 1
  ∧ - D ≤ 2 * round_nearest_even (shr_m mrs) (loc_of_shr_record mrs) * D - 2 * N ≤ D.
Proof.
  destruct mrs as [m [] []]; unfold located; cbn; intros HD Hloc;
    try destruct (Z.even m); nia.
Qed.

Lemma shr_fexp_pos (p : positive) (ex : Z) (lx : location) :
  -1074 ≤ Z.pos (digits2_pos p) + ex - 53 →
  shr_fexp prec emax (Z.pos p) ex lx
  = shr (shr_record_of_loc (Z.pos p) lx) ex (Z.pos (digits2_pos p) - 53).
Proof.
  intros Hrange. unfold shr_fexp, fexp, SpecFloat.emin, Zdigits2, prec, emax.
  rewrite Z.max_l by lia. f_equal. lia.
Qed.

(** A mantissa of 53 digits with nothing to round is returned as it is. *)
Lemma binary_round_aux_exact (p : positive) (ex : Z) :
  Z.pos (digits2_pos p) = 53 → -1074 ≤ ex ≤ 971 →
  binary_round_aux prec emax false (Z.pos p) ex loc_Exact = S754_finite false p ex.
Proof.
  intros Hd Hex. unfold binary_round_aux.
  rewrite shr_fexp_pos by lia. rewrite Hd. change (53 - 53) with 0.
  cbn [shr shr_record_of_loc shr_m shr_r shr_s loc_of_shr_record round_nearest_even].
  rewrite shr_fexp_pos by lia. rewrite Hd. change (53 - 53) with 0.
  cbn [shr shr_record_of_loc shr_m].
  unfold emax, prec. destruct (Z.leb_spec ex (1024 - 53)); [reflexivity|lia].
Qed.

Lemma shr_m_of_loc (m : Z) (l : location) : shr_m (shr_record_of_loc m l) = m.
Proof. by destruct l as [|[]]. Qed.

(** Rounding a mantissa of at least 53 digits, in the range of the normal
    numbers: the result has 53 digits and lies within half a unit in its
    last place of the located quotient. *)
Lemma binary_round_aux_near (p : positive) (ex : Z) (lx : location) (N D : Z) :
  0 < D → located (shr_record_of_loc (Z.pos p) lx) N D →
  53 ≤ Z.pos (digits2_pos p) →
  -1074 ≤ Z.pos (digits2_pos p) + ex - 53 ≤ 970 →
  ∃ (m : positive) (t : Z),
    binary_round_aux prec emax false (Z.pos p) ex lx = S754_finite false m (ex + t)
    ∧ 2 ^ 52 ≤ Z.pos m < 2 ^ 53
    ∧ Z.pos (digits2_pos p) - 53 ≤ t ≤ Z.pos (digits2_pos p) - 52
    ∧ - (2 ^ t * D) ≤ 2 * Z.pos m * (2 ^ t * D) - 2 * N ≤ 2 ^ t * D.
Proof.
  intros HD Hloc Hdigits Hrange.
  pose proof (digits2_pos_spec p) as Hp.
  set (d := Z.pos (digits2_pos p)) in *. set (n := d - 53).
  assert (Hn : 0 ≤ n) by (unfold n; lia).
  unfold binary_round_aux. rewrite shr_fexp_pos by (fold d; lia). fold d. fold n.
  destruct (shr_located (shr_record_of_loc (Z.pos p) lx) ex n N D Hn HD)
    as (mrs' & Hshr & Hloc' & Hm'); [rewrite shr_m_of_loc; lia|assumption|].
  rewrite shr_m_of_loc in Hm'. rewrite Hshr. cbv beta iota.
  assert (Hpow : 0 < 2 ^ n) by (apply Z.pow_pos_nonneg; lia).
  assert (HD' : 0 < 2 ^ n * D) by nia.
  destruct (round_nearest_even_near mrs' N (2 ^ n * D) HD' Hloc') as [Hm1 Herr].
  assert (Hm0 : 2 ^ 52 ≤ shr_m mrs' < 2 ^ 53).
  { rewrite Hm'. replace (d - 1) with (52 + n) in Hp by (unfold n; lia).
    replace d with (53 + n) in Hp by (unfold n; lia).
    rewrite !Z.pow_add_r in Hp by lia. split.
    - apply Z.div_le_lower_bound; lia.
    - apply Z.div_lt_upper_bound; lia. }
  set (m1 := round_nearest_even (shr_m mrs') (loc_of_shr_record mrs')) in *.
  assert (Hm1' : 2 ^ 52 ≤ m1 ≤ 2 ^ 53) by lia.
  destruct m1 as [|p1|p1] eqn:Hp1; [lia| |lia].
  destruct (Z.eq_dec (Z.pos p1) (2 ^ 53)) as [Htop|Hbelow].
  - assert (p1 = 9007199254740992%positive) as -> by (injection Htop; auto).
    rewrite shr_fexp_pos by (vm_compute digits2_pos; lia).
    change (Z.pos (digits2_pos 9007199254740992) - 53) with 1.
    cbn [shr SpecFloat.iter_pos shr_record_of_loc]. rewrite shr_1_spec by lia.
    cbn [shr_m]. change (Z.div2 9007199254740992) with 4503599627370496.
    unfold emax, prec. destruct (Z.leb_spec (ex + n + 1) (1024 - 53)); [|lia].
    exists 4503599627370496%positive, (n + 1).
    split; [by rewrite Z.add_assoc|]. split; [lia|]. split; [unfold n; lia|].
    rewrite Z.pow_add_r by lia. change (2 ^ 1) with 2. lia.
  - assert (Hd1 : Z.pos (digits2_pos p1) = 53)
      by (apply digits2_pos_unique; change (53 - 1) with 52; lia).
    rewrite shr_fexp_pos by lia. rewrite Hd1. change (53 - 53) with 0.
    cbn [shr shr_record_of_loc shr_m].
    unfold emax, prec. destruct (Z.leb_spec (ex + n) (1024 - 53)); [|lia].
    exists p1, n. split; [reflexivity|]. split; [lia|]. split; [unfold n; lia|].
    lia.
Qed.

Lemma shift_pos_pow (p k : positive) : Z.pos (Pos.iter xO p k) = Z.pos p * 2 ^ Z.pos k.
Proof.
  change (Pos.iter xO p k) with (shift_pos k p).
  rewrite shift_pos_correct. change (Z.pow_pos 2 k) with (2 ^ Z.pos k). ring.
Qed.

(** The double of a count below 2^53 is the count itself, its mantissa
    shifted up to 53 digits. *)
Lemma of_uint63_finite (z : positive) :
  Z.pos z < 2 ^ 53 →
  ∃ (m : positive) (a : Z),
    Prim2SF (PrimFloat.of_uint63 (Uint63.of_Z (Z.pos z))) = S754_finite false m (- a)
    ∧ Z.pos m = Z.pos z * 2 ^ a
    ∧ 2 ^ 52 ≤ Z.pos m < 2 ^ 53
    ∧ a = 53 - Z.pos (digits2_pos z)
    ∧ 0 ≤ a ≤ 52.
Proof.
  intros Hz. rewrite of_uint63_spec, Uint63.of_Z_spec.
  rewrite Z.mod_small by (change Uint63Axioms.wB with (2 ^ 63); lia).
  cbn [binary_normalize]. unfold binary_round.
  pose proof (digits2_pos_spec z) as Hd.
  set (d := Z.pos (digits2_pos z)) in *.
  assert (Hd53 : 1 ≤ d ≤ 53).
  { split; [unfold d; lia|].
    assert (d - 1 < 53) by (apply (Z.pow_lt_mono_r_iff 2); lia). lia. }
  assert (Hfexp : fexp prec emax (d + 0) = d - 53).
  { unfold fexp, SpecFloat.emin, prec, emax. lia. }
  rewrite Hfexp. unfold shl_align.
  destruct (d - 53 - 0) as [|k|k] eqn:Hk; [| lia |].
  - assert (d = 53) as Hd' by lia. rewrite Hd' in *.
    exists z, 0. change (- 0) with 0. change (2 ^ 0) with 1.
    split; [apply binary_round_aux_exact; [assumption|lia]|].
    split; [lia|].
    split; [change (53 - 1) with 52 in Hd; lia|].
    lia.
  - assert (Ha : d - 53 = - Z.pos k) by lia.
    assert (Hm : Z.pos (Pos.iter xO z k) = Z.pos z * 2 ^ Z.pos k)
      by apply shift_pos_pow.
    assert (Hbounds : 2 ^ 52 ≤ Z.pos (Pos.iter xO z k) < 2 ^ 53).
    { assert (E52 : 2 ^ 52 = 2 ^ (d - 1) * 2 ^ Z.pos k)
        by (rewrite <- Z.pow_add_r by lia; f_equal; lia).
      assert (E53 : 2 ^ 53 = 2 ^ d * 2 ^ Z.pos k)
        by (rewrite <- Z.pow_add_r by lia; f_equal; lia).
      rewrite Hm, E52, E53.
      assert (0 < 2 ^ Z.pos k) by (apply Z.pow_pos_nonneg; lia). nia. }
    exists (Pos.iter xO z k), (Z.pos k).
    split; [|split; [assumption|split; [assumption|lia]]].
    rewrite Ha. apply binary_round_aux_exact; [|lia].
    apply digits2_pos_unique. change (53 - 1) with 52. assumption.
Qed.

Lemma new_location_located (q r D N : Z) :
  0 < D → 0 ≤ r < D → N = D * q + r →
  located (shr_record_of_loc q (new_location D r)) N D.
Proof.
  intros HD Hr HN. unfold new_location.
  destruct (Z.even D) eqn:Heven.
  - unfold new_location_even. destruct (Z.eqb_spec r 0) as [->|Hr0].
    + unfold located. cbn. lia.
    + destruct (Z.compare_spec (2 * r) D); unfold located; cbn; nia.
  - unfold new_location_odd. destruct (Z.eqb_spec r 0) as [->|Hr0].
    + unfold located. cbn. lia.
    + pose proof (Z.div2_odd D) as Hodd. rewrite <- Z.negb_even, Heven in Hodd.
      cbn [negb Z.b2z] in Hodd.
      destruct (Z.compare_spec (2 * r + 1) D); unfold located; cbn; nia.
Qed.

(** The quotient of two positive doubles with 53-digit mantissas. *)
Lemma SFdiv_near (ps pn : positive) (es en : Z) :
  2 ^ 52 ≤ Z.pos ps < 2 ^ 53 → 2 ^ 52 ≤ Z.pos pn < 2 ^ 53 →
  -200 ≤ es - en ≤ 200 →
  ∃ (m : positive) (j : Z),
    SFdiv prec emax (S754_finite false ps es) (S754_finite false pn en)
    = S754_finite false m (es - en - j)
    ∧ 2 ^ 52 ≤ Z.pos m < 2 ^ 53
    ∧ 51 ≤ j ≤ 53
    ∧ - Z.pos pn ≤ 2 * Z.pos m * Z.pos pn - 2 * (Z.pos ps * 2 ^ j) ≤ Z.pos pn.
Proof.
  intros Hps Hpn Hexp.
  assert (Hds : Z.pos (digits2_pos ps) = 53)
    by (apply digits2_pos_unique; change (53 - 1) with 52; lia).
  assert (Hdn : Z.pos (digits2_pos pn) = 53)
    by (apply digits2_pos_unique; change (53 - 1) with 52; lia).
  cbn [SFdiv xorb]. unfold SFdiv_core_binary. cbn [Zdigits2]. rewrite Hds, Hdn.
  assert (He' : Z.min (fexp prec emax (53 + es - (53 + en))) (es - en) = es - en - 53).
  { unfold fexp, SpecFloat.emin, prec, emax. lia. }
  rewrite He'. replace (es - en - (es - en - 53)) with 53 by lia.
  cbv beta iota zeta. rewrite Z.shiftl_mul_pow2 by lia.
  set (N := Z.pos ps * 2 ^ 53).
  pose proof (Z.div_eucl_eq N (Z.pos pn) ltac:(lia)) as Heq.
  pose proof (Z.mod_pos_bound N (Z.pos pn) ltac:(lia)) as Hmod.
  unfold Z.modulo in Hmod. destruct (Z.div_eucl N (Z.pos pn)) as [q r].
  assert (Hq : 2 ^ 52 ≤ q < 2 ^ 54) by (unfold N in Heq; nia).
  destruct q as [|pq|pq]; [lia| |lia].
  pose proof (new_location_located (Z.pos pq) r (Z.pos pn) N ltac:(lia) Hmod Heq)
    as Hloc.
  assert (Hdq : 53 ≤ Z.pos (digits2_pos pq) ≤ 54).
  { pose proof (digits2_pos_spec pq) as Hspec. split.
    - assert (52 < Z.pos (digits2_pos pq))
        by (apply (Z.pow_lt_mono_r_iff 2); lia). lia.
    - assert (Z.pos (digits2_pos pq) - 1 < 54)
        by (apply (Z.pow_lt_mono_r_iff 2); lia). lia. }
  destruct (binary_round_aux_near pq (es - en - 53) (new_location (Z.pos pn) r)
              N (Z.pos pn) ltac:(lia) Hloc ltac:(lia) ltac:(lia))
    as (m & t & Hround & Hm & Ht & Herr).
  exists m, (53 - t). rewrite Hround.
  split; [f_equal; lia|]. split; [assumption|]. split; [lia|].
  unfold N in Herr.
  assert (t = 0 ∨ t = 1 ∨ t = 2) as [-> | [-> | ->]] by lia;
    [change (53 - 0) with 53|change (53 - 1) with 52|change (53 - 2) with 51];
    cbn [Z.pow Z.pow_pos Pos.iter Z.mul Pos.mul] in *; lia.
Qed.

(** The product of a positive double with [100]. *)
Lemma SFmul_hundred_near (m1 : positive) (e1 : Z) :
  2 ^ 52 ≤ Z.pos m1 < 2 ^ 53 → -200 ≤ e1 ≤ 0 →
  ∃ (m2 : positive) (u : Z),
    SFmul prec emax (S754_finite false m1 e1)
                    (S754_finite false 7036874417766400 (-46))
    = S754_finite false m2 (e1 + u)
    ∧ 2 ^ 52 ≤ Z.pos m2 < 2 ^ 53
    ∧ 6 ≤ u ≤ 8
    ∧ - 2 ^ u ≤ 2 * Z.pos m2 * 2 ^ u - 200 * Z.pos m1 ≤ 2 ^ u.
Proof.
  intros Hm1 He1. cbn [SFmul xorb].
  set (p := (m1 * 7036874417766400)%positive).
  assert (Hp : Z.pos p = Z.pos m1 * 7036874417766400) by (unfold p; lia).
  assert (Hdp : 105 ≤ Z.pos (digits2_pos p) ≤ 106).
  { pose proof (digits2_pos_spec p) as Hspec. split.
    - assert (104 < Z.pos (digits2_pos p))
        by (apply (Z.pow_lt_mono_r_iff 2); lia). lia.
    - assert (Z.pos (digits2_pos p) - 1 < 106)
        by (apply (Z.pow_lt_mono_r_iff 2); lia). lia. }
  assert (Hloc : located (shr_record_of_loc (Z.pos p) loc_Exact) (Z.pos p) 1)
    by (unfold located; cbn; lia).
  destruct (binary_round_aux_near p (e1 + -46) loc_Exact (Z.pos p) 1
              ltac:(lia) Hloc ltac:(lia) ltac:(lia))
    as (m2 & t & Hround & Hm2 & Ht & Herr).
  exists m2, (t - 46). rewrite Hround.
  split; [f_equal; lia|]. split; [assumption|]. split; [lia|].
  rewrite Hp in Herr.
  assert (t = 52 ∨ t = 53 ∨ t = 54) as [-> | [-> | ->]] by lia;
    [change (52 - 46) with 6|change (53 - 46) with 7|change (54 - 46) with 8];
    cbn [Z.pow Z.pow_pos Pos.iter Z.mul Pos.mul] in *; lia.
Qed.

Lemma hundred_spec : Prim2SF (of_count 100) = S754_finite false 7036874417766400 (-46).
Proof. vm_compute. reflexivity. Qed.

Lemma of_count_finite (n : nat) :
  (1 ≤ n)%nat → Z.of_nat n < 2 ^ 32 →
  ∃ (m : positive) (a : Z),
    Prim2SF (of_count n) = S754_finite false m (- a)
    ∧ Z.pos m = Z.of_nat n * 2 ^ a
    ∧ 2 ^ 52 ≤ Z.pos m < 2 ^ 53
    ∧ 0 ≤ a ≤ 52.
Proof.
  intros Hn Hbound. unfold of_count.
  destruct n as [|n']; [lia|]. cbn [Z.of_nat] in *.
  destruct (of_uint63_finite (Pos.of_succ_nat n') ltac:(lia))
    as (m & a & H1 & H2 & H3 & _ & H5).
  by exists m, a.
Qed.

(** The double quotient of two counts, [1 <= score <= length < 2^32]. *)
Lemma div_counts_near (s n : nat) :
  (1 ≤ s ≤ n)%nat → Z.of_nat n < 2 ^ 32 →
  ∃ (m1 : positive) (k1 : Z),
    Prim2SF (PrimFloat.div (of_count s) (of_count n)) = S754_finite false m1 (- k1)
    ∧ 2 ^ 52 ≤ Z.pos m1 < 2 ^ 53
    ∧ 51 ≤ k1 ≤ 105
    ∧ - Z.of_nat n ≤ 2 * Z.pos m1 * Z.of_nat n - 2 * (Z.of_nat s * 2 ^ k1)
      ≤ Z.of_nat n.
Proof.
  intros Hsn Hbound.
  destruct (of_count_finite s ltac:(lia) ltac:(lia)) as (ms & a & Hs & Hms & Hbs & Ha).
  destruct (of_count_finite n ltac:(lia) ltac:(lia)) as (mn & b & Hn & Hmn & Hbn & Hb).
  rewrite div_spec, Hs, Hn. unfold SF64div.
  destruct (SFdiv_near ms mn (- a) (- b) Hbs Hbn ltac:(lia))
    as (m1 & j & Hdiv & Hm1 & Hj & Herr).
  assert (HA : 0 < 2 ^ a) by (apply Z.pow_pos_nonneg; lia).
  assert (HB : 0 < 2 ^ b) by (apply Z.pow_pos_nonneg; lia).
  assert (Hab : b ≤ a).
  { destruct (Z.le_gt_cases b a) as [|Hlt]; [assumption|exfalso].
    assert (2 ^ (a + 1) ≤ 2 ^ b) by (apply Z.pow_le_mono_r; lia).
    rewrite Z.pow_add_r in H by lia. change (2 ^ 1) with 2 in H. nia. }
  exists m1, (a - b + j). rewrite Hdiv.
  split; [f_equal; lia|]. split; [assumption|]. split; [lia|].
  assert (Hpow : 2 ^ a * 2 ^ j = 2 ^ b * 2 ^ (a - b + j)).
  { rewrite <- !Z.pow_add_r by lia. f_equal. lia. }
  rewrite Hms, Hmn in Herr.
  assert (Hprod : Z.of_nat s * 2 ^ a * 2 ^ j = 2 ^ b * (Z.of_nat s * 2 ^ (a - b + j)))
    by (rewrite <- Z.mul_assoc, Hpow; ring).
  rewrite Hprod in Herr.
  set (X := 2 * Z.pos m1 * Z.of_nat n - 2 * (Z.of_nat s * 2 ^ (a - b + j))).
  assert (Herr' : - (2 ^ b * Z.of_nat n) ≤ 2 ^ b * X ≤ 2 ^ b * Z.of_nat n)
    by (unfold X; lia).
  split.
  - apply (Z.mul_le_mono_pos_l _ _ (2 ^ b)); lia.
  - apply (Z.mul_le_mono_pos_l _ _ (2 ^ b)); lia.
Qed.

(** [percent_of] through the mantissas of the quotient and the product. *)
Lemma percent_of_mantissas (s n : nat) (m1 : positive) (k1 : Z) :
  Prim2SF (PrimFloat.div (of_count s) (of_count n)) = S754_finite false m1 (- k1) →
  2 ^ 52 ≤ Z.pos m1 < 2 ^ 53 → 51 ≤ k1 ≤ 105 →
  ∃ (m2 : positive) (k2 : Z),
    percent_of s n = Finite ((2 * Z.pos m2 + 2 ^ k2) / 2 ^ (k2 + 1))
    ∧ 43 ≤ k2 ≤ k1
    ∧ - 2 ^ k1 ≤ 2 * Z.pos m2 * 2 ^ k1 - 200 * Z.pos m1 * 2 ^ k2 ≤ 2 ^ k1.
Proof.
  intros Hdiv Hm1 Hk1. unfold percent_of, Math_round.
  rewrite mul_spec, Hdiv, hundred_spec. unfold SF64mul.
  destruct (SFmul_hundred_near m1 (- k1) Hm1 ltac:(lia))
    as (m2 & u & Hmul & Hm2 & Hu & Herr).
  rewrite Hmul. exists m2, (k1 - u).
  destruct (Z.leb_spec 0 (- k1 + u)); [lia|].
  replace (- (- k1 + u)) with (k1 - u) by lia.
  split; [reflexivity|]. split; [lia|].
  assert (Hpow : 2 ^ k1 = 2 ^ (k1 - u) * 2 ^ u).
  { rewrite <- Z.pow_add_r by lia. f_equal. lia. }
  assert (0 < 2 ^ (k1 - u)) by (apply Z.pow_pos_nonneg; lia).
  rewrite Hpow. nia.
Qed.

(** With both roundings within half a unit in the last place, the product
    stays in the band of the half-up percentage unless [100 * s / n] is
    itself a half-integer. *)
Lemma product_in_band (s n m1 m2 P1 P2 K : Z) :
  0 < n < 2 ^ 32 → 2 ^ 51 ≤ P1 → 2 ^ 43 ≤ P2 →
  - n ≤ 2 * m1 * n - 2 * (s * P1) ≤ n →
  - P1 ≤ 2 * m2 * P1 - 200 * m1 * P2 ≤ P1 →
  (2 * K - 1) * n < 200 * s < (2 * K + 1) * n →
  (2 * K - 1) * P2 ≤ 2 * m2 < (2 * K + 1) * P2.
Proof.
  intros Hn HP1 HP2 Hb Ha Hc.
  assert (Hslack : 100 * n * P2 + P1 * n < P1 * P2).
  { assert (200 * n ≤ P1) by lia. assert (2 * n < P2) by lia. nia. }
  assert (Ha' : - (P1 * n) ≤ 2 * m2 * P1 * n - 200 * m1 * P2 * n ≤ P1 * n) by nia.
  assert (Hb' : - (100 * n * P2) ≤ 200 * m1 * n * P2 - 200 * s * P1 * P2 ≤ 100 * n * P2)
    by nia.
  assert (Hc' : ((2 * K - 1) * n + 1) * (P1 * P2) ≤ 200 * s * P1 * P2
                ∧ 200 * s * P1 * P2 ≤ ((2 * K + 1) * n - 1) * (P1 * P2)) by nia.
  assert (0 < P1 * n) by nia.
  split.
  - apply (Z.mul_le_mono_pos_l _ _ (P1 * n)); [assumption|]. nia.
  - apply (Z.mul_lt_mono_pos_l (P1 * n)); [assumption|]. nia.
Qed.

Lemma half_up_band (s n : nat) :
  (1 ≤ n)%nat →
  (2 * half_up_percent s n - 1) * Z.of_nat n ≤ 200 * Z.of_nat s
  < (2 * half_up_percent s n + 1) * Z.of_nat n.
Proof.
  intros Hn. unfold half_up_percent.
  pose proof (Z.div_mod (200 * Z.of_nat s + Z.of_nat n) (2 * Z.of_nat n) ltac:(lia)).
  pose proof (Z.mod_pos_bound (200 * Z.of_nat s + Z.of_nat n) (2 * Z.of_nat n)
                ltac:(lia)).
  nia.
Qed.

Lemma falls_short_spec (s n : nat) :
  falls_short s n = true ↔
  200 * Z.of_nat s = 29 * Z.of_nat n ∨ 200 * Z.of_nat s = 57 * Z.of_nat n
  ∨ 200 * Z.of_nat s = 113 * Z.of_nat n ∨ 200 * Z.of_nat s = 115 * Z.of_nat n.
Proof.
  unfold falls_short. cbn [existsb]. rewrite !orb_true_iff, !Z.eqb_eq.
  intuition discriminate.
Qed.

(** Away from the half-integers the percentage is the half-up one. *)
Lemma percent_of_off_tie (s n : nat) :
  (1 ≤ s ≤ n)%nat → Z.of_nat n < 2 ^ 32 →
  200 * Z.of_nat s ≠ (2 * half_up_percent s n - 1) * Z.of_nat n →
  percent_of s n = Finite (half_up_percent s n).
Proof.
  intros Hsn Hbound Hoff.
  destruct (div_counts_near s n Hsn Hbound) as (m1 & k1 & Hdiv & Hm1 & Hk1 & Hb).
  destruct (percent_of_mantissas s n m1 k1 Hdiv Hm1 Hk1) as (m2 & k2 & -> & Hk2 & Ha).
  pose proof (half_up_band s n ltac:(lia)) as Hband.
  set (K := half_up_percent s n) in *.
  assert (HP1 : 2 ^ 51 ≤ 2 ^ k1) by (apply Z.pow_le_mono_r; lia).
  assert (HP2 : 2 ^ 43 ≤ 2 ^ k2) by (apply Z.pow_le_mono_r; lia).
  pose proof (product_in_band (Z.of_nat s) (Z.of_nat n) (Z.pos m1) (Z.pos m2)
                (2 ^ k1) (2 ^ k2) K ltac:(lia) HP1 HP2 Hb Ha ltac:(lia)) as Hin.
  f_equal. rewrite Z.pow_add_r by lia. change (2 ^ 1) with 2.
  symmetry. apply (Z.div_unique _ _ _ (2 * Z.pos m2 + 2 ^ k2 - 2 ^ k2 * 2 * K)); lia.
Qed.

Lemma tie_table_ok : tie_table = true.
Proof. vm_compute. reflexivity. Qed.

Lemma tie_ok_sound (c : nat) :
  tie_ok c = true →
  ∃ (m : positive) (k : Z),
    Prim2SF (PrimFloat.div (of_count c) (of_count 200)) = S754_finite false m (- k)
    ∧ 0 < k
    ∧ 400 * 2 ^ 53 - 200 < 4 * Z.of_nat c * 2 ^ k
    ∧ Z.of_nat c * 2 ^ k < 400 * 2 ^ 52 - 200
    ∧ -200 < 400 * Z.pos m - 2 * Z.of_nat c * 2 ^ k < 200
    ∧ percent_of c 200 = Finite (half_up_or_short c 200).
Proof.
  unfold tie_ok.
  destruct (Prim2SF (PrimFloat.div (of_count c) (of_count 200)))
    as [| | |[] m e]; try discriminate.
  intros H.
  apply andb_prop in H as [H H5]. apply andb_prop in H as [H H4].
  apply andb_prop in H as [H H3]. apply andb_prop in H as [H1 H2].
  apply Z.ltb_lt in H1, H2, H3, H4.
  apply number_eqb_eq in H5.
  exists m, (- e). rewrite Z.opp_involutive. repeat split; try lia; assumption.
Qed.

Lemma tie_table_sound (c : nat) :
  (c ≤ 199)%nat → Nat.odd c = true → tie_ok c = true.
Proof.
  intros Hc Hodd. pose proof tie_table_ok as Htable. unfold tie_table in Htable.
  rewrite forallb_forall in Htable.
  assert (Hc' : c = (2 * Nat.div2 c + 1)%nat).
  { pose proof (Nat.div2_odd c) as H. rewrite Hodd in H. cbn [Nat.b2n] in H. lia. }
  rewrite Hc'. apply Htable, in_seq. lia.
Qed.

(** A 53-digit mantissa within half a unit of [c / 200], for a quotient
    that lies inside its binade and off the half-way points, is the
    nearest one. *)
Lemma nearest_unique (c m k m' k' : Z) :
  0 < c → 2 ^ 52 ≤ m < 2 ^ 53 → 0 ≤ k →
  -200 ≤ 400 * m - 2 * c * 2 ^ k ≤ 200 →
  0 ≤ k' →
  400 * 2 ^ 53 - 200 < 4 * c * 2 ^ k' →
  c * 2 ^ k' < 400 * 2 ^ 52 - 200 →
  -200 < 400 * m' - 2 * c * 2 ^ k' < 200 →
  m = m' ∧ k = k'.
Proof.
  intros Hc Hm Hk Herr Hk' Hlow Hhigh Herr'.
  assert (0 < 2 ^ k) by (apply Z.pow_pos_nonneg; lia).
  assert (0 < 2 ^ k') by (apply Z.pow_pos_nonneg; lia).
  destruct (Z.lt_trichotomy k k') as [Hlt|[->|Hgt]].
  - exfalso. assert (Hp : 2 ^ (k + 1) ≤ 2 ^ k') by (apply Z.pow_le_mono_r; lia).
    rewrite Z.pow_add_r in Hp by lia. change (2 ^ 1) with 2 in Hp. nia.
  - split; [lia|reflexivity].
  - exfalso. assert (Hp : 2 ^ (k' + 1) ≤ 2 ^ k) by (apply Z.pow_le_mono_r; lia).
    rewrite Z.pow_add_r in Hp by lia. change (2 ^ 1) with 2 in Hp. nia.
Qed.

(** On a half-integer the quotient is that of [c / 200], and the table has
    its percentage. *)
Lemma percent_of_on_tie (s n c : nat) :
  (1 ≤ s ≤ n)%nat → Z.of_nat n < 2 ^ 32 →
  (c ≤ 199)%nat → Nat.odd c = true →
  200 * Z.of_nat s = Z.of_nat c * Z.of_nat n →
  percent_of s n = percent_of c 200.
Proof.
  intros Hsn Hbound Hc Hodd Htie.
  destruct (div_counts_near s n Hsn Hbound) as (m1 & k1 & Hdiv & Hm1 & Hk1 & Hb).
  destruct (tie_ok_sound c (tie_table_sound c Hc Hodd))
    as (m & k & Hdiv' & Hk & Hlow & Hhigh & Herr & _).
  assert (Hc0 : 0 < Z.of_nat c) by nia.
  assert (Herr1 : -200 ≤ 400 * Z.pos m1 - 2 * Z.of_nat c * 2 ^ k1 ≤ 200).
  { assert (Hn : 0 < Z.of_nat n) by lia.
    assert (H200 : - (200 * Z.of_nat n)
                   ≤ (400 * Z.pos m1 - 2 * Z.of_nat c * 2 ^ k1) * Z.of_nat n
                   ≤ 200 * Z.of_nat n) by nia.
    split.
    - apply (Z.mul_le_mono_pos_r _ _ (Z.of_nat n)); lia.
    - apply (Z.mul_le_mono_pos_r _ _ (Z.of_nat n)); lia. }
  destruct (nearest_unique (Z.of_nat c) (Z.pos m1) k1 (Z.pos m) k
              Hc0 Hm1 ltac:(lia) Herr1 ltac:(lia) Hlow Hhigh Herr) as [Hmm Hkk].
  injection Hmm as ->. subst k1.
  unfold percent_of. f_equal. f_equal. apply Prim2SF_inj. by rewrite Hdiv, Hdiv'.
Qed.

Lemma percent_of_zero (n : nat) :
  (1 ≤ n)%nat → Z.of_nat n < 2 ^ 32 → percent_of 0 n = Finite 0.
Proof.
  intros Hn Hbound.
  destruct (of_count_finite n Hn Hbound) as (m & a & Hfn & _).
  unfold percent_of, Math_round.
  rewrite mul_spec, div_spec, Hfn, hundred_spec.
  change (Prim2SF (of_count 0)) with (S754_zero false). reflexivity.
Qed.

(** The percentage of every score of every quiz: half-up, one less on the
    four ratios that fall short. *)
Lemma percent_of_half_up_or_short (s n : nat) :
  (1 ≤ n)%nat → Z.of_nat n < 2 ^ 32 → (s ≤ n)%nat →
  percent_of s n = Finite (half_up_or_short s n).
Proof.
  intros Hn Hbound Hs.
  pose proof (half_up_band s n Hn) as Hband.
  unfold half_up_or_short.
  destruct (Nat.eq_dec s 0%nat) as [->|Hs0].
  { rewrite percent_of_zero by assumption.
    assert (Hshort : falls_short 0 n = false).
    { destruct (falls_short 0 n) eqn:E; [|reflexivity].
      apply falls_short_spec in E. lia. }
    rewrite Hshort. f_equal. unfold half_up_percent.
    change (Z.of_nat 0) with 0. rewrite Z.sub_0_r. symmetry.
    apply Z.div_small. lia. }
  set (K := half_up_percent s n) in *.
  destruct (Z.eq_dec (200 * Z.of_nat s) ((2 * K - 1) * Z.of_nat n)) as [Htie|Hoff].
  - assert (HK : 1 ≤ K ≤ 100) by nia.
    set (c := Z.to_nat (2 * K - 1)).
    assert (Hc : Z.of_nat c = 2 * K - 1) by (unfold c; lia).
    assert (Hodd : Nat.odd c = true).
    { rewrite <- Nat.negb_even. apply negb_true_iff.
      destruct (Nat.even c) eqn:E; [|reflexivity].
      apply Nat.even_spec in E as [h Hh]. lia. }
    rewrite (percent_of_on_tie s n c) by (try lia; assumption).
    destruct (tie_ok_sound c (tie_table_sound c ltac:(lia) Hodd))
      as (_ & _ & _ & _ & _ & _ & _ & ->).
    f_equal. unfold half_up_or_short.
    assert (Hhalf : half_up_percent c 200 = K).
    { unfold half_up_percent. rewrite Hc. change (Z.of_nat 200) with 200.
      symmetry. apply (Z.div_unique _ _ _ 0); lia. }
    assert (Hsame : falls_short c 200 = falls_short s n).
    { apply eq_true_iff_eq. rewrite !falls_short_spec.
      change (Z.of_nat 200) with 200. rewrite Htie, Hc. nia. }
    by rewrite Hhalf, Hsame.
  - assert (Hshort : falls_short s n = false).
    { destruct (falls_short s n) eqn:E; [|reflexivity].
      apply falls_short_spec in E. exfalso. apply Hoff.
      assert (Hpos : 0 < Z.of_nat n) by lia.
      destruct E as [E|[E|[E|E]]]; rewrite E in Hband |- *;
        destruct Hband as [Hlow Hhigh];
        apply Z.mul_le_mono_pos_r in Hlow; try assumption;
        apply Z.mul_lt_mono_pos_r in Hhigh; try assumption;
        f_equal; lia. }
    rewrite Hshort, Z.sub_0_r. apply percent_of_off_tie; [lia|assumption|assumption].
Qed.

End Binary64.

(** C6, as claimed, fails: with 23 of 40 answers right the quotient
    23/40 is not a binary fraction, the double product (23/40)*100 lies
    just below 57.5, and [Math.round] gives 57, where half-up rounding of
    57.5 gives 58. *)
Lemma percentage_23_of_40 :
  length forty = 40
  ∧ calculateScore forty first_23_right = 23
  ∧ getPercentage forty first_23_right = Finite 57
  ∧ half_up_percent 23 40 = 58%Z.
Proof. repeat split; vm_compute; reflexivity. Qed.

(** C6, amended: [getPercentage] is [Math.round] of the double
    [(score / length) * 100].  For every quiz of at least one question
    (and fewer than 2^32, the bound of a JavaScript array) and every
    score, that is [100 * score / length] rounded half-up, except on the
    ratios 29/200, 57/200, 113/200 and 23/40: there
    [100 * score / length] is a half-integer, the double product falls
    just below it, and the percentage is one less.  In both components. *)
Theorem percentage_half_up
    (field : question → option string)
    (questions : list question) (userAnswers : gmap string json) :
  1 ≤ length questions →
  (Z.of_nat (length questions) < 2 ^ 32)%Z →
  (falls_short (calculateScore_on field questions userAnswers) (length questions)
   = false →
   getPercentage_on field questions userAnswers =
     Finite (half_up_percent (calculateScore_on field questions userAnswers)
                             (length questions)))
  ∧ (falls_short (calculateScore_on field questions userAnswers) (length questions)
     = true →
     getPercentage_on field questions userAnswers =
       Finite (half_up_percent (calculateScore_on field questions userAnswers)
                               (length questions) - 1))
  ∧ (falls_short (calculateScore_on field questions userAnswers) (length questions)
     = true ↔
     (200 * Z.of_nat (calculateScore_on field questions userAnswers)
        = 29 * Z.of_nat (length questions)
      ∨ 200 * Z.of_nat (calculateScore_on field questions userAnswers)
        = 57 * Z.of_nat (length questions)
      ∨ 200 * Z.of_nat (calculateScore_on field questions userAnswers)
        = 113 * Z.of_nat (length questions)
      ∨ 200 * Z.of_nat (calculateScore_on field questions userAnswers)
        = 115 * Z.of_nat (length questions))%Z).
Proof.
  intros Hlen Hbound. unfold getPercentage_on.
  pose proof (percent_of_half_up_or_short
                (calculateScore_on field questions userAnswers) (length questions)
                Hlen Hbound (calculateScore_on_le field userAnswers questions))
    as Hpercent.
  unfold half_up_or_short in Hpercent.
  split; [|split; [|apply falls_short_spec]].
  - intros Hshort. rewrite Hpercent, Hshort. by rewrite Z.sub_0_r.
  - intros Hshort. by rewrite Hpercent, Hshort.
Qed.

Lemma percentage_half_up_part1 :
  getPercentage part1 answers_AXC =
    Finite (half_up_percent (calculateScore part1 answers_AXC) 3)
  ∧ getPercentage forty first_23_right =
      Finite (half_up_percent (calculateScore forty first_23_right) 40 - 1).
Proof.
  split.
  - apply (percentage_half_up answer part1 answers_AXC);
      [simpl; lia|vm_compute; reflexivity|vm_compute; reflexivity].
  - apply (percentage_half_up answer forty first_23_right);
      [vm_compute; lia|vm_compute; reflexivity|vm_compute; reflexivity].
Defined.

(** C7: the grade class of a percentage is excellent from 80 up, good from
    60 to below 80, average from 40 to below 60 and low below 40; two
    answers right out of three give 67 and the grade good. *)
Theorem grade_bands (percentage : Z) :
  (gradeClass (Finite percentage) = "grade-excellent" ↔ (80 ≤ percentage)%Z)
  ∧ (gradeClass (Finite percentage) = "grade-good" ↔ (60 ≤ percentage < 80)%Z)
  ∧ (gradeClass (Finite percentage) = "grade-average" ↔ (40 ≤ percentage < 60)%Z)
  ∧ (gradeClass (Finite percentage) = "grade-low" ↔ (percentage < 40)%Z)
  ∧ calculateScore part1 answers_AXC = 2
  ∧ getPercentage part1 answers_AXC = Finite 67
  ∧ gradeClass (getPercentage part1 answers_AXC) = "grade-good".
Proof.
  unfold gradeClass, number_ge.
  destruct (Z.leb_spec 80 percentage), (Z.leb_spec 60 percentage),
    (Z.leb_spec 40 percentage);
    repeat split; intros; try discriminate; try lia; reflexivity.
Qed.

End ScoreClaims.

(** ** Next and previous question *)

Section Navigation.

Import Engine Shape Scenario.

Lemma strict_eq_null (v : json) :
  strict_eq (Some v) (Some JNull) = true ↔ v = JNull.
Proof. destruct v; simpl; split; intros H; try discriminate; reflexivity. Qed.

Lemma strict_eq_not_null (v : json) :
  v ≠ JNull → strict_eq (Some v) (Some JNull) = false.
Proof.
  intros Hv. destruct (strict_eq (Some v) (Some JNull)) eqn:E; [|reflexivity].
  apply strict_eq_null in E. contradiction.
Qed.

Lemma strict_eq_zero (k : Z) :
  strict_eq (Some (JNum k)) (Some (JNum 0)) = true ↔ k = 0%Z.
Proof. simpl. apply Z.eqb_eq. Qed.

(** Two indices never share a property key. *)
Lemma to_key_index_inj (j k : Z) : to_key (JNum j) = to_key (JNum k) → j = k.
Proof. simpl. apply pretty_Z_inj. Qed.

Lemma with_answer_other (answers : gmap string json) (j k : Z) (v : json) :
  j ≠ k → with_answer answers j v !! to_key (JNum k) = answers !! to_key (JNum k).
Proof.
  intros Hne. unfold with_answer. apply lookup_insert_ne.
  intros Heq. apply Hne. by apply to_key_index_inj.
Qed.

Lemma or_default_string (recorded : option json) (s : string) :
  recorded = Some (JStr s) → s ≠ "" → or_default recorded JNull = JStr s.
Proof.
  intros -> Hs. simpl. destruct (String.eqb_spec s ""); [contradiction|reflexivity].
Qed.

Lemma or_default_blank (recorded : option json) :
  recorded = None ∨ recorded = Some (JStr "") → or_default recorded JNull = JNull.
Proof. intros [-> | ->]; reflexivity. Qed.

(** C4, as claimed, fails: on the first question, with the blank option
    recorded for the second one, [nextQuestion] commits and advances but
    the selection comes back absent, not as the recorded answer. *)
Lemma nextQuestion_forgets_blank_answer :
  fst <$> play blank_quiz [] (mount NoItem)
            [SelectCategory "PART1"; SelectOption "A"; NextQuestion;
             SelectOption ""; PrevQuestion] = Some blank_ahead
  ∧ read (userAnswers blank_ahead) "1" = Some (JStr "")
  ∧ nextQuestion blank_quiz blank_ahead =
      Some (in_quiz "PART1" 1 (<["0" := JStr "A"]> (<["1" := JStr ""]> ∅)) JNull).
Proof. repeat split; vm_compute; reflexivity. Qed.

(** C4, amended: [nextQuestion] changes nothing when no option is
    selected.  Otherwise it records the selection for the current index
    and, unless the index is the last one, moves to the next index and
    selects what is recorded there if that is a non-empty string, and
    nothing if nothing or the empty string is recorded; on the last index
    the index and the selection stay. *)
Theorem nextQuestion_commits_and_advances
    (questions : list question) (st : state)
    (index : Z) (answers : gmap string json) :
  currentQuestion st = JNum index →
  userAnswers st = JObj answers →
  (selectedOption st = JNull → nextQuestion questions st = Some st)
  ∧ (selectedOption st ≠ JNull →
     ∃ st' : state,
       nextQuestion questions st = Some st'
       ∧ userAnswers st' =
           JObj (<[to_key (JNum index) := selectedOption st]> answers)
       ∧ screen st' = screen st
       ∧ selectedCategory st' = selectedCategory st
       ∧ isTransitioning st' = false
       ∧ ((index < Z.of_nat (length questions) - 1)%Z →
            currentQuestion st' = JNum (index + 1)
            ∧ selectedOption st' =
                or_default (answers !! to_key (JNum (index + 1))) JNull
            ∧ (∀ s : string,
                 answers !! to_key (JNum (index + 1)) = Some (JStr s) →
                 s ≠ "" → selectedOption st' = JStr s)
            ∧ (answers !! to_key (JNum (index + 1)) = None
               ∨ answers !! to_key (JNum (index + 1)) = Some (JStr "") →
               selectedOption st' = JNull))
       ∧ ((Z.of_nat (length questions) - 1 ≤ index)%Z →
            currentQuestion st' = JNum index
            ∧ selectedOption st' = selectedOption st)).
Proof.
  intros Hindex Hanswers. split.
  - intros Hsel. unfold nextQuestion. by rewrite Hsel.
  - intros Hsel. unfold nextQuestion.
    rewrite (strict_eq_not_null _ Hsel), Hanswers, Hindex.
    cbn [as_object as_number mbind option_bind].
    eexists. split; [reflexivity|].
    destruct (Z.ltb_spec index (Z.of_nat (length questions) - 1));
      cbn [userAnswers screen selectedCategory isTransitioning currentQuestion
           selectedOption setIsTransitioning setSelectedOption
           setCurrentQuestion setUserAnswers].
    + rewrite with_answer_other by lia.
      repeat split; try reflexivity; try lia.
      * intros s Hs Hne. by apply or_default_string.
      * apply or_default_blank.
    + repeat split; try reflexivity; try assumption; lia.
Qed.

Lemma nextQuestion_commits_and_advances_two_of_five :
  ∃ st' : state,
    nextQuestion (replicate 5 (asked "Q" "A")) two_of_five = Some st'
    ∧ userAnswers st' =
        JObj (<["2" := JStr "C"]> (<["0" := JStr "A"]> (<["1" := JStr "B"]> ∅)))
    ∧ currentQuestion st' = JNum 3
    ∧ selectedOption st' = JNull.
Proof.
  destruct (nextQuestion_commits_and_advances (replicate 5 (asked "Q" "A"))
              two_of_five 2 (<["0" := JStr "A"]> (<["1" := JStr "B"]> ∅))
              eq_refl eq_refl) as [_ H].
  destruct (H ltac:(discriminate)) as (st' & Hrun & Hans & _ & _ & _ & Hadv & _).
  destruct (Hadv ltac:(simpl; lia)) as (Hidx & Hsel & _).
  exists st'. repeat split; assumption.
Defined.

(** C5, as claimed, fails: on the second question, with the blank option
    recorded for the first one, [prevQuestion] commits and goes back but
    the selection comes back absent, not as the recorded answer. *)
Lemma prevQuestion_forgets_blank_answer :
  fst <$> play blank_quiz [] (mount NoItem)
            [SelectCategory "PART1"; SelectOption ""; NextQuestion;
             SelectOption "B"] = Some blank_behind
  ∧ read (userAnswers blank_behind) "0" = Some (JStr "")
  ∧ prevQuestion blank_behind =
      Some (in_quiz "PART1" 0 (<["1" := JStr "B"]> (<["0" := JStr ""]> ∅)) JNull).
Proof. repeat split; vm_compute; reflexivity. Qed.

(** C5, amended: [prevQuestion] changes nothing at index 0.  Otherwise it
    records the selection, if there is one, for the current index, moves
    to the index before and selects what is recorded there if that is a
    non-empty string, and nothing if nothing or the empty string is
    recorded. *)
Theorem prevQuestion_commits_and_goes_back
    (st : state) (index : Z) (answers : gmap string json) :
  currentQuestion st = JNum index →
  userAnswers st = JObj answers →
  (index = 0%Z → prevQuestion st = Some st)
  ∧ (index ≠ 0%Z →
     ∃ st' : state,
       prevQuestion st = Some st'
       ∧ (selectedOption st ≠ JNull →
            userAnswers st' =
              JObj (<[to_key (JNum index) := selectedOption st]> answers))
       ∧ (selectedOption st = JNull → userAnswers st' = JObj answers)
       ∧ read (userAnswers st') (to_key (JNum (index - 1))) =
           answers !! to_key (JNum (index - 1))
       ∧ currentQuestion st' = JNum (index - 1)
       ∧ selectedOption st' =
           or_default (answers !! to_key (JNum (index - 1))) JNull
       ∧ (∀ s : string,
            answers !! to_key (JNum (index - 1)) = Some (JStr s) →
            s ≠ "" → selectedOption st' = JStr s)
       ∧ (answers !! to_key (JNum (index - 1)) = None
          ∨ answers !! to_key (JNum (index - 1)) = Some (JStr "") →
          selectedOption st' = JNull)
       ∧ screen st' = screen st
       ∧ selectedCategory st' = selectedCategory st
       ∧ isTransitioning st' = false).
Proof.
  intros Hindex Hanswers. split.
  - intros ->. unfold prevQuestion. by rewrite Hindex.
  - intros Hne. unfold prevQuestion. rewrite Hindex.
    destruct (strict_eq (Some (JNum index)) (Some (JNum 0))) eqn:Hzero;
      [apply strict_eq_zero in Hzero; contradiction|].
    rewrite Hanswers. cbn [as_object as_number mbind option_bind].
    eexists. split; [reflexivity|].
    destruct (strict_eq (Some (selectedOption st)) (Some JNull)) eqn:Hsel;
      cbn [negb userAnswers screen selectedCategory isTransitioning
           currentQuestion selectedOption setIsTransitioning
           setSelectedOption setCurrentQuestion setUserAnswers read].
    + apply strict_eq_null in Hsel.
      repeat split;
        first [ reflexivity | by rewrite Hanswers | apply or_default_blank
              | intros ?; contradiction
              | intros s Hs Hblank; by apply or_default_string ].
    + repeat split;
        first [ reflexivity | apply or_default_blank
              | apply with_answer_other; lia
              | intros Hnull; apply strict_eq_null in Hnull; congruence
              | intros s Hs Hblank; by apply or_default_string ].
Qed.

Lemma prevQuestion_commits_and_goes_back_two_of_five :
  ∃ st' : state,
    prevQuestion two_of_five = Some st'
    ∧ userAnswers st' =
        JObj (<["2" := JStr "C"]> (<["0" := JStr "A"]> (<["1" := JStr "B"]> ∅)))
    ∧ currentQuestion st' = JNum 1
    ∧ selectedOption st' = JStr "B".
Proof.
  destruct (prevQuestion_commits_and_goes_back two_of_five 2
              (<["0" := JStr "A"]> (<["1" := JStr "B"]> ∅))
              eq_refl eq_refl) as [_ H].
  destruct (H ltac:(discriminate))
    as (st' & Hrun & Hans & _ & _ & Hidx & _ & Hsel & _).
  exists st'. repeat split; [assumption| |assumption|].
  - apply Hans. discriminate.
  - apply (Hsel "B"); [reflexivity|discriminate].
Defined.

(** The single-category component runs the same two handlers. *)
Lemma single_nextQuestion_lift
    (questions : list question) (category : json) (st : Single.state) :
  nextQuestion questions (Single.lift category st) =
  Single.lift category <$> Single.nextQuestion questions st.
Proof.
  destruct st as [scr idx ans sel busy].
  unfold nextQuestion, Single.nextQuestion, Single.lift.
  cbn [Single.screen Single.currentQuestion Single.userAnswers
       Single.selectedOption Single.isTransitioning selectedOption
       userAnswers currentQuestion].
  destruct (strict_eq (Some sel) (Some JNull)); [reflexivity|].
  destruct ans; try reflexivity. destruct idx; try reflexivity.
  cbn [as_object as_number mbind option_bind].
  destruct (Z.ltb _ _); reflexivity.
Qed.

Lemma single_prevQuestion_lift (category : json) (st : Single.state) :
  prevQuestion (Single.lift category st) =
  Single.lift category <$> Single.prevQuestion st.
Proof.
  destruct st as [scr idx ans sel busy].
  unfold prevQuestion, Single.prevQuestion, Single.lift.
  cbn [Single.screen Single.currentQuestion Single.userAnswers
       Single.selectedOption Single.isTransitioning selectedOption
       userAnswers currentQuestion].
  destruct (strict_eq (Some idx) (Some (JNum 0))); [reflexivity|].
  destruct ans; try reflexivity. destruct idx; try reflexivity.
  cbn [as_object as_number mbind option_bind].
  destruct (strict_eq (Some sel) (Some JNull)); reflexivity.
Qed.

End Navigation.

(** ** The load and save effects *)

Section Persistence.

Import Engine Shape Scenario.

Lemma read_view_screen (st : state) : read (view_doc st) "screen" = Some (screen st).
Proof. apply lookup_insert_eq. Qed.

Lemma read_view_category (st : state) :
  read (view_doc st) "selectedCategory" = Some (selectedCategory st).
Proof.
  unfold view_doc, read. rewrite lookup_insert_ne by done. apply lookup_insert_eq.
Qed.

Lemma read_session_index (st : state) :
  read (session_doc st) "currentQuestion" = Some (currentQuestion st).
Proof. apply lookup_insert_eq. Qed.

Lemma read_session_answers (st : state) :
  read (session_doc st) "userAnswers" = Some (userAnswers st).
Proof.
  unfold session_doc, read. rewrite lookup_insert_ne by done. apply lookup_insert_eq.
Qed.

Lemma read_session_selection (st : state) :
  read (session_doc st) "selectedOption" = Some (selectedOption st).
Proof.
  unfold session_doc, read. do 2 (rewrite lookup_insert_ne by done).
  apply lookup_insert_eq.
Qed.

Lemma or_default_index (k : Z) : or_default (Some (JNum k)) (JNum 0) = JNum k.
Proof. simpl. destruct (Z.eqb_spec k 0); simpl; congruence. Qed.

Lemma or_default_null_or_truthy (v : option json) :
  or_default v JNull = JNull ∨ truthy (or_default v JNull) = true.
Proof.
  destruct v as [x|]; simpl; [|by left].
  destruct (truthy x) eqn:E; [by right|by left].
Qed.

Lemma or_default_zero_or_truthy (v : option json) :
  or_default v (JNum 0) = JNum 0 ∨ truthy (or_default v (JNum 0)) = true.
Proof.
  destruct v as [x|]; simpl; [|by left].
  destruct (truthy x) eqn:E; [by right|by left].
Qed.

Lemma or_default_falsy (v d : json) : truthy v = false → or_default (Some v) d = d.
Proof. intros H. simpl. by rewrite H. Qed.

Lemma or_default_truthy (v d : json) : truthy v = true → or_default (Some v) d = v.
Proof. intros H. simpl. by rewrite H. Qed.

Lemma category_key_truthy (key : string) :
  In key category_keys → truthy (JStr key) = true.
Proof. intros [<-|[<-|[]]]; reflexivity. Qed.

Lemma selection_survives (selection : json) :
  (selection = JNull ∨ ∃ s : string, selection = JStr s) →
  selection ≠ JStr "" → or_default (Some selection) JNull = selection.
Proof.
  intros [->|[s ->]] Hne; [reflexivity|]. simpl.
  destruct (String.eqb_spec s ""); [congruence|reflexivity].
Qed.

(** What the load effect makes of an item that mirrors the cells. *)
Lemma load_mirrors (st : state) (it : item) :
  state_shape st → mirrors st it → load it = rehydrated st.
Proof.
  intros [Hbusy Hshape] (m & cats & -> & Hview & Hcats & _ & Hentry).
  unfold load, load_effect, load_try.
  cbn [read]. rewrite Hview, Hcats.
  assert (Hv : ∀ k, read_opt (Some (view_doc st)) k = read (view_doc st) k)
    by reflexivity.
  rewrite !Hv, read_view_screen, read_view_category.
  destruct st as [scr cat idx ans sel busy].
  unfold default_session in Hshape.
  cbn [screen selectedCategory currentQuestion userAnswers selectedOption
       isTransitioning] in *.
  destruct Hshape as [(-> & -> & -> & -> & ->) | (Hscr & (key & Hkey & ->) & Hsess)].
  - subst busy. reflexivity.
  - rewrite (or_default_truthy (JStr key)) by by apply category_key_truthy.
    rewrite (category_key_truthy key Hkey).
    cbn [read_opt to_key read]. rewrite (Hentry key eq_refl).
    cbn [truthy session_doc].
    change (JObj (<["currentQuestion":=idx]> (<["userAnswers":=ans]>
                 (<["selectedOption":=sel]> ∅))))
      with (session_doc (Build_state scr (JStr key) idx ans sel busy)).
    rewrite read_session_index, read_session_answers, read_session_selection.
    cbn [screen selectedCategory currentQuestion userAnswers selectedOption
         isTransitioning].
    destruct Hsess as ((k & ->) & (a & -> & _) & _).
    rewrite or_default_index. subst busy.
    destruct Hscr as [-> | ->]; reflexivity.
Qed.

Lemma rehydrated_same (st : state) :
  state_shape st → selectedOption st ≠ JStr "" → rehydrated st = st.
Proof.
  intros [_ Hshape] Hne. unfold rehydrated.
  rewrite selection_survives; [by destruct st| |assumption].
  unfold default_session, session_shape in Hshape.
  destruct Hshape as [(_ & _ & _ & _ & ->) | (_ & _ & _ & _ & Hsel)];
    [by left|assumption].
Qed.

Lemma rehydrated_shape (st : state) : state_shape st → state_shape (rehydrated st).
Proof.
  intros [Hbusy Hshape]. split; [assumption|].
  unfold default_session, session_shape in *.
  destruct Hshape as [(? & ? & ? & ? & Hsel) | (? & ? & ? & ? & Hsel)].
  - left. unfold rehydrated. rewrite Hsel. by repeat split.
  - right. repeat split; try assumption.
    unfold rehydrated. cbn [selectedOption setSelectedOption].
    destruct Hsel as [->|[s ->]]; [by left|].
    simpl. destruct (String.eqb s ""); simpl; eauto.
Qed.

(** The document the save effect writes over a stored item. *)
Lemma save_try_stored (it : item) :
  stored_shape it →
  ∃ (m categories : gmap string json),
    m !! "categories" = Some (JObj categories)
    ∧ (it = NoItem ∨ it = EmptyText ∨ it = Text (JObj m))
    ∧ (∀ key e, categories !! key = Some e → entry_shape e)
    ∧ ∀ st : state,
        save_try st it =
        Some (JObj (if truthy (selectedCategory st)
                    then <["categories" :=
                             JObj (<[to_key (selectedCategory st) := session_doc st]>
                                     categories)]>
                           (<["currentView" := view_doc st]> m)
                    else <["currentView" := view_doc st]> m)).
Proof.
  intros [-> | [-> | (m & cats & -> & Hcats & Hentries)]].
  - exists (<["categories" := JObj ∅]> ∅), ∅. repeat split; eauto.
    + intros key e He. by rewrite lookup_empty in He.
    + intros st. unfold save_try. cbn [mbind option_bind as_object].
      rewrite lookup_insert_ne by done. rewrite lookup_insert_eq.
      cbn [or_default truthy as_object]. by destruct (truthy (selectedCategory st)).
  - exists (<["categories" := JObj ∅]> ∅), ∅. repeat split; eauto.
    + intros key e He. by rewrite lookup_empty in He.
    + intros st. unfold save_try. cbn [mbind option_bind as_object].
      rewrite lookup_insert_ne by done. rewrite lookup_insert_eq.
      cbn [or_default truthy as_object]. by destruct (truthy (selectedCategory st)).
  - exists m, cats. repeat split; eauto.
    intros st. unfold save_try. cbn [mbind option_bind as_object].
    rewrite lookup_insert_ne by done. rewrite Hcats.
    cbn [or_default truthy as_object]. by destruct (truthy (selectedCategory st)).
Qed.

Lemma session_entry_shape (st : state) :
  session_shape (currentQuestion st) (userAnswers st) (selectedOption st) →
  entry_shape (session_doc st).
Proof. intros H. by exists (currentQuestion st), (userAnswers st), (selectedOption st). Qed.

(** After the save effect the item mirrors the cells. *)
Lemma save_stored (st : state) (it : item) :
  state_shape st → stored_shape it → mirrors st (save_effect st it).
Proof.
  intros [_ Hshape] Hstored.
  destruct (save_try_stored it Hstored) as (m & cats & Hcats & _ & Hentries & Hsave).
  unfold save_effect. rewrite Hsave. unfold mirrors.
  destruct Hshape as [(_ & Hcat & _) | (_ & (key & Hkey & Hcat) & Hsess)];
    rewrite Hcat.
  - cbn [truthy]. exists (<["currentView" := view_doc st]> m), cats.
    repeat split; try assumption.
    + apply lookup_insert_eq.
    + by rewrite lookup_insert_ne.
    + intros key Hkey. congruence.
  - rewrite (category_key_truthy key Hkey). cbn [to_key].
    eexists _, (<[key := session_doc st]> cats). repeat split.
    + rewrite lookup_insert_ne by done. apply lookup_insert_eq.
    + apply lookup_insert_eq.
    + intros k e. rewrite lookup_insert. case_decide.
      * intros [= <-]. by apply session_entry_shape.
      * apply Hentries.
    + intros k [= <-]. apply lookup_insert_eq.
Qed.

Lemma mirrors_stored (st : state) (it : item) : mirrors st it → stored_shape it.
Proof.
  intros (m & cats & -> & _ & Hcats & Hentries & _). right. right. eauto.
Qed.

(** Saving again cells that the item already mirrors writes the same
    document. *)
Lemma save_mirrored (st : state) (it : item) :
  state_shape st → mirrors st it → save_effect st it = it.
Proof.
  intros [_ Hshape] (m & cats & -> & Hview & Hcats & _ & Hentry).
  unfold save_effect, save_try. cbn [mbind option_bind as_object].
  rewrite lookup_insert_ne by done. rewrite Hcats.
  cbn [or_default truthy as_object].
  destruct Hshape as [(_ & Hcat & _) | (_ & (key & Hkey & Hcat) & _)];
    rewrite Hcat.
  - cbn [truthy]. by rewrite insert_id.
  - rewrite (category_key_truthy key Hkey). cbn [to_key mbind option_bind].
    rewrite (insert_id cats) by by apply Hentry.
    rewrite (insert_id m "currentView") by assumption.
    by rewrite insert_id.
Qed.

(** A second save for the same category overwrites what the first one
    wrote: the save between a handler and its timeout leaves no trace. *)
Lemma save_absorbs (st1 st2 : state) (it : item) :
  selectedCategory st1 = selectedCategory st2 →
  save_effect st2 (save_effect st1 it) = save_effect st2 it.
Proof.
  intros Hcat. unfold save_effect at 2.
  destruct (save_try st1 it) as [doc1|] eqn:Hfirst; [|reflexivity].
  assert (Hobj : ∃ m : gmap string json,
            save_try st1 it =
              (let m' := <["currentView" := view_doc st1]> m in
               if truthy (selectedCategory st1)
               then categories ← as_object (or_default (m' !! "categories") (JObj ∅));
                    Some (JObj (<["categories" :=
                                    JObj (<[to_key (selectedCategory st1) :=
                                            session_doc st1]> categories)]> m'))
               else Some (JObj m'))
            ∧ ∀ st, save_try st it =
              (let m' := <["currentView" := view_doc st]> m in
               if truthy (selectedCategory st)
               then categories ← as_object (or_default (m' !! "categories") (JObj ∅));
                    Some (JObj (<["categories" :=
                                    JObj (<[to_key (selectedCategory st) :=
                                            session_doc st]> categories)]> m'))
               else Some (JObj m'))).
  { destruct it as [| | |doc]; try discriminate.
    - by exists (<["categories" := JObj ∅]> ∅).
    - by exists (<["categories" := JObj ∅]> ∅).
    - destruct doc; try discriminate. by eexists. }
  destruct Hobj as (m & H1 & Hany). rewrite H1 in Hfirst. cbn zeta in Hfirst.
  unfold save_effect. rewrite (Hany st2). cbn zeta.
  unfold save_try at 1. cbn [mbind option_bind].
  rewrite <- Hcat.
  rewrite !(lookup_insert_ne _ "currentView" "categories") in * by done.
  destruct (truthy (selectedCategory st1)).
  - destruct (as_object (or_default (m !! "categories") (JObj ∅)))
      as [cats|] eqn:Hcats; [|discriminate].
    cbn [mbind option_bind] in *. injection Hfirst as <-.
    cbn [as_object mbind option_bind].
    rewrite lookup_insert_ne by done. rewrite lookup_insert_eq.
    cbn [or_default truthy as_object mbind option_bind].
    rewrite insert_insert_eq. do 2 f_equal.
    apply map_eq. intros i. rewrite !lookup_insert.
    repeat case_decide; congruence.
  - injection Hfirst as <-. cbn [as_object mbind option_bind].
    by rewrite insert_insert_eq.
Qed.

Lemma selection_or_default (recorded : option json) :
  (∀ v, recorded = Some v → ∃ s : string, v = JStr s) →
  or_default recorded JNull = JNull ∨ ∃ s : string, or_default recorded JNull = JStr s.
Proof.
  intros Hstr. destruct recorded as [v|]; [|by left].
  destruct (Hstr v eq_refl) as [s ->]. simpl.
  destruct (String.eqb s ""); simpl; eauto.
Qed.

Lemma answers_shape_insert (answers : gmap string json) (index : Z) (s : string) :
  answers_shape (JObj answers) →
  answers_shape (JObj (with_answer answers index (JStr s))).
Proof.
  intros (m & [= <-] & Hvalues). eexists. split; [reflexivity|].
  intros k v. unfold with_answer. rewrite lookup_insert. case_decide.
  - intros [= <-]. eauto.
  - apply Hvalues.
Qed.

Lemma answers_shape_selection (answers : gmap string json) (key : string) :
  answers_shape (JObj answers) →
  or_default (answers !! key) JNull = JNull
  ∨ ∃ s : string, or_default (answers !! key) JNull = JStr s.
Proof.
  intros (m & [= <-] & Hvalues). apply selection_or_default.
  intros v Hv. by apply (Hvalues key).
Qed.

Lemma selectCategory_view (key : string) (it : item) (st : state) :
  screen (selectCategory key it st) = JStr QUIZ
  ∧ selectedCategory (selectCategory key it st) = JStr key
  ∧ isTransitioning (selectCategory key it st) = false.
Proof. unfold selectCategory. by destruct (truthy _). Qed.

(** The session [selectCategory] opens from a stored item. *)
Lemma selectCategory_shape (key : string) (it : item) (st : state) :
  In key category_keys → stored_shape it →
  state_shape (selectCategory key it st).
Proof.
  intros Hkey Hstored.
  destruct (selectCategory_view key it st) as (Hscr & Hcat & Hbusy).
  split; [assumption|]. right.
  split; [by left|]. split; [by exists key|]. clear Hscr Hcat Hbusy.
  assert (Hfresh : getSavedCategoryData key it = JNull →
            session_shape (currentQuestion (selectCategory key it st))
              (userAnswers (selectCategory key it st))
              (selectedOption (selectCategory key it st))).
  { intros Hnull. unfold selectCategory. rewrite Hnull. cbn.
    repeat split; eauto. exists ∅. split; [reflexivity|].
    intros k v Hv. by rewrite lookup_empty in Hv. }
  destruct Hstored as [-> | [-> | (m & cats & -> & Hcats & Hentries)]];
    [by apply Hfresh..|].
  destruct (cats !! key) as [e|] eqn:He.
  - destruct (Hentries key e He)
      as (index & answers & selection & -> & (k & ->) & Hans & Hsel).
    unfold selectCategory, getSavedCategoryData.
    cbn [read read_opt]. rewrite Hcats. cbn [read_opt read]. rewrite He.
    cbn [or_default truthy].
    cbn [currentQuestion userAnswers selectedOption setIsTransitioning
         setSelectedOption setUserAnswers setCurrentQuestion read].
    rewrite lookup_insert_eq.
    rewrite lookup_insert_ne by done. rewrite lookup_insert_eq.
    do 2 (rewrite lookup_insert_ne by done). rewrite lookup_insert_eq.
    rewrite or_default_index.
    destruct Hans as (a & -> & Hvalues). cbn [or_default truthy].
    split; [by exists k|]. split; [by exists a|].
    destruct Hsel as [->|[s ->]]; [by left|].
    simpl. destruct (String.eqb s ""); simpl; eauto.
  - apply Hfresh. unfold getSavedCategoryData. cbn [read read_opt].
    rewrite Hcats. cbn [read_opt read]. by rewrite He.
Qed.

Ltac in_quiz_shape H :=
  let Hbusy := fresh "Hbusy" in
  let Hscr := fresh "Hscr" in
  let Hcat := fresh "Hcat" in
  let Hidx := fresh "Hidx" in
  let Hans := fresh "Hans" in
  let Hsel := fresh "Hsel" in
  destruct H as [Hbusy [(Hscr & _) | (_ & Hcat & Hidx & Hans & Hsel)]];
  [exfalso; unfold HOME, QUIZ, RESULTS in *; congruence|].

Lemma nextQuestion_shape (questions : list question) (st st' : state) :
  state_shape st → screen st = JStr QUIZ →
  nextQuestion questions st = Some st' → state_shape st'.
Proof.
  intros Hshape Hquiz. unfold nextQuestion.
  destruct (strict_eq (Some (selectedOption st)) (Some JNull)) eqn:Hnull;
    [by intros [= <-]|].
  in_quiz_shape Hshape. destruct Hidx as [k Hk]. destruct Hans as (a & Ha & Hvalues).
  rewrite Ha, Hk. cbn [as_object as_number mbind option_bind].
  destruct Hsel as [Hsel|[s Hsel]]; [by rewrite Hsel in Hnull|]. rewrite Hsel.
  assert (Hnew : answers_shape (JObj (with_answer a k (JStr s))))
    by (apply answers_shape_insert; by exists a).
  intros [= <-]. split; [reflexivity|]. right.
  destruct (Z.ltb k (Z.of_nat (length questions) - 1));
    cbn [screen selectedCategory currentQuestion userAnswers selectedOption
         setIsTransitioning setSelectedOption setCurrentQuestion setUserAnswers].
  - repeat split; eauto. by apply answers_shape_selection.
  - rewrite Hk, Hsel. repeat split; eauto.
Qed.

Lemma prevQuestion_shape (st st' : state) :
  state_shape st → screen st = JStr QUIZ →
  prevQuestion st = Some st' → state_shape st'.
Proof.
  intros Hshape Hquiz. unfold prevQuestion.
  destruct (strict_eq (Some (currentQuestion st)) (Some (JNum 0)));
    [by intros [= <-]|].
  in_quiz_shape Hshape. destruct Hidx as [k Hk]. destruct Hans as (a & Ha & Hvalues).
  rewrite Ha, Hk. cbn [as_object as_number mbind option_bind].
  intros [= <-]. split; [reflexivity|]. right.
  assert (Hold : answers_shape (JObj a)) by by exists a.
  destruct Hsel as [Hsel|[s Hsel]]; rewrite Hsel;
    cbn [strict_eq negb String.eqb screen selectedCategory currentQuestion
         userAnswers selectedOption setIsTransitioning setSelectedOption
         setCurrentQuestion setUserAnswers].
  - rewrite Ha. repeat split; eauto. by apply answers_shape_selection.
  - repeat split; eauto.
    + by apply answers_shape_insert.
    + by apply answers_shape_selection.
Qed.

Lemma finishQuiz_shape (st st' : state) :
  state_shape st → screen st = JStr QUIZ →
  finishQuiz st = Some st' → state_shape st'.
Proof.
  intros Hshape Hquiz. unfold finishQuiz.
  destruct (strict_eq (Some (selectedOption st)) (Some JNull)) eqn:Hnull;
    [by intros [= <-]|].
  in_quiz_shape Hshape. destruct Hidx as [k Hk]. destruct Hans as (a & Ha & Hvalues).
  rewrite Ha, Hk. cbn [as_object as_number mbind option_bind].
  destruct Hsel as [Hsel|[s Hsel]]; [by rewrite Hsel in Hnull|]. rewrite Hsel.
  intros [= <-]. split; [reflexivity|]. right.
  cbn [screen selectedCategory currentQuestion userAnswers selectedOption
       setIsTransitioning setSelectedOption setCurrentQuestion setUserAnswers
       setScreen].
  rewrite Hk. repeat split; eauto.
  apply answers_shape_insert. by exists a.
Qed.

Section Worlds.

Variables part1Questions part2Questions : list question.

Lemma handle_shape (i : intent) (it : item) (st st' : state) :
  state_shape st → stored_shape it → offered st i →
  handle part1Questions part2Questions i it st = Some st' → state_shape st'.
Proof.
  intros Hshape Hstored Hoffered.
  destruct i; cbn [handle offered] in *.
  - intros [= <-]. destruct Hoffered. by apply selectCategory_shape.
  - intros [= <-]. in_quiz_shape Hshape.
    split; [assumption|]. right.
    cbn [selectOption screen selectedCategory currentQuestion userAnswers
         selectedOption setSelectedOption].
    repeat split; eauto.
  - destruct (questions part1Questions part2Questions st) as [qs|];
      [|discriminate].
    cbn [mbind option_bind]. by apply nextQuestion_shape.
  - by apply prevQuestion_shape.
  - by apply finishQuiz_shape.
  - intros [= <-].
    destruct Hshape as [Hbusy [(Hscr & _) | (_ & Hcat & _)]];
      [exfalso; unfold HOME, QUIZ, RESULTS in *; congruence|].
    split; [reflexivity|]. right. cbn. repeat split; eauto.
    exists ∅. split; [reflexivity|]. intros k v Hv. by rewrite lookup_empty in Hv.
  - intros [= <-]. split; [reflexivity|]. left. by cbn.
Qed.

Lemma initial_shape : state_shape initial_state.
Proof. split; [reflexivity|]. left. by cbn. Qed.

Lemma mount_stored (st : state) (it : item) :
  state_shape st → stored_shape it →
  mirrors st (save_effect st (save_effect initial_state it)).
Proof.
  intros Hshape Hstored. apply save_stored; [assumption|].
  eapply mirrors_stored, save_stored; [apply initial_shape|assumption].
Qed.

(** Every reachable world has cells of the data model and an item that
    mirrors them. *)
Lemma reachable_mirrors (w : state * item) :
  reachable part1Questions part2Questions w →
  state_shape (fst w) ∧ mirrors (fst w) (snd w).
Proof.
  induction 1 as [it Hfresh | w w' i _ [Hshape Hmirrors] Hoffered Hstep
                 | w _ [Hshape Hmirrors]].
  - assert (Hload : load it = initial_state) by by destruct Hfresh as [-> | ->].
    unfold mount. rewrite Hload. cbn [fst snd]. split; [apply initial_shape|].
    apply mount_stored; [apply initial_shape|].
    destruct Hfresh as [-> | ->]; [by left|by right; left].
  - unfold step in Hstep.
    destruct (handle part1Questions part2Questions i (snd w) (fst w))
      as [st'|] eqn:Hhandle; [|discriminate].
    cbn [mbind option_bind] in Hstep. injection Hstep as <-. cbn [fst snd].
    assert (Hshape' : state_shape st').
    { eapply handle_shape; eauto. by eapply mirrors_stored. }
    split; [assumption|]. apply save_stored; [assumption|].
    by eapply mirrors_stored.
  - unfold mount. rewrite (load_mirrors _ _ Hshape Hmirrors). cbn [fst snd].
    split; [by apply rehydrated_shape|].
    apply mount_stored; [by apply rehydrated_shape|by eapply mirrors_stored].
Qed.

Lemma on_screen_sound (st : state) (name : string) :
  on_screen st name = true → screen st = JStr name.
Proof.
  unfold on_screen. destruct (screen st); simpl; try discriminate.
  intros H. apply String.eqb_eq in H. by subst.
Qed.

Lemma offeredb_sound (st : state) (i : intent) :
  offeredb st i = true → offered st i.
Proof.
  destruct i; cbn [offeredb offered]; intros H;
    try (by apply on_screen_sound).
  - apply andb_prop in H as [Hscr Hkey]. split; [by apply on_screen_sound|].
    apply existsb_exists in Hkey as (k & Hin & Heq).
    apply String.eqb_eq in Heq. by subst.
  - apply orb_prop in H as [H|H]; [left|right]; by apply on_screen_sound.
Qed.

Lemma play_reachable (intents : list intent) (w w' : state * item) :
  reachable part1Questions part2Questions w →
  play part1Questions part2Questions w intents = Some w' →
  reachable part1Questions part2Questions w'.
Proof.
  revert w. induction intents as [|i rest IH]; intros w Hreach; cbn [play].
  - by intros [= <-].
  - destruct (offeredb (fst w) i) eqn:Hoffered; [|discriminate].
    destruct (step part1Questions part2Questions w i) as [w1|] eqn:Hstep;
      [|discriminate].
    cbn [mbind option_bind]. apply IH.
    eapply reachable_step; eauto. by apply offeredb_sound.
Qed.

Lemma play_run (intents : list intent) (w w' : state * item) :
  play part1Questions part2Questions w intents = Some w' →
  run part1Questions part2Questions w intents = Some w'.
Proof.
  revert w. induction intents as [|i rest IH]; intros w; cbn [play run];
    [done|].
  destruct (offeredb (fst w) i); [|discriminate].
  destruct (step part1Questions part2Questions w i) as [w1|]; [|discriminate].
  cbn [mbind option_bind]. apply IH.
Qed.

End Worlds.

End Persistence.

(** ** Saving and loading again *)

Section PersistenceClaims.

Import Engine Shape Scenario.

Lemma single_round_trip (st : Single.state) :
  single_shape st → Single.selectedOption st ≠ JStr "" →
  Single.load (Single.save_effect st) = st.
Proof.
  intros (Hbusy & Hscr & (k & Hk) & (a & Ha & _) & Hsel) Hne.
  destruct st as [scr idx ans sel busy].
  cbn [Single.screen Single.currentQuestion Single.userAnswers
       Single.selectedOption Single.isTransitioning] in *.
  subst idx ans busy.
  unfold Single.load, Single.load_effect, Single.save_effect, Single.load_try.
  cbn [read Single.screen Single.currentQuestion Single.userAnswers
       Single.selectedOption Single.isTransitioning Single.initial_state].
  rewrite lookup_insert_eq.
  rewrite lookup_insert_ne by done. rewrite lookup_insert_eq.
  do 2 (rewrite lookup_insert_ne by done). rewrite lookup_insert_eq.
  do 3 (rewrite lookup_insert_ne by done). rewrite lookup_insert_eq.
  rewrite or_default_index, (selection_survives sel Hsel Hne).
  cbn [or_default truthy].
  by destruct Hscr as [-> | [-> | ->]].
Qed.

(** C3, as claimed, fails: selecting the blank option of the first
    question is reachable, and loading what the save effect wrote for
    these cells gives cells with no selection. *)
Lemma blank_selection_is_not_restored :
  play blank_quiz [] (mount NoItem) [SelectCategory "PART1"; SelectOption ""]
    = Some (blank_selected, save_effect blank_selected NoItem)
  ∧ load (save_effect blank_selected (save_effect blank_selected NoItem))
    = in_quiz "PART1" 0 ∅ JNull
  ∧ selectedOption blank_selected = JStr "".
Proof. repeat split; vm_compute; reflexivity. Qed.

(** C3, amended: for every world the engine reaches from an empty store
    by the intents each screen offers and by reloads, whose selected
    option is not the empty string, the load effect applied to the stored
    item, and to what the save effect writes for the cells, gives the
    cells back; in the single-category component the same holds for cells
    of the data model. *)
Theorem saved_state_is_restored
    (part1Questions part2Questions : list question) (w : state * item) :
  reachable part1Questions part2Questions w →
  selectedOption (fst w) ≠ JStr "" →
  load (snd w) = fst w
  ∧ load (save_effect (fst w) (snd w)) = fst w
  ∧ ∀ st : Single.state,
      single_shape st → Single.selectedOption st ≠ JStr "" →
      Single.load (Single.save_effect st) = st.
Proof.
  intros Hreach Hne.
  destruct (reachable_mirrors _ _ _ Hreach) as [Hshape Hmirrors].
  assert (Hload : load (snd w) = fst w).
  { rewrite (load_mirrors _ _ Hshape Hmirrors). by apply rehydrated_same. }
  split; [assumption|]. split.
  - by rewrite save_mirrored.
  - apply single_round_trip.
Qed.

Lemma saved_state_is_restored_two_of_five :
  (w ← play (replicate 5 (asked "Q" "A")) [] (mount NoItem)
         [SelectCategory "PART1"; SelectOption "A"; NextQuestion;
          SelectOption "B"; NextQuestion; SelectOption "C"];
   Some (load (snd w))) = Some two_of_five.
Proof.
  assert (Hcells : fst <$> play (replicate 5 (asked "Q" "A")) [] (mount NoItem)
            [SelectCategory "PART1"; SelectOption "A"; NextQuestion;
             SelectOption "B"; NextQuestion; SelectOption "C"]
          = Some two_of_five) by (vm_compute; reflexivity).
  destruct (play _ _ _ _) as [w|] eqn:Hplay; [|discriminate].
  injection Hcells as Hcells. cbn [mbind option_bind]. f_equal.
  rewrite <- Hcells.
  apply (saved_state_is_restored (replicate 5 (asked "Q" "A")) [] w).
  - eapply play_reachable; [|exact Hplay]. apply reachable_mount. by left.
  - rewrite Hcells. discriminate.
Defined.

(** ** Switching categories *)

Lemma nextQuestion_category (questions : list question) (st st' : state) :
  nextQuestion questions st = Some st' → selectedCategory st' = selectedCategory st.
Proof.
  unfold nextQuestion.
  destruct (strict_eq _ _); [by intros [= <-]|].
  destruct (as_object _); [|discriminate]. destruct (as_number _); [|discriminate].
  cbn [mbind option_bind]. destruct (Z.ltb _ _); by intros [= <-].
Qed.

Lemma prevQuestion_category (st st' : state) :
  prevQuestion st = Some st' → selectedCategory st' = selectedCategory st.
Proof.
  unfold prevQuestion.
  destruct (strict_eq _ _); [by intros [= <-]|].
  destruct (as_object _); [|discriminate]. destruct (as_number _); [|discriminate].
  cbn [mbind option_bind]. destruct (negb _); by intros [= <-].
Qed.

Lemma finishQuiz_category (st st' : state) :
  finishQuiz st = Some st' → selectedCategory st' = selectedCategory st.
Proof.
  unfold finishQuiz.
  destruct (strict_eq _ _); [by intros [= <-]|].
  destruct (as_object _); [|discriminate]. destruct (as_number _); [|discriminate].
  cbn [mbind option_bind]. by intros [= <-].
Qed.

(** The save effect leaves the entries of the other categories alone. *)
Lemma save_keeps_entry (key : string) (e : json) (st : state) (it : item) :
  holds_entry key e it → away_from key st →
  holds_entry key e (save_effect st it).
Proof.
  intros (m & cats & -> & Hcats & He) Haway.
  unfold save_effect, save_try. cbn [mbind option_bind as_object].
  rewrite lookup_insert_ne by done. rewrite Hcats.
  cbn [or_default truthy as_object mbind option_bind].
  destruct (truthy (selectedCategory st)) eqn:Htruthy.
  - destruct Haway as [Hnull | (other & Hother & Hcat)]; rewrite ?Hnull, ?Hcat in *;
      [discriminate|].
    eexists _, _. split; [reflexivity|]. split; [apply lookup_insert_eq|].
    cbn [to_key]. by rewrite lookup_insert_ne.
  - eexists _, _. split; [reflexivity|]. split; [|exact He].
    by rewrite lookup_insert_ne.
Qed.

(** The save effect writes the session of the selected category. *)
Lemma save_holds_own (key : string) (st : state) (it : item) :
  key ≠ "" → selectedCategory st = JStr key → writable it →
  holds_entry key (session_doc st) (save_effect st it).
Proof.
  intros Hkey Hcat Hwritable.
  assert (Htruthy : truthy (selectedCategory st) = true).
  { rewrite Hcat. simpl. by destruct (String.eqb_spec key ""). }
  assert (Hgoal : ∀ (m cats : gmap string json),
            or_default (m !! "categories") (JObj ∅) = JObj cats →
            holds_entry key (session_doc st)
              (match
                 (let m' := <["currentView" := view_doc st]> m in
                  if truthy (selectedCategory st)
                  then categories ← as_object (or_default (m' !! "categories") (JObj ∅));
                       Some (JObj (<["categories" :=
                                       JObj (<[to_key (selectedCategory st) :=
                                               session_doc st]> categories)]> m'))
                  else Some (JObj m'))
               with Some doc => Text doc | None => it end)).
  { intros m cats Hm. cbn zeta. rewrite Htruthy.
    rewrite lookup_insert_ne by done. rewrite Hm.
    cbn [as_object mbind option_bind]. rewrite Hcat. cbn [to_key].
    eexists _, _. split; [reflexivity|].
    split; apply lookup_insert_eq. }
  destruct it as [| | |doc]; cbn [writable] in Hwritable; try contradiction.
  - apply (Hgoal (<["categories" := JObj ∅]> ∅) ∅). by rewrite lookup_insert_eq.
  - apply (Hgoal (<["categories" := JObj ∅]> ∅) ∅). by rewrite lookup_insert_eq.
  - destruct doc as [| | | |m]; try contradiction.
    destruct (m !! "categories") as [v|] eqn:Hv.
    + destruct v as [| | | |cats].
      * apply (Hgoal m ∅). by rewrite Hv.
      * apply (Hgoal m ∅). rewrite Hv. simpl in *. by rewrite Hwritable.
      * apply (Hgoal m ∅). rewrite Hv. simpl in *. by rewrite Hwritable.
      * apply (Hgoal m ∅). rewrite Hv. simpl in *. by rewrite Hwritable.
      * apply (Hgoal m cats). by rewrite Hv.
    + apply (Hgoal m ∅). by rewrite Hv.
Qed.

(** [selectCategory] hands back a held session. *)
Lemma selectCategory_restores (key : string) (saved st : state) (it : item) :
  holds_entry key (session_doc saved) it →
  session_shape (currentQuestion saved) (userAnswers saved) (selectedOption saved) →
  selectedOption saved ≠ JStr "" →
  currentQuestion (selectCategory key it st) = currentQuestion saved
  ∧ userAnswers (selectCategory key it st) = userAnswers saved
  ∧ selectedOption (selectCategory key it st) = selectedOption saved.
Proof.
  intros (m & cats & -> & Hcats & He) ((k & Hk) & (a & Ha & _) & Hsel) Hne.
  unfold selectCategory, getSavedCategoryData.
  cbn [read read_opt]. rewrite Hcats. cbn [read_opt read]. rewrite He.
  cbn [or_default truthy session_doc]. fold (session_doc saved).
  rewrite read_session_index, read_session_answers, read_session_selection.
  rewrite Hk, Ha, or_default_index, (selection_survives _ Hsel Hne).
  by cbn.
Qed.

(** [selectCategory] hands back the index and the answers of a held
    session, and its selection through [|| null]. *)
Lemma selectCategory_rehydrates (key : string) (saved st : state) (it : item) :
  holds_entry key (session_doc saved) it →
  session_shape (currentQuestion saved) (userAnswers saved) (selectedOption saved) →
  currentQuestion (selectCategory key it st) = currentQuestion saved
  ∧ userAnswers (selectCategory key it st) = userAnswers saved
  ∧ selectedOption (selectCategory key it st)
    = or_default (Some (selectedOption saved)) JNull.
Proof.
  intros (m & cats & -> & Hcats & He) ((k & Hk) & (a & Ha & _) & Hsel).
  unfold selectCategory, getSavedCategoryData.
  cbn [read read_opt]. rewrite Hcats. cbn [read_opt read]. rewrite He.
  cbn [or_default truthy session_doc]. fold (session_doc saved).
  rewrite read_session_index, read_session_answers, read_session_selection.
  rewrite Hk, Ha, or_default_index.
  by cbn.
Qed.

Section Switching.

Variables part1Questions part2Questions : list question.

Lemma handle_away (key : string) (i : intent) (it : item) (st st' : state) :
  away_from key st → i ≠ SelectCategory key →
  handle part1Questions part2Questions i it st = Some st' →
  away_from key st'.
Proof.
  intros Haway Hi. destruct i; cbn [handle].
  - intros [= <-]. right. exists categoryKey. split; [congruence|].
    apply selectCategory_view.
  - by intros [= <-].
  - destruct (questions _ _ _); [|discriminate]. cbn [mbind option_bind].
    intros H. apply nextQuestion_category in H. unfold away_from. by rewrite H.
  - intros H. apply prevQuestion_category in H. unfold away_from. by rewrite H.
  - intros H. apply finishQuiz_category in H. unfold away_from. by rewrite H.
  - by intros [= <-].
  - intros [= <-]. by left.
Qed.

Lemma run_away (key : string) (e : json) (intents : list intent)
    (w w' : state * item) :
  away_from key (fst w) → holds_entry key e (snd w) →
  Forall (λ i, i ≠ SelectCategory key) intents →
  run part1Questions part2Questions w intents = Some w' →
  away_from key (fst w') ∧ holds_entry key e (snd w').
Proof.
  revert w. induction intents as [|i rest IH]; intros w Haway Hholds Hall;
    cbn [run].
  - by intros [= <-].
  - inversion Hall as [|? ? Hi Hrest]; subst. unfold step.
    destruct (handle _ _ i (snd w) (fst w)) as [st1|] eqn:Hhandle; [|discriminate].
    cbn [mbind option_bind]. apply IH; cbn [fst snd]; [| |assumption].
    + by eapply handle_away.
    + apply save_keeps_entry; [assumption|]. by eapply handle_away.
Qed.

Lemma run_app (first rest : list intent) (w : state * item) :
  run part1Questions part2Questions w (first ++ rest)%list =
  w' ← run part1Questions part2Questions w first;
  run part1Questions part2Questions w' rest.
Proof.
  revert w. induction first as [|i first IH]; intros w; cbn [run app]; [done|].
  destruct (step _ _ w i); cbn [mbind option_bind]; [apply IH|done].
Qed.

End Switching.

(** C9, as claimed, fails: with the blank option selected in category
    PART1, going home, opening PART2, going home and opening PART1 again
    brings the index and the answers back but not the selection. *)
Lemma blank_selection_is_lost_across_categories :
  fst <$> play blank_quiz blank_quiz (mount NoItem)
            [SelectCategory "PART1"; SelectOption ""] = Some blank_selected
  ∧ fst <$> play blank_quiz blank_quiz (mount NoItem)
              [SelectCategory "PART1"; SelectOption "";
               GoToHome; SelectCategory "PART2";
               GoToHome; SelectCategory "PART1"]
    = Some (in_quiz "PART1" 0 ∅ JNull)
  ∧ selectedOption blank_selected = JStr "".
Proof. repeat split; vm_compute; reflexivity. Qed.

(** C9, amended: let the cells be in category A with a session of the
    data model, and let the save effect have written them to a writable
    item.  After going home and any run of intents that does not select A
    again, the item still holds A's session as it was saved: no intent on
    another category and no navigation removes or changes it.  Selecting A
    then gives back A's index and answers in every case, and A's
    selection unless it was the empty string, which comes back as
    [null]. *)
Theorem category_progress_is_restored
    (part1Questions part2Questions : list question)
    (A : string) (stA : state) (it0 : item)
    (intents : list intent) (w' : state * item) :
  In A category_keys →
  selectedCategory stA = JStr A →
  session_shape (currentQuestion stA) (userAnswers stA) (selectedOption stA) →
  writable it0 →
  Forall (λ i, i ≠ SelectCategory A) intents →
  run part1Questions part2Questions (stA, save_effect stA it0)
      (GoToHome :: intents ++ [SelectCategory A]) = Some w' →
  (∃ w1 : state * item,
      run part1Questions part2Questions (stA, save_effect stA it0)
          (GoToHome :: intents) = Some w1
      ∧ holds_entry A (session_doc stA) (snd w1)
      ∧ step part1Questions part2Questions w1 (SelectCategory A) = Some w')
  ∧ screen (fst w') = JStr QUIZ
  ∧ selectedCategory (fst w') = JStr A
  ∧ currentQuestion (fst w') = currentQuestion stA
  ∧ userAnswers (fst w') = userAnswers stA
  ∧ selectedOption (fst w') = or_default (Some (selectedOption stA)) JNull
  ∧ (selectedOption stA ≠ JStr "" →
       selectedOption (fst w') = selectedOption stA
       ∧ holds_entry A (session_doc stA) (snd w'))
  ∧ (selectedOption stA = JStr "" → selectedOption (fst w') = JNull)
  ∧ holds_entry A (session_doc (fst w')) (snd w').
Proof.
  intros HA Hcat Hsess Hwritable Hall.
  assert (HA' : A ≠ "") by (by destruct HA as [<-|[<-|[]]]).
  pose proof (save_holds_own A stA it0 HA' Hcat Hwritable) as Hheld.
  change (GoToHome :: intents ++ [SelectCategory A])%list
    with ((GoToHome :: intents) ++ [SelectCategory A])%list.
  rewrite run_app.
  destruct (run _ _ _ (GoToHome :: intents)) as [[st1 it1]|] eqn:Hrun;
    [|discriminate].
  cbn [mbind option_bind run]. 
  destruct (step _ _ (st1, it1) (SelectCategory A)) as [w2|] eqn:Hstep;
    [|discriminate].
  cbn [mbind option_bind]. intros [= <-].
  pose proof Hstep as Hstep'. unfold step in Hstep'.
  cbn [handle mbind option_bind fst snd] in Hstep'. injection Hstep' as <-.
  cbn [fst snd].
  cbn [run] in Hrun. unfold step in Hrun.
  cbn [handle mbind option_bind fst snd] in Hrun.
  pose proof Hrun as Hrun'.
  apply (run_away _ _ A (session_doc stA)) in Hrun' as [Haway Hheld1];
    cbn [fst snd] in *; [| by left | | assumption].
  2: { apply save_keeps_entry; [assumption|by left]. }
  destruct (selectCategory_rehydrates A stA st1 it1 Hheld1 Hsess)
    as (Hidx & Hans & Hsel).
  destruct (selectCategory_view A it1 st1) as (Hscr & Hcat1 & _).
  assert (Hown : holds_entry A (session_doc (selectCategory A it1 st1))
                   (save_effect (selectCategory A it1 st1) it1)).
  { destruct Hheld1 as (m & cats & -> & Hcats & He).
    unfold save_effect, save_try. cbn [mbind option_bind as_object].
    rewrite lookup_insert_ne by done. rewrite Hcats.
    cbn [or_default truthy as_object mbind option_bind].
    rewrite Hcat1. rewrite (category_key_truthy A HA). cbn [to_key].
    eexists _, _. split; [reflexivity|]. split; apply lookup_insert_eq. }
  destruct Hsess as (_ & _ & Hshape).
  split; [exists (st1, it1); by repeat split|].
  split; [assumption|]. split; [assumption|]. split; [assumption|].
  split; [assumption|]. split; [assumption|]. split; [|split; [|assumption]].
  - intros Hne.
    assert (Hsame : selectedOption (selectCategory A it1 st1) = selectedOption stA)
      by (rewrite Hsel; by apply selection_survives).
    split; [assumption|].
    replace (session_doc stA) with (session_doc (selectCategory A it1 st1));
      [assumption|].
    unfold session_doc. by rewrite Hidx, Hans, Hsame.
  - intros Hblank. by rewrite Hsel, Hblank.
Qed.

Lemma category_progress_is_restored_two_of_five :
  (w ← run (replicate 5 (asked "Q" "A")) (replicate 5 (asked "Q" "B"))
         (two_of_five, save_effect two_of_five NoItem)
         (GoToHome ::
          [SelectCategory "PART2"; SelectOption "B"; NextQuestion; GoToHome]
          ++ [SelectCategory "PART1"]);
   Some (currentQuestion (fst w), userAnswers (fst w), selectedOption (fst w)))
  = Some (JNum 2, JObj (<["0" := JStr "A"]> (<["1" := JStr "B"]> ∅)), JStr "C").
Proof.
  destruct (run _ _ _ _) as [w|] eqn:Hrun;
    [|vm_compute in Hrun; discriminate].
  cbn [mbind option_bind].
  assert (Hsess : session_shape (currentQuestion two_of_five)
                    (userAnswers two_of_five) (selectedOption two_of_five)).
  { split; [by exists 2%Z|]. split; [|right; by exists "C"].
    eexists. split; [reflexivity|]. intros k v.
    rewrite !lookup_insert. repeat case_decide; rewrite ?lookup_empty;
      intros [= <-]; eauto. }
  destruct (category_progress_is_restored
              (replicate 5 (asked "Q" "A")) (replicate 5 (asked "Q" "B"))
              "PART1" two_of_five NoItem
              [SelectCategory "PART2"; SelectOption "B"; NextQuestion; GoToHome]
              w (or_introl eq_refl) eq_refl Hsess I
              ltac:(repeat constructor; discriminate) Hrun)
    as (_ & _ & _ & Hidx & Hans & Hsel & _).
  by rewrite Hidx, Hans, Hsel.
Defined.

End PersistenceClaims.

(** ** Rehydration of missing and of falsy fields *)

Section Rehydration.

Import Engine Shape Scenario.

(** The load effect on a parsed document, cell by cell. *)
Lemma load_view (parsed : json) :
  parsed ≠ JNull →
  screen (load (Text parsed)) = or_default (stored_view parsed "screen") (JStr HOME)
  ∧ selectedCategory (load (Text parsed)) =
      or_default (stored_view parsed "selectedCategory") JNull
  ∧ isTransitioning (load (Text parsed)) = false.
Proof.
  intros Hparsed. unfold load, load_effect, load_try, stored_view.
  destruct parsed; try contradiction; cbn zeta;
    destruct (truthy (or_default _ JNull)); try by cbn.
  all: destruct (read_opt _ (to_key _)) as [e|]; try by cbn.
  all: by destruct (truthy e).
Qed.

Lemma load_entry (parsed category entry : json) :
  parsed ≠ JNull →
  stored_view parsed "selectedCategory" = Some category →
  truthy category = true →
  stored_entry parsed category = Some entry →
  truthy entry = true →
  currentQuestion (load (Text parsed)) =
    or_default (read entry "currentQuestion") (JNum 0)
  ∧ userAnswers (load (Text parsed)) =
      or_default (read entry "userAnswers") (JObj ∅)
  ∧ selectedOption (load (Text parsed)) =
      or_default (read entry "selectedOption") JNull.
Proof.
  intros Hparsed Hcat Htruthy Hentry He.
  unfold load, load_effect, load_try.
  unfold stored_view in Hcat. unfold stored_entry in Hentry.
  destruct parsed; try contradiction; cbn zeta;
    rewrite Hcat, (or_default_truthy category JNull Htruthy), Htruthy, Hentry, He;
    by cbn.
Qed.

Lemma load_no_entry (parsed : json) :
  parsed ≠ JNull →
  (stored_view parsed "selectedCategory" = None
   ∨ (∃ category, stored_view parsed "selectedCategory" = Some category
                  ∧ (truthy category = false
                     ∨ stored_entry parsed category = None))) →
  default_session (load (Text parsed)).
Proof.
  intros Hparsed Hcase.
  unfold load, load_effect, load_try.
  unfold stored_view, stored_entry in Hcase.
  destruct parsed; try contradiction; cbn zeta.
  all: destruct Hcase as [Hnone | (category & Hcat & [Hfalsy | Hentry])].
  all: rewrite ?Hnone, ?Hcat.
  all: rewrite ?(or_default_falsy category JNull) by assumption.
  all: try by cbn.
  all: destruct (truthy category) eqn:Htruthy;
         [rewrite (or_default_truthy category JNull Htruthy), Htruthy, Hentry
         |rewrite (or_default_falsy category JNull Htruthy)]; by cbn.
Qed.

Lemma load_caught (parsed : json) :
  load_try parsed initial_state = None → load (Text parsed) = initial_state.
Proof. intros H. unfold load, load_effect. by rewrite H. Qed.

Lemma single_load_cells (parsed : json) :
  parsed ≠ JNull →
  Single.screen (Single.load (Text parsed)) =
    or_default (read parsed "screen") (JStr HOME)
  ∧ Single.currentQuestion (Single.load (Text parsed)) =
      or_default (read parsed "currentQuestion") (JNum 0)
  ∧ Single.userAnswers (Single.load (Text parsed)) =
      or_default (read parsed "userAnswers") (JObj ∅)
  ∧ Single.selectedOption (Single.load (Text parsed)) =
      or_default (read parsed "selectedOption") JNull.
Proof. intros Hparsed. by destruct parsed. Qed.

(** C8: the load effect never throws past its [catch]: with nothing
    stored, with the empty text, with a text that does not parse and with
    a parsed document on which the [try] block throws, the cells are the
    defaults (home screen, no category, empty session) and no category has
    a saved session.  On any other
    parsed document every cell whose stored field is missing takes its
    default, whatever the other fields hold, and a stored field that is
    there and truthy is restored.  The same holds in the single-category
    component. *)
Theorem load_falls_back_to_defaults (parsed : json) :
  (load NoItem = initial_state ∧ load EmptyText = initial_state
   ∧ load Malformed = initial_state ∧ load (Text JNull) = initial_state
   ∧ (load_try parsed initial_state = None → load (Text parsed) = initial_state)
   ∧ (∀ key : string,
        getSavedCategoryData key NoItem = JNull
        ∧ getSavedCategoryData key EmptyText = JNull
        ∧ getSavedCategoryData key Malformed = JNull
        ∧ getSavedCategoryData key (Text JNull) = JNull))
  ∧ (parsed ≠ JNull →
     (stored_view parsed "screen" = None →
        screen (load (Text parsed)) = JStr HOME)
     ∧ (∀ v, stored_view parsed "screen" = Some v → truthy v = true →
          screen (load (Text parsed)) = v)
     ∧ (stored_view parsed "selectedCategory" = None →
          selectedCategory (load (Text parsed)) = JNull
          ∧ default_session (load (Text parsed)))
     ∧ (∀ category,
          stored_view parsed "selectedCategory" = Some category →
          truthy category = true →
          selectedCategory (load (Text parsed)) = category
          ∧ (stored_entry parsed category = None →
               default_session (load (Text parsed)))
          ∧ (∀ entry,
               stored_entry parsed category = Some entry → truthy entry = true →
               (read entry "currentQuestion" = None →
                  currentQuestion (load (Text parsed)) = JNum 0)
               ∧ (read entry "userAnswers" = None →
                    userAnswers (load (Text parsed)) = JObj ∅)
               ∧ (read entry "selectedOption" = None →
                    selectedOption (load (Text parsed)) = JNull)
               ∧ (∀ v, read entry "currentQuestion" = Some v → truthy v = true →
                    currentQuestion (load (Text parsed)) = v)
               ∧ (∀ v, read entry "userAnswers" = Some v → truthy v = true →
                    userAnswers (load (Text parsed)) = v)
               ∧ (∀ v, read entry "selectedOption" = Some v → truthy v = true →
                    selectedOption (load (Text parsed)) = v))))
  ∧ (Single.load NoItem = Single.initial_state
     ∧ Single.load EmptyText = Single.initial_state
     ∧ Single.load Malformed = Single.initial_state
     ∧ Single.load (Text JNull) = Single.initial_state)
  ∧ (parsed ≠ JNull →
     (read parsed "screen" = None →
        Single.screen (Single.load (Text parsed)) = JStr HOME)
     ∧ (read parsed "currentQuestion" = None →
          Single.currentQuestion (Single.load (Text parsed)) = JNum 0)
     ∧ (read parsed "userAnswers" = None →
          Single.userAnswers (Single.load (Text parsed)) = JObj ∅)
     ∧ (read parsed "selectedOption" = None →
          Single.selectedOption (Single.load (Text parsed)) = JNull)).
Proof.
  split; [repeat split; try reflexivity; apply load_caught|].
  split; [|split; [repeat split; reflexivity|]].
  - intros Hparsed.
    destruct (load_view parsed Hparsed) as (Hscr & Hcat & _).
    split; [intros Hnone; by rewrite Hscr, Hnone|].
    split; [intros v Hv Htruthy; rewrite Hscr, Hv; by apply or_default_truthy|].
    split.
    { intros Hnone. split; [by rewrite Hcat, Hnone|].
      apply load_no_entry; [assumption|by left]. }
    intros category Hcategory Htruthy.
    split; [rewrite Hcat, Hcategory; by apply or_default_truthy|].
    split.
    { intros Hnone. apply load_no_entry; [assumption|]. right. eauto. }
    intros entry Hentry He.
    destruct (load_entry parsed category entry) as (Hidx & Hans & Hsel);
      try assumption.
    split; [intros Hnone; by rewrite Hidx, Hnone|].
    split; [intros Hnone; by rewrite Hans, Hnone|].
    split; [intros Hnone; by rewrite Hsel, Hnone|].
    split; [intros v Hv Hv'; rewrite Hidx, Hv; by apply or_default_truthy|].
    split; [intros v Hv Hv'; rewrite Hans, Hv; by apply or_default_truthy|].
    intros v Hv Hv'. rewrite Hsel, Hv. by apply or_default_truthy.
  - intros Hparsed.
    destruct (single_load_cells parsed Hparsed) as (Hscr & Hidx & Hans & Hsel).
    split; [intros Hnone; by rewrite Hscr, Hnone|].
    split; [intros Hnone; by rewrite Hidx, Hnone|].
    split; [intros Hnone; by rewrite Hans, Hnone|].
    intros Hnone. by rewrite Hsel, Hnone.
Qed.

Lemma load_falls_back_to_defaults_partial :
  load (Text partial_doc) = setSelectedCategory (JStr "PART1") initial_state.
Proof.
  destruct (load_falls_back_to_defaults partial_doc) as (_ & Hdoc & _).
  destruct (Hdoc ltac:(discriminate)) as (Hscr & _ & _ & Hcat).
  destruct (Hcat (JStr "PART1") eq_refl eq_refl) as (Hsel & _ & Hentry).
  destruct (Hentry (JObj ∅) eq_refl eq_refl) as (Hidx & Hans & Hopt & _).
  pose proof (Hscr eq_refl) as Hscr'.
  pose proof (Hidx eq_refl) as Hidx'.
  pose proof (Hans eq_refl) as Hans'.
  pose proof (Hopt eq_refl) as Hopt'.
  destruct (load_view partial_doc ltac:(discriminate)) as (_ & _ & Hbusy).
  destruct (load (Text partial_doc)) as [scr cat idx ans sel busy].
  cbn [screen selectedCategory currentQuestion userAnswers selectedOption
       isTransitioning] in *.
  by subst.
Defined.

(** After the load effect the selection is absent or truthy, and the
    index is 0 or truthy. *)
Lemma load_never_falsy (it : item) :
  (selectedOption (load it) = JNull ∨ truthy (selectedOption (load it)) = true)
  ∧ (currentQuestion (load it) = JNum 0
     ∨ truthy (currentQuestion (load it)) = true).
Proof.
  destruct it as [| | |parsed]; try (split; by left).
  assert (Hcase : parsed = JNull ∨ parsed ≠ JNull)
    by (destruct parsed; [by left|by right..]).
  destruct Hcase as [->|Hparsed]; [split; by left|].
  destruct (stored_view parsed "selectedCategory") as [category|] eqn:Hcat.
  - destruct (truthy category) eqn:Htruthy.
    + destruct (stored_entry parsed category) as [entry|] eqn:Hentry.
      * destruct (truthy entry) eqn:He.
        -- destruct (load_entry parsed category entry) as (-> & _ & ->);
             try assumption.
           split; [apply or_default_null_or_truthy|apply or_default_zero_or_truthy].
        -- assert (Hload : load (Text parsed) =
                     setSelectedCategory category
                       (setScreen (or_default (stored_view parsed "screen")
                                              (JStr HOME)) initial_state)).
           { unfold load, load_effect, load_try.
             unfold stored_view in *. unfold stored_entry in Hentry.
             destruct parsed; try contradiction; cbn zeta;
               by rewrite Hcat, (or_default_truthy category JNull Htruthy),
                    Htruthy, Hentry, He. }
           rewrite Hload. split; by left.
      * destruct (load_no_entry parsed Hparsed) as (-> & _ & ->);
          [right; eauto|split; by left].
    + destruct (load_no_entry parsed Hparsed) as (-> & _ & ->);
        [right; eauto|split; by left].
  - destruct (load_no_entry parsed Hparsed) as (-> & _ & ->);
      [by left|split; by left].
Qed.

Lemma getSavedCategoryData_entry (parsed category entry : json) :
  parsed ≠ JNull →
  stored_entry parsed category = Some entry → truthy entry = true →
  getSavedCategoryData (to_key category) (Text parsed) = entry.
Proof.
  intros Hparsed Hentry He. unfold getSavedCategoryData.
  unfold stored_entry in Hentry.
  destruct parsed; try contradiction; rewrite Hentry; by apply or_default_truthy.
Qed.

(** C10: rehydration hands every falsy stored field its default.  For a
    parsed document whose entry for the selected category stores the empty
    string as selected option, the load effect leaves the selection
    absent; a falsy stored index comes back as 0, falsy stored answers as
    the empty record, a falsy stored screen as the home screen, and
    [selectCategory] coerces the same way.  So cells whose selected option
    is the empty string are not what the load effect gives after any save,
    and in a reachable world it gives the cells with the selection
    absent.  The single-category component coerces likewise. *)
Theorem rehydration_coerces_falsy (parsed category entry : json) :
  parsed ≠ JNull →
  stored_view parsed "selectedCategory" = Some category →
  truthy category = true →
  stored_entry parsed category = Some entry →
  truthy entry = true →
  (read entry "selectedOption" = Some (JStr "") →
     selectedOption (load (Text parsed)) = JNull)
  ∧ (∀ v, read entry "selectedOption" = Some v → truthy v = false →
       selectedOption (load (Text parsed)) = JNull)
  ∧ (∀ v, read entry "currentQuestion" = Some v → truthy v = false →
       currentQuestion (load (Text parsed)) = JNum 0)
  ∧ (∀ v, read entry "userAnswers" = Some v → truthy v = false →
       userAnswers (load (Text parsed)) = JObj ∅)
  ∧ (∀ v, stored_view parsed "screen" = Some v → truthy v = false →
       screen (load (Text parsed)) = JStr HOME)
  ∧ (∀ (other v : json),
       other ≠ JNull →
       stored_view other "selectedCategory" = Some v → truthy v = false →
       selectedCategory (load (Text other)) = JNull)
  ∧ (∀ (st : state) (v : json),
       (read entry "selectedOption" = Some v → truthy v = false →
          selectedOption (selectCategory (to_key category) (Text parsed) st) = JNull)
       ∧ (read entry "currentQuestion" = Some v → truthy v = false →
            currentQuestion (selectCategory (to_key category) (Text parsed) st)
            = JNum 0))
  ∧ (∀ (st : state) (it : item),
       selectedOption st = JStr "" → load (save_effect st it) ≠ st)
  ∧ (∀ (part1Questions part2Questions : list question) (w : state * item),
       reachable part1Questions part2Questions w →
       selectedOption (fst w) = JStr "" →
       load (save_effect (fst w) (snd w)) = setSelectedOption JNull (fst w))
  ∧ (read parsed "selectedOption" = Some (JStr "") →
       Single.selectedOption (Single.load (Text parsed)) = JNull)
  ∧ (∀ v, read parsed "currentQuestion" = Some v → truthy v = false →
       Single.currentQuestion (Single.load (Text parsed)) = JNum 0).
Proof.
  intros Hparsed Hcat Htruthy Hentry He.
  destruct (load_entry parsed category entry) as (Hidx & Hans & Hsel);
    try assumption.
  destruct (load_view parsed Hparsed) as (Hscr & _ & _).
  destruct (single_load_cells parsed Hparsed) as (_ & Hidx1 & _ & Hsel1).
  split; [intros Hv; by rewrite Hsel, Hv|].
  split; [intros v Hv Hf; rewrite Hsel, Hv; by apply or_default_falsy|].
  split; [intros v Hv Hf; rewrite Hidx, Hv; by apply or_default_falsy|].
  split; [intros v Hv Hf; rewrite Hans, Hv; by apply or_default_falsy|].
  split; [intros v Hv Hf; rewrite Hscr, Hv; by apply or_default_falsy|].
  split.
  { intros other v Hother Hv Hf.
    destruct (load_view other Hother) as (_ & -> & _).
    rewrite Hv. by apply or_default_falsy. }
  split.
  { intros st v. unfold selectCategory.
    rewrite (getSavedCategoryData_entry parsed category entry) by assumption.
    rewrite He.
    cbn [selectedOption currentQuestion setIsTransitioning setSelectedOption
         setUserAnswers setCurrentQuestion].
    split; intros Hv Hf; rewrite Hv; by apply or_default_falsy. }
  split.
  { intros st it Hblank Hsame.
    destruct (load_never_falsy (save_effect st it)) as [[Hnull|Htrue] _];
      rewrite Hsame, Hblank in *; discriminate. }
  split.
  { intros p1 p2 w Hreach Hblank.
    destruct (reachable_mirrors _ _ _ Hreach) as [Hshape Hmirrors].
    rewrite save_mirrored by assumption.
    rewrite (load_mirrors _ _ Hshape Hmirrors). unfold rehydrated.
    by rewrite Hblank. }
  split; [intros Hv; by rewrite Hsel1, Hv|].
  intros v Hv Hf. rewrite Hidx1, Hv. by apply or_default_falsy.
Qed.

Lemma rehydration_coerces_falsy_doc :
  selectedOption (load (Text falsy_doc)) = JNull
  ∧ currentQuestion (load (Text falsy_doc)) = JNum 0
  ∧ userAnswers (load (Text falsy_doc)) = JObj answered_A.
Proof.
  destruct (rehydration_coerces_falsy falsy_doc (JStr "PART1")
              (JObj (<["currentQuestion" := JNull]>
                    (<["userAnswers" := JObj answered_A]>
                    (<["selectedOption" := JStr ""]> ∅))))
              ltac:(discriminate) eq_refl eq_refl eq_refl eq_refl)
    as (Hsel & _ & Hidx & _).
  split; [apply Hsel; reflexivity|].
  split; [apply (Hidx JNull); reflexivity|].
  vm_compute. reflexivity.
Defined.

End Rehydration.

(** ** Further facts about the score and the review list *)

Section ScoreExtras.

Import Tables Scenario.

Variable field : question → option string.

Lemma hit_with_answer_other (answers : gmap string json) (i j : nat)
    (v : json) (q : question) :
  i ≠ j →
  hit field (Engine.with_answer answers (Z.of_nat i) v) q j = hit field answers q j.
Proof.
  intros Hne. unfold hit, answer_at.
  rewrite with_answer_other by lia. reflexivity.
Qed.

Lemma hit_with_answer_same (answers : gmap string json) (i : nat)
    (v : json) (q : question) :
  hit field (Engine.with_answer answers (Z.of_nat i) v) q i =
  strict_eq (Some v) (field_value field q).
Proof.
  unfold hit, answer_at, Engine.with_answer. by rewrite lookup_insert_eq.
Qed.

Lemma hit_with_answer_outside (answers : gmap string json) (k : Z) (j : nat)
    (v : json) (q : question) :
  k ≠ Z.of_nat j →
  hit field (Engine.with_answer answers k v) q j = hit field answers q j.
Proof.
  intros Hne. unfold hit, answer_at.
  rewrite with_answer_other by lia. reflexivity.
Qed.

Lemma forEach_count_shift (answers : gmap string json)
    (questions : list question) (index correct : nat) :
  forEach_count field answers questions index correct =
  correct + forEach_count field answers questions index 0.
Proof.
  revert index correct.
  induction questions as [|q rest IH]; intros index correct; simpl; [lia|].
  rewrite (IH (S index) (if hit _ _ _ _ then S correct else correct)).
  rewrite (IH (S index) (if hit _ _ _ _ then 1 else 0)).
  destruct (hit _ _ _ _); lia.
Qed.

Lemma forEach_count_untouched (answers : gmap string json) (k : Z) (v : json)
    (questions : list question) (index correct : nat) :
  (∀ j, index ≤ j < index + length questions → k ≠ Z.of_nat j) →
  forEach_count field (Engine.with_answer answers k v) questions index correct =
  forEach_count field answers questions index correct.
Proof.
  revert index correct.
  induction questions as [|q rest IH]; intros index correct Hout; simpl; [done|].
  rewrite hit_with_answer_outside by (apply Hout; simpl; lia).
  apply IH. intros j Hj. apply Hout. simpl. lia.
Qed.

Lemma forEach_count_commit (answers : gmap string json) (v : json)
    (questions : list question) (q : question) (start i correct : nat) :
  questions !! i = Some q →
  forEach_count field (Engine.with_answer answers (Z.of_nat (start + i)) v)
      questions start correct
  + (if hit field answers q (start + i) then 1 else 0)
  = forEach_count field answers questions start correct
    + (if strict_eq (Some v) (field_value field q) then 1 else 0).
Proof.
  revert start i correct.
  induction questions as [|q0 rest IH]; intros start i correct Hq; [done|].
  destruct i as [|i]; simpl in Hq; cbn [forEach_count].
  - injection Hq as ->. rewrite Nat.add_0_r.
    rewrite hit_with_answer_same.
    rewrite forEach_count_untouched by (intros j Hj; lia).
    rewrite (forEach_count_shift answers rest (S start)
               (if strict_eq _ _ then S correct else correct)).
    rewrite (forEach_count_shift answers rest (S start)
               (if hit _ _ _ _ then S correct else correct)).
    destruct (strict_eq (Some v) _), (hit field answers q start); lia.
  - rewrite hit_with_answer_other by lia.
    replace (start + S i) with (S start + i) by lia.
    by apply IH.
Qed.

(** X1: recording an answer for a question changes the score by that
    question alone: what the old record scored for it is taken off and
    what the new answer scores is put on.  An answer recorded under an
    index that is no question's leaves the score as it was. *)
Theorem score_after_commit
    (questions : list question) (answers : gmap string json)
    (index : Z) (v : json) :
  (∀ (i : nat) (q : question),
     index = Z.of_nat i → questions !! i = Some q →
     calculateScore_on field questions (Engine.with_answer answers index v)
     + (if hit field answers q i then 1 else 0)
     = calculateScore_on field questions answers
       + (if strict_eq (Some v) (field_value field q) then 1 else 0))
  ∧ ((index < 0 ∨ Z.of_nat (length questions) ≤ index)%Z →
     calculateScore_on field questions (Engine.with_answer answers index v)
     = calculateScore_on field questions answers).
Proof.
  split.
  - intros i q -> Hq. unfold calculateScore_on.
    apply (forEach_count_commit answers v questions q 0 i 0 Hq).
  - intros Hout. unfold calculateScore_on.
    apply forEach_count_untouched. intros j Hj. lia.
Qed.

Lemma review_from_count (answers : gmap string json)
    (questions : list question) (index : nat) :
  length (List.filter (λ card, String.eqb (fst card) "correct")
            (review_from field answers questions index))
  = forEach_count field answers questions index 0.
Proof.
  revert index. induction questions as [|q rest IH]; intros index; simpl; [done|].
  rewrite (forEach_count_shift answers rest (S index)).
  unfold card_class. destruct (hit field answers q index); simpl; by rewrite IH.
Qed.

Lemma review_from_correct_card (answers : gmap string json)
    (questions : list question) (index : nat) (card : string * list string) :
  In card (review_from field answers questions index) →
  fst card = "correct" → ¬ In "option-wrong" (snd card).
Proof.
  revert index. induction questions as [|q rest IH]; intros index; simpl; [done|].
  intros [<- | Hin]; [|by eapply IH].
  cbn [fst snd]. unfold card_class. intros Hcorrect Hwrong.
  apply in_map_iff in Hwrong as (option & Hclass & _).
  unfold optionClass in Hclass.
  destruct (hit field answers q index); [|discriminate].
  destruct (strict_eq (Some (JStr option)) (field_value field q)); [discriminate|].
  rewrite andb_false_r in Hclass. discriminate.
Qed.

(** X2: the review list agrees with the score: it has one card for each
    question, the cards marked correct are as many as [calculateScore]
    counts, and a card marked correct tags none of its options as the
    wrong answer. *)
Theorem review_agrees_with_score
    (questions : list question) (answers : gmap string json) :
  length (review field questions answers) = length questions
  ∧ length (List.filter (λ card, String.eqb (fst card) "correct")
              (review field questions answers))
    = calculateScore_on field questions answers
  ∧ ∀ card, In card (review field questions answers) →
      fst card = "correct" → ¬ In "option-wrong" (snd card).
Proof.
  split; [|split].
  - unfold review. generalize 0.
    induction questions as [|q rest IH]; intros n; simpl; [done|]. by rewrite IH.
  - apply review_from_count.
  - apply review_from_correct_card.
Qed.

(** X3: with no questions the score is 0 and the quotient is 0/0: the
    percentage is [NaN], every comparison of the grading fails, and the
    grade class is the lowest one. *)
Theorem no_questions_no_percentage (answers : gmap string json) :
  calculateScore_on field [] answers = 0
  ∧ getPercentage_on field [] answers = NotANumber
  ∧ gradeClass (getPercentage_on field [] answers) = "grade-low".
Proof. repeat split; vm_compute; reflexivity. Qed.

End ScoreExtras.

Section PercentScale.

Import Tables Scenario.

Lemma score_after_commit_part1 :
  calculateScore part1 (Engine.with_answer answers_AXC 1 (JStr "B")) = 3.
Proof.
  destruct (score_after_commit answer part1 answers_AXC 1 (JStr "B")) as [Hcommit _].
  specialize (Hcommit 1 (asked "Q2" "B") eq_refl eq_refl).
  change (calculateScore part1 (Engine.with_answer answers_AXC 1 (JStr "B")) + 0
          = 2 + 1) in Hcommit.
  lia.
Defined.

Lemma percent_scale_table_100 : percent_scale_table 100 = true.
Proof. vm_compute. reflexivity. Qed.

Lemma percent_scale_sound (bound length : nat) :
  percent_scale_table bound = true → 1 ≤ length ≤ bound →
  percent_of 0 length = Finite 0
  ∧ percent_of length length = Finite 100
  ∧ ∀ score, score < length →
      percent_within (percent_of score length) = true
      ∧ number_le (percent_of score length) (percent_of (S score) length) = true.
Proof.
  unfold percent_scale_table. intros Htable Hlen.
  rewrite forallb_forall in Htable.
  specialize (Htable length). rewrite in_seq in Htable.
  specialize (Htable ltac:(lia)). unfold percent_scale_ok in Htable.
  apply andb_prop in Htable as [Htable Hfull].
  apply andb_prop in Htable as [Hsteps Hnone].
  split; [by apply number_eqb_eq|]. split; [by apply number_eqb_eq|].
  intros score Hscore. rewrite forallb_forall in Hsteps.
  specialize (Hsteps score). rewrite in_seq in Hsteps.
  apply andb_prop, Hsteps. lia.
Qed.

Lemma number_le_trans (a b c : number) :
  number_le a b = true → number_le b c = true → number_le a c = true.
Proof.
  destruct a, b, c; simpl; try discriminate. rewrite !Z.leb_le. lia.
Qed.

Lemma percent_of_finite (bound length score : nat) :
  percent_scale_table bound = true → 1 ≤ length ≤ bound → score ≤ length →
  ∃ p : Z, percent_of score length = Finite p ∧ (0 ≤ p ≤ 100)%Z.
Proof.
  intros Htable Hlen Hscore.
  destruct (percent_scale_sound bound length Htable Hlen) as (_ & Hfull & Hsteps).
  destruct (decide (score = length)) as [->|Hne].
  - exists 100%Z. split; [assumption|lia].
  - destruct (Hsteps score ltac:(lia)) as [Hwithin _].
    destruct (percent_of score length) as [p| |]; try discriminate.
    exists p. split; [reflexivity|]. simpl in Hwithin.
    apply andb_prop in Hwithin as [H0 H100].
    apply Z.leb_le in H0, H100. lia.
Qed.

Lemma percent_of_monotone (bound length low high : nat) :
  percent_scale_table bound = true → 1 ≤ length ≤ bound →
  low ≤ high → high ≤ length →
  number_le (percent_of low length) (percent_of high length) = true.
Proof.
  intros Htable Hlen Hlow. induction Hlow as [|high Hlow IH]; intros Hhigh.
  - destruct (percent_of_finite bound length low Htable Hlen Hhigh) as (p & -> & _).
    simpl. apply Z.leb_refl.
  - eapply number_le_trans; [apply IH; lia|].
    destruct (percent_scale_sound bound length Htable Hlen) as (_ & _ & Hsteps).
    apply Hsteps. lia.
Qed.

(** X4: for a quiz of 1 to 100 questions the percentage, computed on doubles,
    keeps to the scale: it is an integer from 0 to 100, it is 0 when no
    answer is right and 100 when all are, and a record that scores at
    least as much as another gets at least its percentage.  In both
    components. *)
Theorem percentage_scale
    (field : question → option string) (questions : list question)
    (answers answers' : gmap string json) :
  1 ≤ length questions ≤ 100 →
  (∃ p : Z, getPercentage_on field questions answers = Finite p
            ∧ (0 ≤ p ≤ 100)%Z)
  ∧ (calculateScore_on field questions answers = 0 →
       getPercentage_on field questions answers = Finite 0)
  ∧ (calculateScore_on field questions answers = length questions →
       getPercentage_on field questions answers = Finite 100)
  ∧ (calculateScore_on field questions answers
       ≤ calculateScore_on field questions answers' →
     number_le (getPercentage_on field questions answers)
               (getPercentage_on field questions answers') = true).
Proof.
  intros Hlen. unfold getPercentage_on.
  pose proof percent_scale_table_100 as Htable.
  destruct (percent_scale_sound 100 _ Htable Hlen) as (Hnone & Hfull & _).
  split; [|split; [|split]].
  - apply (percent_of_finite 100); [assumption..|]. apply calculateScore_on_le.
  - by intros ->.
  - by intros ->.
  - intros Hle. apply (percent_of_monotone 100); try assumption.
    apply calculateScore_on_le.
Qed.

Lemma percentage_scale_part1 :
  ∃ p : Z, getPercentage part1 answers_AXC = Finite p ∧ (0 ≤ p ≤ 100)%Z.
Proof.
  apply (percentage_scale answer part1 answers_AXC answers_AXC). simpl. lia.
Defined.

End PercentScale.

(** ** Further facts about navigation *)

Section NavigationExtras.

Import Engine Shape Scenario.

(** X5: [finishQuiz] changes nothing when no option is selected.  Otherwise,
    on whatever index, it records the selection for the current index and
    shows the results; index, selection and category stay. *)
Theorem finishQuiz_commits_and_shows_results
    (st : state) (index : Z) (answers : gmap string json) :
  currentQuestion st = JNum index →
  userAnswers st = JObj answers →
  (selectedOption st = JNull → finishQuiz st = Some st)
  ∧ (selectedOption st ≠ JNull →
     finishQuiz st =
       Some {| screen := JStr RESULTS;
               selectedCategory := selectedCategory st;
               currentQuestion := JNum index;
               userAnswers :=
                 JObj (<[to_key (JNum index) := selectedOption st]> answers);
               selectedOption := selectedOption st;
               isTransitioning := false |}).
Proof.
  destruct st as [scr cat idx ans sel busy].
  cbn [currentQuestion userAnswers selectedOption selectedCategory].
  intros -> ->. unfold finishQuiz. cbn [selectedOption]. split.
  - intros ->. reflexivity.
  - intros Hsel. by rewrite (strict_eq_not_null _ Hsel).
Qed.

Lemma finishQuiz_commits_and_shows_results_two_of_five :
  finishQuiz two_of_five =
    Some {| screen := JStr RESULTS; selectedCategory := JStr "PART1";
            currentQuestion := JNum 2;
            userAnswers := JObj (<["2" := JStr "C"]>
                                (<["0" := JStr "A"]> (<["1" := JStr "B"]> ∅)));
            selectedOption := JStr "C"; isTransitioning := false |}.
Proof.
  destruct (finishQuiz_commits_and_shows_results two_of_five 2
              (<["0" := JStr "A"]> (<["1" := JStr "B"]> ∅)) eq_refl eq_refl)
    as [_ H].
  apply H. discriminate.
Defined.

Lemma truthy_string (s : string) : s ≠ "" → truthy (JStr s) = true.
Proof. intros Hs. simpl. by destruct (String.eqb_spec s ""). Qed.

Lemma insert_or_default (answers : gmap string json) (key : string) :
  or_default (answers !! key) JNull ≠ JNull →
  <[key := or_default (answers !! key) JNull]> answers = answers.
Proof.
  intros Hne. apply insert_id.
  destruct (answers !! key) as [v|]; [|done].
  simpl in *. by destruct (truthy v).
Qed.

(** X6: Next and then Previous is a round trip: from an index that is not
    the last one, with a non-empty option selected, the two handlers end
    on the same index with the same option selected, and the only change
    to the answers is that the option is recorded for that index. *)
Theorem next_then_prev_returns
    (questions : list question) (st : state)
    (index : Z) (answers : gmap string json) (s : string) :
  currentQuestion st = JNum index →
  userAnswers st = JObj answers →
  selectedOption st = JStr s → s ≠ "" →
  (0 ≤ index < Z.of_nat (length questions) - 1)%Z →
  (st1 ← nextQuestion questions st; prevQuestion st1) =
    Some {| screen := screen st;
            selectedCategory := selectedCategory st;
            currentQuestion := JNum index;
            userAnswers := JObj (<[to_key (JNum index) := JStr s]> answers);
            selectedOption := JStr s;
            isTransitioning := false |}.
Proof.
  intros Hindex Hanswers Hsel Hs Hrange.
  unfold nextQuestion. rewrite Hsel, Hanswers, Hindex.
  cbn [strict_eq as_object as_number mbind option_bind].
  destruct (Z.ltb_spec index (Z.of_nat (length questions) - 1)); [|lia].
  unfold prevQuestion.
  cbn [currentQuestion userAnswers selectedOption screen selectedCategory
       setIsTransitioning setSelectedOption setCurrentQuestion setUserAnswers].
  change (strict_eq (Some (JNum (index + 1))) (Some (JNum 0)))
    with (index + 1 =? 0)%Z.
  destruct (Z.eqb_spec (index + 1) 0); [lia|].
  cbn [as_object as_number mbind option_bind].
  replace (index + 1 - 1)%Z with index by lia.
  rewrite (with_answer_other answers index (index + 1)) by lia.
  assert (Hback : with_answer answers index (JStr s) !! to_key (JNum index)
                  = Some (JStr s)) by apply lookup_insert_eq.
  rewrite Hback, (or_default_truthy _ _ (truthy_string s Hs)).
  destruct (strict_eq (Some (or_default (answers !! to_key (JNum (index + 1))) JNull))
              (Some JNull)) eqn:Hnull; cbn [negb]; [reflexivity|].
  assert (Hid : with_answer (with_answer answers index (JStr s)) (index + 1)
                  (or_default (answers !! to_key (JNum (index + 1))) JNull)
                = with_answer answers index (JStr s)).
  { rewrite <- (with_answer_other answers index (index + 1) (JStr s)) by lia.
    apply insert_or_default. intros Heq.
    rewrite with_answer_other in Heq by lia. rewrite Heq in Hnull. discriminate. }
  rewrite Hid. reflexivity.
Qed.

Lemma next_then_prev_returns_two_of_five :
  (st1 ← nextQuestion (replicate 5 (asked "Q" "A")) two_of_five; prevQuestion st1)
  = Some (in_quiz "PART1" 2
            (<["2" := JStr "C"]> (<["0" := JStr "A"]> (<["1" := JStr "B"]> ∅)))
            (JStr "C")).
Proof.
  apply (next_then_prev_returns (replicate 5 (asked "Q" "A")) two_of_five 2
           (<["0" := JStr "A"]> (<["1" := JStr "B"]> ∅)) "C");
    try reflexivity; [discriminate|simpl; lia].
Defined.

(** X7: Previous and then Next is a round trip when a non-empty answer is
    recorded for the question before: from an index that is neither 0 nor
    beyond the last one, with a non-empty option selected, the two
    handlers end on the same index with the same option selected, and the
    only change to the answers is that the option is recorded for that
    index. *)
Theorem prev_then_next_returns
    (questions : list question) (st : state)
    (index : Z) (answers : gmap string json) (s before : string) :
  currentQuestion st = JNum index →
  userAnswers st = JObj answers →
  selectedOption st = JStr s → s ≠ "" →
  answers !! to_key (JNum (index - 1)) = Some (JStr before) → before ≠ "" →
  (0 < index < Z.of_nat (length questions))%Z →
  (st1 ← prevQuestion st; nextQuestion questions st1) =
    Some {| screen := screen st;
            selectedCategory := selectedCategory st;
            currentQuestion := JNum index;
            userAnswers := JObj (<[to_key (JNum index) := JStr s]> answers);
            selectedOption := JStr s;
            isTransitioning := false |}.
Proof.
  intros Hindex Hanswers Hsel Hs Hbefore Hb Hrange.
  unfold prevQuestion. rewrite Hindex.
  cbn [strict_eq]. destruct (Z.eqb_spec index 0); [lia|].
  rewrite Hanswers, Hsel.
  cbn [strict_eq negb as_object as_number mbind option_bind].
  rewrite Hbefore, (or_default_truthy _ _ (truthy_string before Hb)).
  unfold nextQuestion.
  cbn [currentQuestion userAnswers selectedOption screen selectedCategory
       setIsTransitioning setSelectedOption setCurrentQuestion setUserAnswers
       strict_eq as_object as_number mbind option_bind].
  destruct (Z.ltb_spec (index - 1) (Z.of_nat (length questions) - 1)); [|lia].
  cbn [currentQuestion userAnswers selectedOption screen selectedCategory
       setIsTransitioning setSelectedOption setCurrentQuestion setUserAnswers].
  replace (index - 1 + 1)%Z with index by lia.
  assert (Hsame : with_answer (with_answer answers index (JStr s)) (index - 1)
                    (JStr before) = with_answer answers index (JStr s)).
  { apply insert_id. rewrite with_answer_other by lia. assumption. }
  rewrite Hsame.
  assert (Hhere : with_answer answers index (JStr s) !! to_key (JNum index)
                  = Some (JStr s)) by apply lookup_insert_eq.
  rewrite Hhere, (or_default_truthy _ _ (truthy_string s Hs)).
  reflexivity.
Qed.

Lemma prev_then_next_returns_two_of_five :
  (st1 ← prevQuestion two_of_five;
   nextQuestion (replicate 5 (asked "Q" "A")) st1)
  = Some (in_quiz "PART1" 2
            (<["2" := JStr "C"]> (<["0" := JStr "A"]> (<["1" := JStr "B"]> ∅)))
            (JStr "C")).
Proof.
  apply (prev_then_next_returns (replicate 5 (asked "Q" "A")) two_of_five 2
           (<["0" := JStr "A"]> (<["1" := JStr "B"]> ∅)) "C" "B");
    try reflexivity; try discriminate. simpl. lia.
Defined.

End NavigationExtras.

(** ** Further facts about the stored item *)

Section StoreExtras.

Import Engine Shape Scenario.

(** X8: the save effect is idempotent: saving the same cells again writes the
    same document, whatever the item held, and two saves for one category
    leave what the second alone would. *)
Theorem save_twice_is_save_once (st1 st2 : state) (it : item) :
  save_effect st2 (save_effect st2 it) = save_effect st2 it
  ∧ (selectedCategory st1 = selectedCategory st2 →
     save_effect st2 (save_effect st1 it) = save_effect st2 it).
Proof. split; [by apply save_absorbs|apply save_absorbs]. Qed.

Lemma getSaved_object (m : gmap string json) (key : string) :
  getSavedCategoryData key (Text (JObj m)) =
  or_default (read_opt (m !! "categories") key) JNull.
Proof. reflexivity. Qed.

Lemma read_opt_falsy (v : json) (key : string) :
  truthy v = false → or_default (read_opt (Some v) key) JNull = JNull.
Proof.
  destruct v as [|b|n|s|m]; simpl; try done.
  destruct (String.eqb_spec s ""); [subst|discriminate]. intros _.
  unfold string_prop. simpl. by destruct (String.eqb key "length").
Qed.

(** The save effect leaves alone what is stored for every category but
    the selected one, whatever the item holds. *)
Lemma save_frame (st : state) (it : item) (other : string) :
  truthy (selectedCategory st) = false ∨ to_key (selectedCategory st) ≠ other →
  getSavedCategoryData other (save_effect st it) = getSavedCategoryData other it.
Proof.
  intros Hother. unfold save_effect.
  destruct (save_try st it) as [doc|] eqn:Hsave; [|reflexivity].
  assert (Hfresh : ∀ m0 : gmap string json,
            m0 !! "categories" = Some (JObj ∅) →
            (let m := <["currentView" := view_doc st]> m0 in
             if truthy (selectedCategory st)
             then categories ← as_object (or_default (m !! "categories") (JObj ∅));
                  Some (JObj (<["categories" :=
                    JObj (<[to_key (selectedCategory st) := session_doc st]>
                            categories)]> m))
             else Some (JObj m)) = Some doc →
            getSavedCategoryData other (Text doc) = JNull).
  { intros m0 Hm0. cbn zeta. rewrite lookup_insert_ne by done. rewrite Hm0.
    cbn [or_default truthy as_object mbind option_bind].
    destruct (truthy (selectedCategory st)); intros [= <-];
      rewrite getSaved_object.
    - rewrite lookup_insert_eq. cbn [read_opt read].
      destruct Hother as [?|Hne]; [discriminate|].
      by rewrite lookup_insert_ne.
    - rewrite lookup_insert_ne by done. rewrite Hm0. cbn [read_opt read].
      by rewrite lookup_empty. }
  destruct it as [| | |existing]; try discriminate.
  - apply (Hfresh (<["categories" := JObj ∅]> ∅)); [apply lookup_insert_eq|exact Hsave].
  - apply (Hfresh (<["categories" := JObj ∅]> ∅)); [apply lookup_insert_eq|exact Hsave].
  - destruct existing as [| | | |m]; try discriminate.
    unfold save_try in Hsave. cbn [mbind option_bind as_object] in Hsave.
    rewrite lookup_insert_ne in Hsave by done.
    destruct (truthy (selectedCategory st)) eqn:Htruthy.
    + destruct Hother as [?|Hne]; [discriminate|].
      destruct (m !! "categories") as [v|] eqn:Hv.
      * destruct (truthy v) eqn:Hvt.
        -- rewrite (or_default_truthy v _ Hvt) in Hsave.
           destruct v as [| | | |cats]; try discriminate.
           cbn [as_object mbind option_bind] in Hsave. injection Hsave as <-.
           rewrite !getSaved_object, Hv.
           rewrite lookup_insert_eq. cbn [read_opt read].
           by rewrite lookup_insert_ne.
        -- rewrite (or_default_falsy v _ Hvt) in Hsave.
           cbn [as_object mbind option_bind] in Hsave. injection Hsave as <-.
           rewrite !getSaved_object, Hv, (read_opt_falsy v other Hvt).
           rewrite lookup_insert_eq. cbn [read_opt read].
           rewrite lookup_insert_ne by done. by rewrite lookup_empty.
      * cbn [or_default as_object mbind option_bind] in Hsave.
        injection Hsave as <-.
        rewrite !getSaved_object, Hv.
        rewrite lookup_insert_eq. cbn [read_opt read].
        rewrite lookup_insert_ne by done. by rewrite lookup_empty.
    + injection Hsave as <-. rewrite !getSaved_object.
      by rewrite lookup_insert_ne.
Qed.

Section Frames.

Variables part1Questions part2Questions : list question.

Lemma handle_category (i : intent) (it : item) (st st' : state) :
  handle part1Questions part2Questions i it st = Some st' →
  selectedCategory st' = selectedCategory st
  ∨ selectedCategory st' = JNull
  ∨ ∃ key, i = SelectCategory key ∧ selectedCategory st' = JStr key.
Proof.
  destruct i; cbn [handle].
  - intros [= <-]. right. right. eexists. split; [reflexivity|].
    apply selectCategory_view.
  - intros [= <-]. by left.
  - destruct (questions _ _ _); [|discriminate]. cbn [mbind option_bind].
    intros H. left. by eapply nextQuestion_category.
  - intros H. left. by eapply prevQuestion_category.
  - intros H. left. by eapply finishQuiz_category.
  - intros [= <-]. by left.
  - intros [= <-]. right. by left.
Qed.

(** X9: no intent touches what is stored for a category other than the one
    the cells are in after it, whatever the item holds and whatever the
    cells are: going home keeps every category, and answering, finishing
    or restarting in one category keeps all the others. *)
Theorem intent_keeps_other_categories
    (w w' : state * item) (i : intent) (other : string) :
  step part1Questions part2Questions w i = Some w' →
  selectedCategory (fst w') ≠ JStr other →
  (selectedCategory (fst w') = JNull
   ∨ ∃ key, selectedCategory (fst w') = JStr key) →
  getSavedCategoryData other (snd w') = getSavedCategoryData other (snd w).
Proof.
  unfold step.
  destruct (handle _ _ i (snd w) (fst w)) as [st'|]; [|discriminate].
  cbn [mbind option_bind]. intros [= <-]. cbn [fst snd].
  intros Hne [Hnull | [key Hkey]]; apply save_frame.
  - left. by rewrite Hnull.
  - right. rewrite Hkey in *. cbn [to_key]. congruence.
Qed.

End Frames.

Lemma intent_keeps_other_categories_two_of_five :
  (w ← step (replicate 5 (asked "Q" "A")) [] (two_of_five, save_effect two_of_five NoItem)
         GoToHome;
   Some (getSavedCategoryData "PART1" (snd w)))
  = Some (session_doc two_of_five).
Proof.
  destruct (step _ _ _ _) as [w|] eqn:Hstep; [|vm_compute in Hstep; discriminate].
  cbn [mbind option_bind]. f_equal.
  rewrite (intent_keeps_other_categories (replicate 5 (asked "Q" "A")) []
             _ w GoToHome "PART1" Hstep).
  - vm_compute. reflexivity.
  - injection Hstep as <-. discriminate.
  - injection Hstep as <-. by left.
Defined.

Lemma unwritable_save (st : state) (it : item) :
  unwritable it → save_effect st it = it.
Proof. by intros [-> | [-> | [[b ->] | [n ->]]]]. Qed.

Lemma unwritable_load (it : item) : unwritable it → load it = initial_state.
Proof. by intros [-> | [-> | [[b ->] | [n ->]]]]. Qed.

Lemma unwritable_saved (it : item) (key : string) :
  unwritable it → getSavedCategoryData key it = JNull.
Proof. by intros [-> | [-> | [[b ->] | [n ->]]]]. Qed.

Section Unwritable.

Variables part1Questions part2Questions : list question.

(** X10: a stored text that does not parse, or that parses to [null], a number
    or a boolean, is never replaced: the save effect fails on it after
    every intent, so whatever the user does the item stays as it was, no
    category ever has saved progress, and a reload starts from the
    default cells. *)
Theorem unwritable_item_is_never_replaced
    (w w' : state * item) (intents : list intent) :
  unwritable (snd w) →
  run part1Questions part2Questions w intents = Some w' →
  snd w' = snd w
  ∧ mount (snd w') = (initial_state, snd w)
  ∧ ∀ key, getSavedCategoryData key (snd w') = JNull.
Proof.
  intros Hdead Hrun.
  assert (Hsame : snd w' = snd w).
  { revert w Hdead Hrun.
    induction intents as [|i rest IH]; intros w Hdead; cbn [run].
    - by intros [= <-].
    - unfold step.
      destruct (handle _ _ i (snd w) (fst w)) as [st'|]; [|discriminate].
      cbn [mbind option_bind]. intros Hrun.
      apply IH in Hrun; cbn [snd] in *; rewrite unwritable_save in * by assumption;
        assumption. }
  rewrite Hsame. split; [reflexivity|]. split.
  - unfold mount. rewrite (unwritable_load _ Hdead).
    by rewrite !(unwritable_save initial_state _ Hdead).
  - intros key. by apply unwritable_saved.
Qed.

End Unwritable.

Lemma unwritable_item_is_never_replaced_malformed :
  snd <$> run (replicate 5 (asked "Q" "A")) [] (initial_state, Malformed)
            [SelectCategory "PART1"; SelectOption "A"; NextQuestion]
  = Some Malformed.
Proof.
  destruct (run _ _ _ _) as [w|] eqn:Hrun; [|vm_compute in Hrun; discriminate].
  assert (Hdead : unwritable (snd (initial_state, Malformed))) by (by left).
  destruct (unwritable_item_is_never_replaced _ _ _ w _ Hdead Hrun) as (Hsame & _).
  cbn [fmap option_fmap option_map]. by rewrite Hsame.
Defined.

Lemma holds_entry_saved (key : string) (e : json) (it : item) :
  holds_entry key e it → getSavedCategoryData key it = or_default (Some e) JNull.
Proof.
  intros (m & cats & -> & Hcats & He). rewrite getSaved_object, Hcats.
  cbn [read_opt read]. by rewrite He.
Qed.

Section Restart.

Variables part1Questions part2Questions : list question.

(** X11: restarting a category clears its saved progress: the cells go to
    question 0 of the same category with no answers and no selection, the
    save effect stores exactly that session for the category, its
    progress on the home screen is that of no answers, and going home and
    opening the category again starts from question 0. *)
Theorem restartQuiz_clears_saved_progress
    (st : state) (it : item) (key : string) (qs : list question) :
  selectedCategory st = JStr key →
  In key category_keys →
  CATEGORIES_questions part1Questions part2Questions key = Some qs →
  writable it →
  ∃ it' : item,
    step part1Questions part2Questions (st, it) RestartQuiz
      = Some (in_quiz key 0 ∅ JNull, it')
    ∧ getSavedCategoryData key it' = session_doc (in_quiz key 0 ∅ JNull)
    ∧ getCategoryProgress part1Questions part2Questions key it'
      = Some (percent_of 0 (length qs))
    ∧ fst <$> run part1Questions part2Questions (in_quiz key 0 ∅ JNull, it')
                [GoToHome; SelectCategory key]
      = Some (in_quiz key 0 ∅ JNull).
Proof.
  intros Hcat Hkey Hqs Hwritable.
  assert (Hkey' : key ≠ "") by (by destruct Hkey as [<-|[<-|[]]]).
  assert (Hst : restartQuiz st = in_quiz key 0 ∅ JNull).
  { destruct st as [scr cat idx ans sel busy]. cbn in Hcat. by subst cat. }
  eexists. split; [unfold step; cbn [handle mbind option_bind fst snd];
                   rewrite Hst; reflexivity|].
  pose proof (save_holds_own key (in_quiz key 0 ∅ JNull) it Hkey' eq_refl Hwritable)
    as Hheld.
  assert (Hsaved : getSavedCategoryData key (save_effect (in_quiz key 0 ∅ JNull) it)
                   = session_doc (in_quiz key 0 ∅ JNull)).
  { by rewrite (holds_entry_saved _ _ _ Hheld). }
  split; [assumption|]. split.
  - unfold getCategoryProgress. rewrite Hsaved.
    cbn [truthy session_doc]. fold (session_doc (in_quiz key 0 ∅ JNull)).
    rewrite read_session_answers. cbn [userAnswers in_quiz truthy keys_length].
    rewrite Hqs. cbn [mbind option_bind]. by rewrite map_size_empty.
  - cbn [run]. unfold step at 1. cbn [handle mbind option_bind fst snd].
    unfold step. cbn [handle mbind option_bind fst snd fmap option_fmap option_map].
    f_equal.
    assert (Hkept : holds_entry key (session_doc (in_quiz key 0 ∅ JNull))
                      (save_effect (goToHome (in_quiz key 0 ∅ JNull))
                         (save_effect (in_quiz key 0 ∅ JNull) it)))
      by (apply save_keeps_entry; [assumption|by left]).
    destruct (selectCategory_view key
                (save_effect (goToHome (in_quiz key 0 ∅ JNull))
                   (save_effect (in_quiz key 0 ∅ JNull) it))
                (goToHome (in_quiz key 0 ∅ JNull))) as (Hscr & Hc & Hbusy).
    destruct (selectCategory_restores key (in_quiz key 0 ∅ JNull)
                (goToHome (in_quiz key 0 ∅ JNull)) _ Hkept)
      as (Hidx & Hans & Hsel).
    { split; [by exists 0%Z|]. split; [|by left]. exists ∅. split; [done|].
      intros k v Hv. by rewrite lookup_empty in Hv. }
    { discriminate. }
    destruct (selectCategory _ _ _) as [scr cat idx ans sel busy].
    cbn [screen selectedCategory currentQuestion userAnswers selectedOption
         isTransitioning] in *.
    by subst.
Qed.

End Restart.

Lemma restartQuiz_clears_saved_progress_two_of_five :
  ∃ it' : item,
    step (replicate 5 (asked "Q" "A")) [] (two_of_five, NoItem) RestartQuiz
      = Some (in_quiz "PART1" 0 ∅ JNull, it')
    ∧ getSavedCategoryData "PART1" it' = session_doc (in_quiz "PART1" 0 ∅ JNull).
Proof.
  destruct (restartQuiz_clears_saved_progress (replicate 5 (asked "Q" "A")) []
              two_of_five NoItem "PART1" (replicate 5 (asked "Q" "A"))
              eq_refl (or_introl eq_refl) eq_refl I)
    as (it' & Hstep & Hsaved & _).
  exists it'. by split.
Defined.

(** X12: [clearCategoryData], on an item the engine can write: afterwards
    nothing is saved for the category and opening it starts from the
    default session, what is saved for every other category is as
    before, and with nothing saved for the category the item is not
    written at all. *)
Theorem clearCategoryData_removes_one_entry (key : string) (it : item) :
  writable it →
  getSavedCategoryData key (clearCategoryData key it) = JNull
  ∧ (∀ st : state,
       selectCategory key (clearCategoryData key it) st = in_quiz key 0 ∅ JNull)
  ∧ (∀ other : string, other ≠ key →
       getSavedCategoryData other (clearCategoryData key it)
       = getSavedCategoryData other it)
  ∧ (getSavedCategoryData key it = JNull → clearCategoryData key it = it).
Proof.
  intros Hwritable.
  assert (Hopen : ∀ it' st, getSavedCategoryData key it' = JNull →
            selectCategory key it' st = in_quiz key 0 ∅ JNull).
  { intros it' st Hnull. unfold selectCategory. by rewrite Hnull. }
  assert (Hsame : getSavedCategoryData key it = JNull →
            getSavedCategoryData key it = JNull
            ∧ (∀ st, selectCategory key it st = in_quiz key 0 ∅ JNull)
            ∧ (∀ other : string, other ≠ key →
                 getSavedCategoryData other it = getSavedCategoryData other it)
            ∧ (getSavedCategoryData key it = JNull → it = it)).
  { intros Hnull. repeat split; auto. }
  destruct it as [| | |existing]; try (by apply Hsame); try contradiction.
  destruct existing as [|b|n|s|m]; try contradiction.
  cbn [writable] in Hwritable. unfold clearCategoryData. cbn [read].
  destruct (m !! "categories") as [v|] eqn:Hv.
  - destruct v as [| | | |cats].
    + apply Hsame. by rewrite getSaved_object, Hv.
    + apply Hsame. by rewrite getSaved_object, Hv.
    + apply Hsame. by rewrite getSaved_object, Hv.
    + cbn in Hwritable. destruct (String.eqb_spec s ""); [subst s|discriminate].
      assert (Hnull : getSavedCategoryData key (Text (JObj m)) = JNull)
        by (rewrite getSaved_object, Hv; by apply read_opt_falsy).
      cbn [read_opt read]. unfold string_prop.
      destruct (String.eqb key "length"); by apply Hsame.
    + cbn [read_opt read].
      destruct (cats !! key) as [e|] eqn:He.
      * destruct (truthy e) eqn:Hte.
        -- assert (Hgone : getSavedCategoryData key
                     (Text (JObj (<["categories" := JObj (delete key cats)]> m)))
                   = JNull).
           { rewrite getSaved_object, lookup_insert_eq. cbn [read_opt read].
             by rewrite lookup_delete_eq. }
           split; [assumption|]. split; [intros st; by apply Hopen|]. split.
           ++ intros other Hother. rewrite !getSaved_object, lookup_insert_eq, Hv.
              cbn [read_opt read]. by rewrite lookup_delete_ne.
           ++ rewrite getSaved_object, Hv. cbn [read_opt read]. rewrite He.
              rewrite (or_default_truthy e _ Hte). intros ->. discriminate.
        -- apply Hsame. rewrite getSaved_object, Hv. cbn [read_opt read].
           rewrite He. by apply or_default_falsy.
      * apply Hsame. rewrite getSaved_object, Hv. cbn [read_opt read].
        by rewrite He.
  - apply Hsame. by rewrite getSaved_object, Hv.
Qed.

Lemma clearCategoryData_removes_one_entry_two_of_five :
  getSavedCategoryData "PART1"
    (clearCategoryData "PART1" (save_effect two_of_five NoItem)) = JNull.
Proof.
  apply (clearCategoryData_removes_one_entry "PART1" (save_effect two_of_five NoItem)).
  exact I.
Defined.

End StoreExtras.

(** ** The cells and the stored sessions keep within their quiz *)

Section RangeFacts.

Import Engine Shape Tables Scenario.

Lemma answers_in_range_empty (qs : list question) : answers_in_range qs (JObj ∅).
Proof.
  exists ∅. split; [reflexivity|]. intros key v Hv. by rewrite lookup_empty in Hv.
Qed.

Lemma answers_in_range_commit
    (qs : list question) (answers : gmap string json) (index : Z) (v : json) :
  answers_in_range qs (JObj answers) → (0 ≤ index < Z.of_nat (length qs))%Z →
  answers_in_range qs (JObj (with_answer answers index v)).
Proof.
  intros (m & [= <-] & Hkeys) Hindex. eexists. split; [reflexivity|].
  intros key x. unfold with_answer. rewrite lookup_insert. case_decide.
  - intros _. by exists index.
  - apply Hkeys.
Qed.

(** An answer record within a quiz has no more entries than the quiz has
    questions. *)
Lemma answers_in_range_size (qs : list question) (answers : gmap string json) :
  answers_in_range qs (JObj answers) → size answers ≤ length qs.
Proof.
  intros (m & [= <-] & Hkeys).
  set (keys := (λ i : nat, to_key (JNum (Z.of_nat i))) <$> seq 0 (length qs)).
  assert (Hnodup : NoDup keys).
  { apply NoDup_fmap_2_strong; [|apply NoDup_seq].
    intros i j _ _ Hij. apply to_key_index_inj in Hij. lia. }
  assert (Hsub : dom answers ⊆ (list_to_set keys : gset string)).
  { intros key Hkey. apply elem_of_dom in Hkey as [v Hv].
    destruct (Hkeys key v Hv) as (k & -> & Hk).
    apply elem_of_list_to_set, list_elem_of_fmap.
    exists (Z.to_nat k). split; [by rewrite Z2Nat.id by lia|].
    apply elem_of_seq. lia. }
  apply subseteq_size in Hsub.
  rewrite size_dom, (size_list_to_set keys Hnodup) in Hsub.
  unfold keys in Hsub. by rewrite length_fmap, length_seq in Hsub.
Qed.

Lemma holds_entry_written
    (key : string) (e : json) (st : state) (m cats : gmap string json) :
  m !! "categories" = Some (JObj cats) →
  (selectedCategory st = JNull
   ∨ ∃ k : string, selectedCategory st = JStr k ∧ k ≠ "") →
  holds_entry key e (save_effect st (Text (JObj m))) →
  (selectedCategory st = JStr key ∧ e = session_doc st)
  ∨ holds_entry key e (Text (JObj m)).
Proof.
  intros Hcats Hcat. unfold save_effect, save_try.
  cbn [mbind option_bind as_object].
  rewrite lookup_insert_ne by done. rewrite Hcats.
  cbn [or_default truthy as_object mbind option_bind].
  destruct Hcat as [-> | (k & -> & Hk)].
  - cbn [truthy]. intros (m' & cats' & [= <-] & Hcats' & He). right.
    rewrite lookup_insert_ne in Hcats' by done.
    exists m, cats'. by repeat split.
  - assert (Htruthy : truthy (JStr k) = true).
    { simpl. by destruct (String.eqb_spec k ""). }
    rewrite Htruthy. cbn [to_key].
    intros (m' & cats' & [= <-] & Hcats' & He).
    rewrite lookup_insert_eq in Hcats'. injection Hcats' as <-.
    rewrite lookup_insert in He. case_decide as Hkey.
    + left. injection He as <-. by subst.
    + right. by exists m, cats.
Qed.

Lemma category_of_shape (st : state) :
  state_shape st →
  selectedCategory st = JNull
  ∨ ∃ k : string, selectedCategory st = JStr k ∧ k ≠ "".
Proof.
  intros [_ [(_ & Hcat & _) | (_ & (key & Hkey & Hcat) & _)]]; [by left|].
  right. exists key. split; [assumption|]. by destruct Hkey as [<-|[<-|[]]].
Qed.

Section Ranges.

Variables part1Questions part2Questions : list question.
Hypothesis part1_asks : part1Questions ≠ [].
Hypothesis part2_asks : part2Questions ≠ [].

Lemma category_asks (key : string) (qs : list question) :
  CATEGORIES_questions part1Questions part2Questions key = Some qs →
  (0 < Z.of_nat (length qs))%Z.
Proof.
  unfold CATEGORIES_questions.
  destruct (String.eqb key "PART1"); [|destruct (String.eqb key "PART2")];
    intros [= <-]; [destruct part1Questions|destruct part2Questions];
    try contradiction; cbn [length]; lia.
Qed.

Lemma first_question_in_range (key : string) (qs : list question) :
  CATEGORIES_questions part1Questions part2Questions key = Some qs →
  index_in_range qs (JNum 0).
Proof.
  intros Hqs. exists 0%Z. split; [reflexivity|]. apply category_asks in Hqs. lia.
Qed.

Lemma save_within (st : state) (m cats : gmap string json) :
  m !! "categories" = Some (JObj cats) →
  state_shape st →
  cells_within part1Questions part2Questions st →
  stored_within part1Questions part2Questions (Text (JObj m)) →
  stored_within part1Questions part2Questions (save_effect st (Text (JObj m))).
Proof.
  intros Hcats Hshape Hcells Hstored key qs index answers selection Hheld Hqs.
  destruct (holds_entry_written _ _ st m cats Hcats (category_of_shape st Hshape) Hheld)
    as [[Hcat Hdoc] | Hold].
  - destruct (Hcells key qs Hcat Hqs) as [Hindex Hanswers].
    assert (Hi : read (JObj (<["currentQuestion" := index]>
                             (<["userAnswers" := answers]>
                             (<["selectedOption" := selection]> ∅))))
                   "currentQuestion" = Some (currentQuestion st))
      by (rewrite Hdoc; apply read_session_index).
    assert (Ha : read (JObj (<["currentQuestion" := index]>
                             (<["userAnswers" := answers]>
                             (<["selectedOption" := selection]> ∅))))
                   "userAnswers" = Some (userAnswers st))
      by (rewrite Hdoc; apply read_session_answers).
    cbn [read] in Hi, Ha. rewrite lookup_insert_eq in Hi.
    rewrite lookup_insert_ne, lookup_insert_eq in Ha by done.
    injection Hi as ->. injection Ha as ->. by split.
  - by eapply Hstored.
Qed.

Lemma selectCategory_within (key : string) (st st0 : state) (it : item) :
  mirrors st0 it →
  stored_within part1Questions part2Questions it →
  cells_within part1Questions part2Questions (selectCategory key it st).
Proof.
  intros (m & cats & -> & _ & Hcats & Hentries & _) Hstored key' qs Hcat Hqs.
  destruct (selectCategory_view key (Text (JObj m)) st) as (_ & Hkey & _).
  rewrite Hkey in Hcat. injection Hcat as <-.
  unfold selectCategory. rewrite getSaved_object, Hcats. cbn [read_opt read].
  destruct (cats !! key) as [e|] eqn:He.
  - destruct (Hentries key e He)
      as (index & answers & selection & -> & (k & ->) & (a & -> & _) & _).
    destruct (Hstored key qs (JNum k) (JObj a) selection) as [Hindex Hanswers];
      [by exists m, cats|assumption|].
    cbn [or_default truthy read].
    repeat (rewrite lookup_insert_eq || rewrite lookup_insert_ne by done).
    rewrite or_default_index. by cbn.
  - cbn. split; [by eapply first_question_in_range|apply answers_in_range_empty].
Qed.

Lemma handle_within (i : intent) (it : item) (st st' : state) :
  state_shape st → mirrors st it →
  cells_within part1Questions part2Questions st →
  stored_within part1Questions part2Questions it →
  offered st i →
  handle part1Questions part2Questions i it st = Some st' →
  cells_within part1Questions part2Questions st'.
Proof.
  intros Hshape Hmirrors Hcells Hstored Hoffered.
  assert (Hquiz : screen st = JStr QUIZ →
            ∃ key qs index answers,
              selectedCategory st = JStr key
              ∧ CATEGORIES_questions part1Questions part2Questions key = Some qs
              ∧ questions part1Questions part2Questions st = Some qs
              ∧ currentQuestion st = JNum index
              ∧ userAnswers st = JObj answers
              ∧ (0 ≤ index < Z.of_nat (length qs))%Z
              ∧ answers_in_range qs (JObj answers)).
  { intros Hscr.
    destruct Hshape as [_ [(Hhome & _) | (_ & (key & Hkey & Hcat) & _)]];
      [unfold HOME, QUIZ in *; congruence|].
    assert (Hqs : ∃ qs, CATEGORIES_questions part1Questions part2Questions key = Some qs).
    { unfold CATEGORIES_questions.
      destruct Hkey as [<-|[<-|[]]]; cbn; eauto. }
    destruct Hqs as [qs Hqs].
    destruct (Hcells key qs Hcat Hqs) as [(index & Hindex & Hrange) Hanswers].
    pose proof Hanswers as (answers & Ha & _).
    exists key, qs, index, answers. repeat split; try assumption; try lia.
    - unfold questions. rewrite Hcat, (category_key_truthy key Hkey). exact Hqs.
    - by rewrite <- Ha. }
  destruct i; cbn [handle offered] in *.
  - intros [= <-]. by eapply selectCategory_within.
  - intros [= <-]. exact Hcells.
  - destruct (Hquiz Hoffered)
      as (key & qs & index & answers & Hcat & Hqs & Hquestions & Hi & Ha & Hrange & Hin).
    rewrite Hquestions. cbn [mbind option_bind]. unfold nextQuestion.
    destruct (strict_eq (Some (selectedOption st)) (Some JNull));
      [by intros [= <-]|].
    rewrite Hi, Ha. cbn [as_object as_number mbind option_bind].
    intros [= <-] key' qs' Hcat' Hqs'.
    assert (key' = key) as ->.
    { destruct (index <? Z.of_nat (length qs) - 1)%Z; cbn in Hcat'; congruence. }
    assert (qs' = qs) as -> by congruence.
    destruct (Z.ltb_spec index (Z.of_nat (length qs) - 1)); cbn.
    + split; [exists (index + 1)%Z; split; [reflexivity|lia]|].
      by apply answers_in_range_commit.
    + split; [exists index; split; [assumption|lia]|].
      by apply answers_in_range_commit.
  - destruct (Hquiz Hoffered)
      as (key & qs & index & answers & Hcat & Hqs & _ & Hi & Ha & Hrange & Hin).
    unfold prevQuestion. rewrite Hi.
    destruct (strict_eq (Some (JNum index)) (Some (JNum 0))) eqn:Hzero.
    { intros [= <-]. exact Hcells. }
    assert (Hpos : index ≠ 0%Z).
    { intros ->. by rewrite (proj2 (strict_eq_zero 0) eq_refl) in Hzero. }
    rewrite Ha. cbn [as_object as_number mbind option_bind].
    intros [= <-] key' qs' Hcat' Hqs'.
    assert (key' = key) as ->.
    { destruct (negb _); cbn in Hcat'; congruence. }
    assert (qs' = qs) as -> by congruence.
    destruct (negb _); cbn.
    + split; [exists (index - 1)%Z; split; [reflexivity|lia]|].
      by apply answers_in_range_commit.
    + split; [exists (index - 1)%Z; split; [reflexivity|lia]|].
      by rewrite Ha.
  - destruct (Hquiz Hoffered)
      as (key & qs & index & answers & Hcat & Hqs & _ & Hi & Ha & Hrange & Hin).
    unfold finishQuiz.
    destruct (strict_eq (Some (selectedOption st)) (Some JNull));
      [by intros [= <-]|].
    rewrite Hi, Ha. cbn [as_object as_number mbind option_bind].
    intros [= <-] key' qs' Hcat' Hqs'. cbn in Hcat'.
    assert (key' = key) as -> by congruence.
    assert (qs' = qs) as -> by congruence. cbn.
    split; [exists index; split; [assumption|lia]|].
    by apply answers_in_range_commit.
  - intros [= <-] key qs Hcat Hqs. cbn.
    split; [by eapply first_question_in_range|apply answers_in_range_empty].
  - intros [= <-] key qs Hcat Hqs. cbn in Hcat. discriminate.
Qed.

Lemma mounted_within (st : state) (m cats : gmap string json) :
  m !! "categories" = Some (JObj cats) →
  (∀ key e, cats !! key = Some e → entry_shape e) →
  state_shape st →
  cells_within part1Questions part2Questions st →
  stored_within part1Questions part2Questions (Text (JObj m)) →
  stored_within part1Questions part2Questions
    (save_effect st (save_effect initial_state (Text (JObj m)))).
Proof.
  intros Hcats Hentries Hshape Hcells Hstored.
  assert (Hfirst : stored_within part1Questions part2Questions
                     (save_effect initial_state (Text (JObj m)))).
  { apply (save_within _ _ cats); try assumption; [apply initial_shape|].
    intros key qs Hcat. discriminate. }
  assert (Hshape0 : stored_shape (Text (JObj m))) by (right; right; eauto).
  pose proof (save_stored _ _ initial_shape Hshape0)
    as (m' & cats' & Heq & _ & Hcats' & _).
  rewrite Heq in *. by apply (save_within _ _ cats').
Qed.

(** In every world the engine reaches, the question index is an index of
    the selected category's quiz and every answer, in the cells and in
    each stored session, is recorded for a question of its category. *)
Lemma reachable_within_cells (w : state * item) :
  reachable part1Questions part2Questions w →
  cells_within part1Questions part2Questions (fst w)
  ∧ stored_within part1Questions part2Questions (snd w).
Proof.
  induction 1 as [it Hfresh | w w' i Hreach [Hcells Hstored] Hoffered Hstep
                 | w Hreach [Hcells Hstored]].
  - split.
    + assert (Hload : load it = initial_state) by by destruct Hfresh as [-> | ->].
      unfold mount. rewrite Hload. intros key qs Hcat. discriminate.
    + assert (Hload : load it = initial_state) by by destruct Hfresh as [-> | ->].
      assert (Hfirst : save_effect initial_state it
                = Text (JObj (<["currentView" := view_doc initial_state]>
                               (<["categories" := JObj ∅]> ∅))))
        by by destruct Hfresh as [-> | ->].
      unfold mount. rewrite Hload, Hfirst. cbn [snd].
      apply (save_within _ _ ∅); [done|apply initial_shape| |].
      * intros key qs Hcat. discriminate.
      * intros key qs index answers selection (m & cats & [= <-] & Hcats & He) _.
        rewrite lookup_insert_ne, lookup_insert_eq in Hcats by done.
        injection Hcats as <-. by rewrite lookup_empty in He.
  - destruct (reachable_mirrors _ _ w Hreach) as [Hshape Hmirrors].
    unfold step in Hstep.
    destruct (handle part1Questions part2Questions i (snd w) (fst w))
      as [st'|] eqn:Hhandle; [|discriminate].
    cbn [mbind option_bind] in Hstep. injection Hstep as <-. cbn [fst snd].
    assert (Hshape' : state_shape st').
    { eapply handle_shape; eauto. by eapply mirrors_stored. }
    assert (Hcells' : cells_within part1Questions part2Questions st')
      by exact (handle_within i (snd w) (fst w) st'
                  Hshape Hmirrors Hcells Hstored Hoffered Hhandle).
    split; [assumption|].
    pose proof Hmirrors as (m & cats & Heq & _ & Hcats & _).
    rewrite Heq in *. by apply (save_within _ _ cats).
  - destruct (reachable_mirrors _ _ w Hreach) as [Hshape Hmirrors].
    unfold mount. rewrite (load_mirrors _ _ Hshape Hmirrors). cbn [fst snd].
    assert (Hcells' : cells_within part1Questions part2Questions (rehydrated (fst w))).
    { intros key qs Hcat Hqs. exact (Hcells key qs Hcat Hqs). }
    split; [assumption|].
    pose proof Hmirrors as (m & cats & Heq & _ & Hcats & Hentries & _).
    rewrite Heq in *.
    apply (mounted_within _ _ cats); try assumption. by apply rehydrated_shape.
Qed.

End Ranges.

(** X13: the index and the answers never leave the quiz: in every world the
    engine reaches from an empty store, with both question files
    non-empty, the cells of a selected category hold an index
    [0 <= currentQuestion < questions.length] and answers only under such
    indices, and so does every session stored for a category; hence no
    more answers are recorded than the quiz has questions. *)
Theorem sessions_keep_within_the_quiz
    (part1Questions part2Questions : list question) (w : state * item) :
  part1Questions ≠ [] → part2Questions ≠ [] →
  reachable part1Questions part2Questions w →
  within part1Questions part2Questions w
  ∧ ∀ key qs answers,
      selectedCategory (fst w) = JStr key →
      CATEGORIES_questions part1Questions part2Questions key = Some qs →
      userAnswers (fst w) = JObj answers →
      size answers ≤ length qs.
Proof.
  intros Hp1 Hp2 Hreach.
  destruct (reachable_within_cells _ _ Hp1 Hp2 w Hreach) as [Hcells Hstored].
  split; [by split|].
  intros key qs answers Hcat Hqs Ha.
  destruct (Hcells key qs Hcat Hqs) as [_ Hin]. rewrite Ha in Hin.
  by apply answers_in_range_size.
Qed.

Lemma sessions_keep_within_the_quiz_two_of_five :
  ∃ w : state * item,
    play (replicate 5 (asked "Q" "A")) [asked "Q" "B"] (mount NoItem)
      [SelectCategory "PART1"; SelectOption "A"; NextQuestion;
       SelectOption "B"; NextQuestion; SelectOption "C"] = Some w
    ∧ fst w = two_of_five
    ∧ index_in_range (replicate 5 (asked "Q" "A")) (currentQuestion (fst w))
    ∧ answers_in_range (replicate 5 (asked "Q" "A")) (userAnswers (fst w))
    ∧ stored_within (replicate 5 (asked "Q" "A")) [asked "Q" "B"] (snd w).
Proof.
  destruct (play _ _ _ _) as [w|] eqn:Hplay; [|vm_compute in Hplay; discriminate].
  assert (Hcells : fst w = two_of_five).
  { assert (Heq : fst <$>
                    play (replicate 5 (asked "Q" "A")) [asked "Q" "B"] (mount NoItem)
                      [SelectCategory "PART1"; SelectOption "A"; NextQuestion;
                       SelectOption "B"; NextQuestion; SelectOption "C"]
                  = Some two_of_five) by (vm_compute; reflexivity).
    rewrite Hplay in Heq. cbn in Heq. congruence. }
  assert (Hreach : reachable (replicate 5 (asked "Q" "A")) [asked "Q" "B"] w).
  { eapply play_reachable; [|exact Hplay]. apply reachable_mount. by left. }
  destruct (sessions_keep_within_the_quiz
              (replicate 5 (asked "Q" "A")) [asked "Q" "B"] w
              ltac:(discriminate) ltac:(discriminate) Hreach)
    as [[Hin Hstored] _].
  destruct (Hin "PART1" (replicate 5 (asked "Q" "A"))) as [Hindex Hanswers];
    [by rewrite Hcells|reflexivity|].
  exists w. split; [reflexivity|]. split; [assumption|].
  split; [assumption|]. split; assumption.
Defined.

Section ProgressFacts.

Variables part1Questions part2Questions : list question.

(** The progress of a category whose stored session records the answers
    [answers]. *)
Lemma progress_of_entry
    (key : string) (qs : list question) (it : item)
    (index selection : json) (answers : gmap string json) :
  holds_entry key
    (JObj (<["currentQuestion" := index]>
          (<["userAnswers" := JObj answers]>
          (<["selectedOption" := selection]> ∅)))) it →
  CATEGORIES_questions part1Questions part2Questions key = Some qs →
  getCategoryProgress part1Questions part2Questions key it
  = Some (percent_of (size answers) (length qs)).
Proof.
  intros Hheld Hqs. unfold getCategoryProgress.
  rewrite (holds_entry_saved _ _ _ Hheld). cbn [or_default truthy read].
  rewrite lookup_insert_ne, lookup_insert_eq by done.
  cbn [truthy keys_length]. by rewrite Hqs.
Qed.

(** X14: the progress shown for a category is the percentage of its questions
    with a committed answer: while the category is open, and on the home
    screen after leaving it, [getCategoryProgress] is [Math.round] of
    (number of recorded answers / number of questions) * 100 for the
    answers of the cells. *)
Theorem progress_counts_recorded_answers
    (w : state * item) (key : string) (qs : list question)
    (answers : gmap string json) :
  reachable part1Questions part2Questions w →
  selectedCategory (fst w) = JStr key →
  CATEGORIES_questions part1Questions part2Questions key = Some qs →
  userAnswers (fst w) = JObj answers →
  getCategoryProgress part1Questions part2Questions key (snd w)
  = Some (percent_of (size answers) (length qs))
  ∧ ∃ it' : item,
      step part1Questions part2Questions w GoToHome = Some (initial_state, it')
      ∧ getCategoryProgress part1Questions part2Questions key it'
        = Some (percent_of (size answers) (length qs)).
Proof.
  intros Hreach Hcat Hqs Ha.
  destruct (reachable_mirrors _ _ w Hreach)
    as [Hshape (m & cats & Heq & _ & Hcats & _ & Hown)].
  assert (Hheld : holds_entry key
            (JObj (<["currentQuestion" := currentQuestion (fst w)]>
                  (<["userAnswers" := JObj answers]>
                  (<["selectedOption" := selectedOption (fst w)]> ∅)))) (snd w)).
  { exists m, cats. repeat split; try assumption.
    rewrite (Hown key Hcat). unfold session_doc. by rewrite Ha. }
  split; [by eapply progress_of_entry|].
  eexists. split.
  - unfold step. cbn [handle mbind option_bind].
    change (goToHome (fst w)) with initial_state. reflexivity.
  - eapply progress_of_entry; [|eassumption].
    apply save_keeps_entry; [eassumption|by left].
Qed.

(** X15: the progress of every category is a whole percentage: in a world the
    engine reaches, with question files of 1 to 100 questions,
    [getCategoryProgress] returns an integer between 0 and 100 for each
    key of [CATEGORIES]. *)
Theorem progress_is_a_percentage (w : state * item) (key : string) :
  1 ≤ length part1Questions ≤ 100 →
  1 ≤ length part2Questions ≤ 100 →
  reachable part1Questions part2Questions w →
  In key category_keys →
  ∃ p : Z,
    getCategoryProgress part1Questions part2Questions key (snd w) = Some (Finite p)
    ∧ (0 ≤ p ≤ 100)%Z.
Proof.
  intros Hp1 Hp2 Hreach Hkey.
  assert (Hn1 : part1Questions ≠ []) by (intros ->; cbn in Hp1; lia).
  assert (Hn2 : part2Questions ≠ []) by (intros ->; cbn in Hp2; lia).
  destruct (reachable_within_cells _ _ Hn1 Hn2 w Hreach) as [_ Hstored].
  destruct (reachable_mirrors _ _ w Hreach)
    as [_ (m & cats & Heq & _ & Hcats & Hentries & _)].
  assert (Hqs : ∃ qs, CATEGORIES_questions part1Questions part2Questions key = Some qs
                      ∧ 1 ≤ length qs ≤ 100).
  { unfold CATEGORIES_questions. destruct Hkey as [<-|[<-|[]]]; cbn; eauto. }
  destruct Hqs as (qs & Hqs & Hlen).
  destruct (cats !! key) as [e|] eqn:He.
  - destruct (Hentries key e He)
      as (index & answers & selection & -> & _ & (a & -> & _) & _).
    assert (Hheld : holds_entry key
              (JObj (<["currentQuestion" := index]>
                    (<["userAnswers" := JObj a]>
                    (<["selectedOption" := selection]> ∅)))) (snd w))
      by (by exists m, cats).
    rewrite (progress_of_entry _ _ _ _ _ _ Hheld Hqs).
    destruct (Hstored key qs index (JObj a) selection Hheld Hqs) as [_ Hin].
    apply answers_in_range_size in Hin.
    destruct (percent_of_finite 100 (length qs) (size a)
                percent_scale_table_100 Hlen Hin) as (p & -> & Hp).
    by exists p.
  - exists 0%Z. split; [|lia]. unfold getCategoryProgress.
    rewrite Heq, getSaved_object, Hcats. cbn [read_opt read]. by rewrite He.
Qed.

End ProgressFacts.

Lemma progress_counts_recorded_answers_two_of_five :
  (w ← play (replicate 5 (asked "Q" "A")) [] (mount NoItem)
         [SelectCategory "PART1"; SelectOption "A"; NextQuestion;
          SelectOption "B"; NextQuestion];
   getCategoryProgress (replicate 5 (asked "Q" "A")) [] "PART1" (snd w))
  = Some (Finite 40).
Proof.
  destruct (play _ _ _ _) as [w|] eqn:Hplay; [|vm_compute in Hplay; discriminate].
  cbn [mbind option_bind].
  assert (Hcells : (selectedCategory (fst w), userAnswers (fst w))
            = (JStr "PART1", JObj (<["0" := JStr "A"]> (<["1" := JStr "B"]> ∅)))).
  { assert (Heq : (λ w, (selectedCategory (fst w), userAnswers (fst w))) <$>
                    play (replicate 5 (asked "Q" "A")) [] (mount NoItem)
                      [SelectCategory "PART1"; SelectOption "A"; NextQuestion;
                       SelectOption "B"; NextQuestion]
                  = Some (JStr "PART1",
                          JObj (<["0" := JStr "A"]> (<["1" := JStr "B"]> ∅))))
      by (vm_compute; reflexivity).
    rewrite Hplay in Heq. cbn in Heq. congruence. }
  injection Hcells as Hcat Ha.
  assert (Hreach : reachable (replicate 5 (asked "Q" "A")) [] w).
  { eapply play_reachable; [|exact Hplay]. apply reachable_mount. by left. }
  destruct (progress_counts_recorded_answers
              (replicate 5 (asked "Q" "A")) [] w "PART1"
              (replicate 5 (asked "Q" "A"))
              (<["0" := JStr "A"]> (<["1" := JStr "B"]> ∅))
              Hreach Hcat eq_refl Ha) as [-> _].
  vm_compute. reflexivity.
Defined.

Lemma progress_is_a_percentage_two_of_five :
  ∃ w : state * item,
    play (replicate 5 (asked "Q" "A")) [asked "Q" "B"] (mount NoItem)
      [SelectCategory "PART1"; SelectOption "A"; NextQuestion;
       SelectOption "B"; NextQuestion; GoToHome] = Some w
    ∧ getSavedCategoryData "PART1" (snd w)
      = session_doc (in_quiz "PART1" 2
                       (<["0" := JStr "A"]> (<["1" := JStr "B"]> ∅)) JNull)
    ∧ getCategoryProgress (replicate 5 (asked "Q" "A")) [asked "Q" "B"]
        "PART1" (snd w) = Some (Finite 40)
    ∧ ∃ p : Z,
        getCategoryProgress (replicate 5 (asked "Q" "A")) [asked "Q" "B"]
          "PART1" (snd w) = Some (Finite p)
        ∧ (0 ≤ p ≤ 100)%Z.
Proof.
  destruct (play _ _ _ _) as [w|] eqn:Hplay; [|vm_compute in Hplay; discriminate].
  assert (Hsaved : getSavedCategoryData "PART1" (snd w)
            = session_doc (in_quiz "PART1" 2
                             (<["0" := JStr "A"]> (<["1" := JStr "B"]> ∅)) JNull)
            ∧ getCategoryProgress (replicate 5 (asked "Q" "A")) [asked "Q" "B"]
                "PART1" (snd w) = Some (Finite 40)).
  { assert (Heq : (λ w, (getSavedCategoryData "PART1" (snd w),
                         getCategoryProgress (replicate 5 (asked "Q" "A"))
                           [asked "Q" "B"] "PART1" (snd w))) <$>
                    play (replicate 5 (asked "Q" "A")) [asked "Q" "B"] (mount NoItem)
                      [SelectCategory "PART1"; SelectOption "A"; NextQuestion;
                       SelectOption "B"; NextQuestion; GoToHome]
                  = Some (session_doc
                            (in_quiz "PART1" 2
                               (<["0" := JStr "A"]> (<["1" := JStr "B"]> ∅)) JNull),
                          Some (Finite 40)))
      by (vm_compute; reflexivity).
    rewrite Hplay in Heq. cbn [fmap option_fmap option_map] in Heq.
    injection Heq as H1 H2. by split. }
  destruct Hsaved as [Hsaved Hforty].
  assert (Hreach : reachable (replicate 5 (asked "Q" "A")) [asked "Q" "B"] w).
  { eapply play_reachable; [|exact Hplay]. apply reachable_mount. by left. }
  exists w. split; [reflexivity|]. split; [assumption|]. split; [assumption|].
  apply (progress_is_a_percentage (replicate 5 (asked "Q" "A")) [asked "Q" "B"]
           w "PART1"); [cbn; lia|cbn; lia|assumption|by left].
Defined.

End RangeFacts.

(** ** Restarting the single-category component *)

Section SingleRestart.

Import Engine Shape Scenario.

(** X16: [restartQuiz] of the single-category component puts the cells back to
    their initial values and removes the stored item; whether or not the
    save effect then writes the new cells, a reload starts from the
    initial cells, whatever the cells and the item were before.  When the
    save effect does run, the item is present again and holds the
    initial cells. *)
Theorem single_restart_forgets_the_session (w : Single.state * item) :
  fst (Single.restartQuiz w) = Single.initial_state
  ∧ snd (Single.restartQuiz w) = NoItem
  ∧ Single.load (snd (Single.restartQuiz w)) = Single.initial_state
  ∧ snd (Single.saved (Single.restartQuiz w))
    = Single.save_effect Single.initial_state
  ∧ Single.load (snd (Single.saved (Single.restartQuiz w))) = Single.initial_state.
Proof. by repeat split. Qed.

End SingleRestart.
